(** * getoptx: positional-argument policy, option descriptors and
      subcommand resolution

    A shallow embedding of the Go package [getoptx] (the flat parser
    wrapper and the subcommand tree) together with the properties its
    specification states about it.

    Conventions of the embedding:
    - a Go [string] is a byte sequence, here a [string] (one [ascii] per byte);
    - a Go [int] is a [Z] (64-bit platform, [MaxInt = 2^63 - 1]);
    - a Go [(T, error)] result is a sum [error + T];
    - writes to [os.Stdout] and [os.Stderr] are appended to the two
      strings of a [World];
    - the libraries the package delegates to (the flat option scanner
      [github.com/pborman/getopt/v2], [strcase.ToKebab],
      [wordwrap.WrapString]) are parameters of the development. *)

From Stdlib Require Import ZArith Ascii String List Bool Lia.
From Stdlib Require Import Sorting.Sorted Sorting.Permutation Structures.OrderedTypeEx.
From stdpp Require Import base tactics option list strings gmap sorting.

Local Open Scope Z_scope.

(** ** Strings *)

(** The one-byte string ["\n"]. *)
Definition LF : string := String (ascii_of_nat 10) EmptyString.

(** [strings.HasSuffix]. *)
Definition HasSuffix (s suffix : string) : bool :=
  let n := String.length s in
  let k := String.length suffix in
  (k <=? n)%nat && String.eqb (substring (n - k) k s) suffix.

(** [strings.Join]. *)
Fixpoint Join (elems : list string) (sep : string) : string :=
  match elems with
  | [] => ""
  | [x] => x
  | x :: rest => x +:+ sep +:+ Join rest sep
  end.

(** [strings.Split(s, "\n")]: the pieces of [s] between line feeds. *)
Fixpoint SplitLines_go (s : string) (cur : string) : list string :=
  match s with
  | EmptyString => [cur]
  | String c rest =>
      if Ascii.eqb c (ascii_of_nat 10)
      then cur :: SplitLines_go rest ""
      else SplitLines_go rest (cur +:+ String c EmptyString)
  end.

Definition SplitLines (s : string) : list string := SplitLines_go s "".

(** ** Errors *)

(** The package-level error values keep their identity; an error made on
    the spot by [errors.New] is known by its message; [fmt.Errorf] with
    [%w] keeps the error it wraps; [FlatParserError] is whatever the flat
    option scanner returned. *)
Inductive error : Type :=
| ErrTooManyPositionalArguments
| ErrTooFewPositionalArguments
| ErrNoSuchSubcommand
| errorsNew (msg : string)
| fmtErrorf (msg : string) (wrapped : error)
| FlatParserError (msg : string).

(** [err.Error()]. *)
Definition Error (e : error) : string :=
  match e with
  | ErrTooManyPositionalArguments => "too many positional arguments"
  | ErrTooFewPositionalArguments => "too few positional arguments"
  | ErrNoSuchSubcommand => "no such subcommand"
  | errorsNew msg => msg
  | fmtErrorf msg _ => msg
  | FlatParserError msg => msg
  end.

(** [errors.Is(e, target)] for the three package-level errors. *)
Fixpoint errorsIs (e target : error) : bool :=
  match e, target with
  | ErrTooManyPositionalArguments, ErrTooManyPositionalArguments => true
  | ErrTooFewPositionalArguments, ErrTooFewPositionalArguments => true
  | ErrNoSuchSubcommand, ErrNoSuchSubcommand => true
  | fmtErrorf _ inner, _ => errorsIs inner target
  | _, _ => false
  end.

(** ** Positional-argument policy *)

Definition MaxInt : Z := 2 ^ 63 - 1.

Record positionalArgumentsChecker : Type := mkPac {
  minArgs : Z;
  maxArgs : Z
}.

Definition newPositionalArgumentsChecker : positionalArgumentsChecker :=
  {| minArgs := -1; maxArgs := MaxInt |}.

(** [pac.check(p)], as a function of [count = p.NArgs()]; [None] is the
    [nil] error. *)
Definition check (pac : positionalArgumentsChecker) (count : Z) : option error :=
  if (count <? minArgs pac)%Z then Some ErrTooFewPositionalArguments
  else if (maxArgs pac <? count)%Z then Some ErrTooManyPositionalArguments
  else None.

(** The pieces of configuration a caller can pass. *)
Inductive Config : Type :=
| setProgramName (name : string)
| setPositionalArgumentsPlaceholder (name : string)
| minMaxPositionalArguments (minArgs maxArgs : Z).

Definition SetProgramName (name : string) : Config := setProgramName name.
Definition SetPositionalArgumentsPlaceholder (name : string) : Config :=
  setPositionalArgumentsPlaceholder name.
Definition NoPositionalArguments : Config := minMaxPositionalArguments 0 0.
Definition AtLeastOnePositionalArgument : Config := minMaxPositionalArguments 1 MaxInt.
Definition JustOnePositionalArgument : Config := minMaxPositionalArguments 1 1.

(** ** Option records *)

(** What the flat parser needs to know of a field's Go type: a [bool]
    and a [Counter] make valueless options, every other supported type
    ([string], [int], [[]string], ...) an option that takes a value. *)
Inductive fieldKind : Type := KBool | KCounter | KValue.

(** One field of an option record, as [reflect] shows it: its name,
    whether it is exported ([CanInterface]), and the values of its
    [doc], [short] and [required] tags (the empty string when the tag is absent). *)
Record StructField : Type := mkField {
  fieldName : string;
  fieldExported : bool;
  fieldKindOf : fieldKind;
  tagDoc : string;
  tagShort : string;
  tagRequired : string
}.

(** The [flags]/[options] value handed to the package ([interface{}]):
    a pointer to one of the package's two empty marker structs, a pointer
    to a caller's struct (known by the name of its type and its fields),
    or something that is not a pointer to a struct at all. *)
Inductive flagsValue : Type :=
| NotAPointer
| PointerToNonStruct
| PointerToSubcommandHelp
| PointerToHasPrintedHelp
| PointerToStruct (typeName : string) (fields : list StructField).

Definition structFields (flags : flagsValue) : list StructField :=
  match flags with
  | PointerToStruct _ fields => fields
  | _ => []
  end.

(** The type assertion that [v] is a pointer to [subcommandHelp]. *)
Definition isSubcommandHelp (v : flagsValue) : bool :=
  match v with
  | PointerToSubcommandHelp => true
  | _ => false
  end.

(** ** The flat parser's option set *)

(** The storage an option writes to: a field of the caller's record, or
    the [help] cell of a command node. *)
Inductive binding : Type :=
| BoundField (index : nat)
| BoundHelp.

(** An option of the flat parser: long name, short name (a rune, [0] for
    none), whether it is valueless, whether it is mandatory. *)
Record getoptOption : Type := mkOption {
  optLong : string;
  optShort : Z;
  optHelpvalue : string;
  optFlag : bool;
  optMandatory : bool;
  optTarget : binding
}.

(** [getopt.Set]: the options in the order of their registration, the
    display metadata a [Config] may set ([None]: the library's default),
    and the positional arguments left by the last scan. *)
Record getoptSet : Type := mkSet {
  setOptions : list getoptOption;
  setProgram : option string;
  setParameters : option string;
  setArgs : list string
}.

Definition getoptNew : getoptSet :=
  {| setOptions := []; setProgram := None; setParameters := None; setArgs := [] |}.

(** [o.ShortName() == "h" || o.LongName() == "help"]. *)
Definition isHelpOption (o : getoptOption) : bool :=
  (optShort o =? 104)%Z || String.eqb (optLong o) "help".

(** [Set.FlagLong]: the library refuses to declare a short or a long
    name twice (and an option with neither name) by ending the process;
    [None] stands for that. *)
Definition sameName (o o' : getoptOption) : bool :=
  (negb (optShort o =? 0)%Z && (optShort o' =? optShort o)%Z)
  || (negb (String.eqb (optLong o) "") && String.eqb (optLong o') (optLong o)).

Definition FlagLong (s : getoptSet) (o : getoptOption) : option getoptSet :=
  if (optShort o =? 0)%Z && String.eqb (optLong o) "" then None
  else if existsb (sameName o) (setOptions s) then None
  else Some {| setOptions := setOptions s ++ [o];
               setProgram := setProgram s;
               setParameters := setParameters s;
               setArgs := setArgs s |}.

(** [opt.SetFlag()] and [opt.Mandatory()] on the option registered last. *)
Definition withFlag (o : getoptOption) : getoptOption :=
  {| optLong := optLong o; optShort := optShort o; optHelpvalue := optHelpvalue o;
     optFlag := true; optMandatory := optMandatory o; optTarget := optTarget o |}.

Definition withMandatory (o : getoptOption) : getoptOption :=
  {| optLong := optLong o; optShort := optShort o; optHelpvalue := optHelpvalue o;
     optFlag := optFlag o; optMandatory := true; optTarget := optTarget o |}.

(** What one scan of an argument vector did: the error it ended with (if
    any), the value it left in the cell bound to the injected help
    option (if it wrote there at all), and how many arguments after the
    program name it consumed as options. The positional arguments are
    the rest: the scanner only ever reslices the vector it is given. *)
Record scanned : Type := mkScanned {
  scanError : option string;
  scanHelp : option bool;
  scanConsumed : nat
}.

(** ** The wrapper around the flat parser *)

Record parserWrapper : Type := mkParserWrapper {
  set : getoptSet;
  docs : gmap string string;
  pwPac : positionalArgumentsChecker;
  required : gmap string bool
}.

(** [p.numOptions()]. *)
Definition numOptions (p : parserWrapper) : Z := Z.of_nat (size (docs p)).

(** [p.Args()] and [p.NArgs()]. *)
Definition Args (p : parserWrapper) : list string := setArgs (set p).
Definition NArgs (p : parserWrapper) : Z := Z.of_nat (length (Args p)).

(** [config.visit(pw)]. *)
Definition visit (c : Config) (p : parserWrapper) : parserWrapper :=
  match c with
  | setProgramName n =>
      if String.eqb n "" then p
      else {| set := {| setOptions := setOptions (set p); setProgram := Some n;
                        setParameters := setParameters (set p); setArgs := setArgs (set p) |};
              docs := docs p; pwPac := pwPac p; required := required p |}
  | setPositionalArgumentsPlaceholder n =>
      if String.eqb n "" then p
      else {| set := {| setOptions := setOptions (set p); setProgram := setProgram (set p);
                        setParameters := Some n; setArgs := setArgs (set p) |};
              docs := docs p; pwPac := pwPac p; required := required p |}
  | minMaxPositionalArguments lo hi =>
      {| set := set p; docs := docs p; pwPac := {| minArgs := lo; maxArgs := hi |};
         required := required p |}
  end.

(** ** Outcomes and output *)

(** A call either returns, or the process ends under it: by a [panic],
    or because the flat parser library called [exit]. *)
Inductive crash : Type :=
| Panic (msg : string)
| LibraryExit.

Inductive run (A : Type) : Type :=
| Val (a : A)
| Crash (c : crash).
Arguments Val {A} a.
Arguments Crash {A} c.

Record World : Type := mkWorld {
  stdout : string;
  stderr : string
}.

Definition M (A : Type) : Type := World -> run A * World.

Definition ret {A} (a : A) : M A := fun w => (Val a, w).

Definition bind {A B} (m : M A) (k : A -> M B) : M B :=
  fun w => match m w with
           | (Val a, w') => k a w'
           | (Crash c, w') => (Crash c, w')
           end.

Definition die {A} (c : crash) : M A := fun w => (Crash c, w).

Definition lift {A} (r : run A) : M A := fun w => (r, w).

(** [fmt.Fprint(os.Stdout, s)] and [fmt.Fprint(os.Stderr, s)]. *)
Definition print (s : string) : M unit :=
  fun w => (Val tt, {| stdout := stdout w +:+ s; stderr := stderr w |}).

Definition eprint (s : string) : M unit :=
  fun w => (Val tt, {| stdout := stdout w; stderr := stderr w +:+ s |}).

Notation "'do' x <- m ; k" := (bind m (fun x => k))
  (at level 10, x name, m at level 100, k at level 200).
Notation "m ;; k" := (bind m (fun _ => k))
  (at level 100, k at level 200, right associativity).

(** ** Command nodes *)

#[warnings="-register-all"]
Inductive CommandParser : Type := mkCommandParser {
  description : string;
  help : bool;
  name : string;
  options : flagsValue;
  pac : positionalArgumentsChecker;
  subcommands : list CommandParser
}.

Record SelectedCommand : Type := mkSelectedCommand {
  scOptions : flagsValue;
  scArgs : list string
}.

(** [sort.SliceStable] with [less(i, j) = subcommands[i].name <
    subcommands[j].name]. A stable sort has one possible result; it is
    computed here by stable insertion. *)
Fixpoint insertStable (x : CommandParser) (l : list CommandParser) : list CommandParser :=
  match l with
  | [] => [x]
  | y :: l' =>
      if String.ltb (name y) (name x) then y :: insertStable x l'
      else x :: y :: l'
  end.

Definition sortSliceStable (l : list CommandParser) : list CommandParser :=
  foldr insertStable [] l.

Definition Subcommand (name description : string) (options : flagsValue)
    (subcommands : list CommandParser) : CommandParser :=
  {| description := description;
     help := false;
     name := name;
     options := options;
     pac := newPositionalArgumentsChecker;
     subcommands := sortSliceStable subcommands |}.

(** One round of the loop of [LeafSubcommand]: a positional-argument
    config sets the node's checker, any other piece is logged and
    ignored. *)
Definition applyLeafConfig (p : CommandParser) (entry : Config) : CommandParser :=
  match entry with
  | minMaxPositionalArguments lo hi =>
      {| description := description p; help := help p; name := name p;
         options := options p; pac := {| minArgs := lo; maxArgs := hi |};
         subcommands := subcommands p |}
  | _ => p
  end.

Definition LeafSubcommand (name description : string) (options : flagsValue)
    (config : list Config) : CommandParser :=
  foldl applyLeafConfig (Subcommand name description options []) config.

Definition containsHelp (subcommands : list CommandParser) : bool :=
  existsb (fun sc => String.eqb (name sc) "help") subcommands.

(** ** UTF-8 *)

Definition RuneError : Z := 65533.

Definition byteOf (c : ascii) : Z := Z.of_N (N_of_ascii c).

Definition isCont (b : Z) : bool := (128 <=? b)%Z && (b <=? 191)%Z.

(** [utf8.DecodeRune]: the first rune of a byte sequence and its width
    in bytes; an invalid or truncated encoding yields [RuneError] and
    width 1, the empty sequence [RuneError] and width 0. *)
Definition DecodeRune (p : list Z) : Z * nat :=
  match p with
  | [] => (RuneError, 0%nat)
  | p0 :: rest =>
      if (p0 <? 128)%Z then (p0, 1%nat)
      else if (p0 <? 194)%Z then (RuneError, 1%nat)
      else if (p0 <? 224)%Z then
        match rest with
        | b1 :: _ =>
            if isCont b1
            then (Z.lor (Z.shiftl (Z.land p0 31) 6) (Z.land b1 63), 2%nat)
            else (RuneError, 1%nat)
        | _ => (RuneError, 1%nat)
        end
      else if (p0 <? 240)%Z then
        match rest with
        | b1 :: b2 :: _ =>
            let lo := if (p0 =? 224)%Z then 160 else 128 in
            let hi := if (p0 =? 237)%Z then 159 else 191 in
            if (lo <=? b1)%Z && (b1 <=? hi)%Z && isCont b2
            then (Z.lor (Z.shiftl (Z.land p0 15) 12)
                    (Z.lor (Z.shiftl (Z.land b1 63) 6) (Z.land b2 63)), 3%nat)
            else (RuneError, 1%nat)
        | _ => (RuneError, 1%nat)
        end
      else if (p0 <? 245)%Z then
        match rest with
        | b1 :: b2 :: b3 :: _ =>
            let lo := if (p0 =? 240)%Z then 144 else 128 in
            let hi := if (p0 =? 244)%Z then 143 else 191 in
            if (lo <=? b1)%Z && (b1 <=? hi)%Z && isCont b2 && isCont b3
            then (Z.lor (Z.shiftl (Z.land p0 7) 18)
                    (Z.lor (Z.shiftl (Z.land b1 63) 12)
                       (Z.lor (Z.shiftl (Z.land b2 63) 6) (Z.land b3 63))), 4%nat)
            else (RuneError, 1%nat)
        | _ => (RuneError, 1%nat)
        end
      else (RuneError, 1%nat)
  end.

Definition bytesOf (s : string) : list Z := map byteOf (list_ascii_of_string s).

(** [utf8.RuneCountInString]: the length of a string in characters. Each
    round drops the bytes of one rune, so the byte length is fuel enough. *)
Fixpoint RuneCount_go (fuel : nat) (p : list Z) : nat :=
  match fuel with
  | O => 0
  | S fuel' =>
      match p with
      | [] => 0
      | _ => S (RuneCount_go fuel' (drop (snd (DecodeRune p)) p))
      end
  end.

Definition RuneCountInString (s : string) : nat :=
  RuneCount_go (String.length s) (bytesOf s).

(** [string(r)] for a rune [r]: its UTF-8 encoding, that of [RuneError]
    when [r] is not a valid code point. *)
Definition byteChar (b : Z) : string := String (ascii_of_N (Z.to_N b)) EmptyString.

Definition stringOfRune (r : Z) : string :=
  if (r <? 0)%Z then byteChar 239 +:+ byteChar 191 +:+ byteChar 189
  else if (r <? 128)%Z then byteChar r
  else if (r <? 2048)%Z then
    byteChar (Z.lor 192 (Z.shiftr r 6)) +:+ byteChar (Z.lor 128 (Z.land r 63))
  else if ((r <? 55296)%Z || ((57343 <? r)%Z && (r <? 65536)%Z)) then
    byteChar (Z.lor 224 (Z.shiftr r 12))
    +:+ byteChar (Z.lor 128 (Z.land (Z.shiftr r 6) 63))
    +:+ byteChar (Z.lor 128 (Z.land r 63))
  else if ((65535 <? r)%Z && (r <=? 1114111)%Z) then
    byteChar (Z.lor 240 (Z.shiftr r 18))
    +:+ byteChar (Z.lor 128 (Z.land (Z.shiftr r 12) 63))
    +:+ byteChar (Z.lor 128 (Z.land (Z.shiftr r 6) 63))
    +:+ byteChar (Z.lor 128 (Z.land r 63))
  else byteChar 239 +:+ byteChar 191 +:+ byteChar 189.

(** [o.ShortName()]. *)
Definition ShortName (o : getoptOption) : string :=
  if (optShort o =? 0)%Z then "" else stringOfRune (optShort o).

(** ** Building the option descriptors *)

Definition errNotPointer : error := errorsNew "expected a pointer".
Definition errNotStruct : error := errorsNew "expected a pointer to struct".
Definition errMissingDocumentation : error :=
  errorsNew "there is a field without documentation".
Definition errInvalidShortName : error :=
  errorsNew "the short tag's value must contain a single-byte string".
Definition errPrivateField : error :=
  errorsNew "a field inside the structure is private".

Definition helpDoc : string := "Prints this help message".

(** The option [maybeAddHelpFlags] registers: [-h], [--help], bound to
    the node's [help] cell, valueless as every [bool] option. *)
Definition helpOption : getoptOption :=
  {| optLong := "help"; optShort := 104; optHelpvalue := helpDoc;
     optFlag := true; optMandatory := false; optTarget := BoundHelp |}.

(** ** An instance of the library parameters

    The scanner below follows the documented behaviour of the flat
    parser library: the first argument is the program name; scanning
    stops at the first argument that is empty or does not start with a
    dash, at a lone dash, and after a double dash; [--name], [--name=value]
    and clusters of short options are looked up in the set; an option
    that takes a value and has none attached takes the next argument;
    after a scan without error every mandatory option must have been
    seen. Short names are matched byte by byte (the ASCII ones), and any
    value is accepted for an option bound to the caller's record, whose
    storage the embedding does not follow. It serves to run the
    development on concrete command lines. *)

Definition lowerAscii (c : ascii) : ascii :=
  let n := nat_of_ascii c in
  if ((65 <=? n) && (n <=? 90))%nat then ascii_of_nat (n + 32) else c.

Fixpoint ToLower (s : string) : string :=
  match s with
  | EmptyString => EmptyString
  | String c rest => String (lowerAscii c) (ToLower rest)
  end.

(** The library's reading of the value of a [bool] option. *)
Definition parseBoolValue (value : string) : option bool :=
  let v := ToLower value in
  if existsb (String.eqb v) [""; "1"; "true"; "on"; "t"] then Some true
  else if existsb (String.eqb v) ["0"; "false"; "off"; "f"] then Some false
  else None.

Definition findLong (opts : list getoptOption) (n : string) : option getoptOption :=
  List.find (fun o => negb (String.eqb n "") && String.eqb (optLong o) n) opts.

Definition findShort (opts : list getoptOption) (r : Z) : option getoptOption :=
  List.find (fun o => negb (r =? 0)%Z && (optShort o =? r)%Z) opts.

(** The scan state: the last value written to the help cell and the long
    names of the options seen. *)
Definition scanState : Type := option bool * list string.

(** [opt.value.Set(value, opt)]. *)
Definition setValue (o : getoptOption) (value : string) (st : scanState)
    : string + scanState :=
  let '(hw, seen) := st in
  match optTarget o with
  | BoundHelp =>
      match parseBoolValue value with
      | Some b => inr (Some b, optLong o :: seen)
      | None => inl ("invalid value for bool --" +:+ optLong o)
      end
  | BoundField _ => inr (hw, optLong o :: seen)
  end.

(** What one argument makes of the scan. *)
Inductive decision : Type :=
| StopHere
| StopAfter
| Failed (msg : string) (st : scanState)
| Next (st : scanState)
| NextSkip (st : scanState).

Definition ofSet (st0 : scanState) (r : string + scanState)
    (k : scanState -> decision) : decision :=
  match r with
  | inl msg => Failed msg st0
  | inr st => k st
  end.

(** A cluster of short options, the dash removed. *)
Fixpoint scanShorts (opts : list getoptOption) (cluster : string)
    (next : option string) (st : scanState) : decision :=
  match cluster with
  | EmptyString => Next st
  | String c rest =>
      match findShort opts (byteOf c) with
      | None => Failed ("unknown option: -" +:+ String c EmptyString) st
      | Some o =>
          if optFlag o then ofSet st (setValue o "" st) (scanShorts opts rest next)
          else if negb (String.eqb rest "") then ofSet st (setValue o rest st) Next
          else
            match next with
            | None => Failed ("missing parameter for -" +:+ String c EmptyString) st
            | Some value => ofSet st (setValue o value st) NextSkip
            end
      end
  end.

(** The part of [s] before the first [=] and the part after it, if any. *)
Fixpoint cutAtEquals (s : string) : string * option string :=
  match s with
  | EmptyString => (EmptyString, None)
  | String c rest =>
      if Ascii.eqb c "="%char then (EmptyString, Some rest)
      else let '(n, v) := cutAtEquals rest in (String c n, v)
  end.

Definition scanLong (opts : list getoptOption) (body : string)
    (next : option string) (st : scanState) : decision :=
  let '(n, attached) := cutAtEquals body in
  let found :=
    match findLong opts n with
    | Some o => Some o
    | None =>
        match n with
        | String c EmptyString => findShort opts (byteOf c)
        | _ => None
        end
    end in
  match found with
  | None => Failed ("unknown option: --" +:+ n) st
  | Some o =>
      match attached with
      | Some value => ofSet st (setValue o value st) Next
      | None =>
          if optFlag o then ofSet st (setValue o "" st) Next
          else
            match next with
            | None => Failed ("missing parameter for --" +:+ n) st
            | Some value => ofSet st (setValue o value st) NextSkip
            end
      end
  end.

Definition scanArg (opts : list getoptOption) (arg : string)
    (next : option string) (st : scanState) : decision :=
  match arg with
  | String "-" EmptyString => StopHere
  | String "-" (String "-" EmptyString) => StopAfter
  | String "-" (String "-" body) => scanLong opts body next st
  | String "-" cluster => scanShorts opts cluster next st
  | _ => StopHere
  end.

(** The check made after a scan without error. *)
Definition missingMandatory (opts : list getoptOption) (seen : list string)
    : option string :=
  match List.find (fun o => optMandatory o
                            && negb (existsb (String.eqb (optLong o)) seen)) opts with
  | Some o => Some ("option --" +:+ optLong o +:+ " is mandatory")
  | None => None
  end.

Definition scanEnd (opts : list getoptOption) (st : scanState) (consumed : nat) : scanned :=
  {| scanError := missingMandatory opts (snd st);
     scanHelp := fst st; scanConsumed := consumed |}.

Fixpoint scanLoop (opts : list getoptOption) (args : list string)
    (st : scanState) (consumed : nat) : scanned :=
  match args with
  | [] => scanEnd opts st consumed
  | arg :: rest =>
      match scanArg opts arg (head rest) st with
      | StopHere => scanEnd opts st consumed
      | StopAfter => scanEnd opts st (S consumed)
      | Failed msg st' =>
          {| scanError := Some msg; scanHelp := fst st'; scanConsumed := consumed |}
      | Next st' => scanLoop opts rest st' (S consumed)
      | NextSkip st' =>
          match rest with
          | _ :: rest' => scanLoop opts rest' st' (S (S consumed))
          | [] => scanEnd opts st' (S consumed)
          end
      end
  end.

Definition posixGetopt (s : getoptSet) (args : list string) : scanned :=
  scanLoop (setOptions s) (tail args) (None, []) 0.

(** An argument the scanner takes for a positional one: it does not
    start with a dash. *)
Definition isWord (arg : string) : bool :=
  match arg with
  | String "-" _ => false
  | _ => true
  end.

(** Instances of the other parameters: field names lowered, text left
    unwrapped, options visited in the order of their registration. *)
Definition lowerKebab (s : string) : string := ToLower s.
Definition noWrap (s : string) (width : Z) : string := s.
Definition visitInOrder (opts : list getoptOption) : list getoptOption := opts.

Section Getoptx.

(** [os.Args[0]]. *)
Variable osArgs0 : string.

(** [strcase.ToKebab] and [wordwrap.WrapString]. *)
Variable ToKebab : string -> string.
Variable WrapString : string -> Z -> string.

(** [Set.VisitAll]: the order in which the library enumerates the
    registered options, all of them whatever the order. *)
Variable VisitAll : list getoptOption -> list getoptOption.
Hypothesis VisitAll_all : forall opts, VisitAll opts ≡ₚ opts.

(** [Set.Getopt(args, nil)]: the library's scan of an argument vector
    against an option set. *)
Variable SetGetopt : getoptSet -> list string -> scanned.

(** The state of a [newParserWrapper] loop: the flat parser and the two
    maps. *)
Definition building : Type := getoptSet * gmap string string * gmap string bool.

(** Steps 3 to 8 of [newParserWrapper] for the field at [idx]. The
    test [CanAddr] of step 3 always passes on a field reached through
    the pointer, so it has no counterpart here. The option is registered
    with the attributes that [SetFlag] and [Mandatory] give it right
    after registration. *)
Definition processField (idx : nat) (f : StructField) (st : building)
    : run (error + building) :=
  let '(parser, docs, required) := st in
  let docstring := tagDoc f in
  if String.eqb docstring "-" then Val (inr st)
  else if String.eqb docstring "" then Val (inl errMissingDocumentation)
  else
    let shortName := tagShort f in
    if negb (String.eqb shortName "") && negb (String.length shortName =? 1)%nat
    then Val (inl errInvalidShortName)
    else
      let short :=
        if String.eqb shortName "" then 0 else fst (DecodeRune (bytesOf shortName)) in
      let name := ToKebab (fieldName f) in
      let docs := <[name := docstring]> docs in
      if negb (fieldExported f) then Val (inl errPrivateField)
      else
        let mandatory := String.eqb (tagRequired f) "true" in
        let opt :=
          {| optLong := name; optShort := short; optHelpvalue := docstring;
             optFlag := match fieldKindOf f with KValue => false | _ => true end;
             optMandatory := mandatory; optTarget := BoundField idx |} in
        match FlagLong parser opt with
        | None => Crash LibraryExit
        | Some parser =>
            let required :=
              if mandatory then <[name := true]> required else required in
            Val (inr (parser, docs, required))
        end.

(** The loop over the fields, from index [idx] on. *)
Fixpoint processFields (idx : nat) (fields : list StructField) (st : building)
    : run (error + building) :=
  match fields with
  | [] => Val (inr st)
  | f :: rest =>
      match processField idx f st with
      | Val (inr st') => processFields (S idx) rest st'
      | other => other
      end
  end.

(** The package-level [newParserWrapper(flags, configs...)]. *)
Definition newParserWrapper (flags : flagsValue) (configs : list Config)
    : run (error + parserWrapper) :=
  match flags with
  | NotAPointer => Val (inl errNotPointer)
  | PointerToNonStruct => Val (inl errNotStruct)
  | _ =>
      match processFields 0 (structFields flags) (getoptNew, ∅, ∅) with
      | Val (inr (parser, docs, required)) =>
          let pw := {| set := parser; docs := docs;
                       pwPac := newPositionalArgumentsChecker;
                       required := required |} in
          Val (inr (foldl (fun pw config => visit config pw) pw configs))
      | Val (inl e) => Val (inl e)
      | Crash c => Crash c
      end
  end.

(** [p.maybeAddHelpFlags(help)]: the wrapper afterwards and the boolean
    the method returns. *)
Definition maybeAddHelpFlags (p : parserWrapper) : run (bool * parserWrapper) :=
  let found := existsb isHelpOption (VisitAll (setOptions (set p))) in
  if found then Val (false, p)
  else
    match FlagLong (set p) helpOption with
    | None => Crash LibraryExit
    | Some s =>
        Val (true, {| set := s; docs := <["help" := helpDoc]> (docs p);
                      pwPac := pwPac p; required := required p |})
    end.

(** Whether the node's [help] cell is bound to an option of the set. *)
Definition helpBound (p : parserWrapper) : bool :=
  existsb (fun o => match optTarget o with BoundHelp => true | _ => false end)
    (setOptions (set p)).

(** [parserWrapper.Getopt(args)]: the scan, then the wrapper's own
    positional-argument check. Returns the error (if any), the wrapper
    holding the positional arguments, and what the scan wrote to the
    help cell. *)
Definition pwGetopt (p : parserWrapper) (args : list string)
    : option error * parserWrapper * option bool :=
  let r := SetGetopt (set p) args in
  let p' := {| set := {| setOptions := setOptions (set p);
                         setProgram := setProgram (set p);
                         setParameters := setParameters (set p);
                         setArgs := drop (S (scanConsumed r)) args |};
               docs := docs p; pwPac := pwPac p; required := required p |} in
  match scanError r with
  | Some msg => (Some (FlatParserError msg), p', scanHelp r)
  | None => (check (pwPac p') (NArgs p'), p', scanHelp r)
  end.

(** ** Rendering help *)

Fixpoint forEach {A} (l : list A) (body : A -> M unit) : M unit :=
  match l with
  | [] => ret tt
  | x :: rest => body x ;; forEach rest body
  end.

(** The loop shared by the renderers: [doc], closed by a period, wrapped
    at [width] columns, one indented line per [Fprintf]. *)
Definition printWrapped (doc : string) (width : Z) : M unit :=
  forEach (SplitLines (WrapString doc width))
    (fun line => print ("             " +:+ line +:+ LF)).

Definition withPeriod (doc : string) : string :=
  if HasSuffix doc "." then doc else doc +:+ ".".

Definition lookupDoc (m : gmap string string) (k : string) : string :=
  default "" (m !! k).

Definition lookupRequired (m : gmap string bool) (k : string) : bool :=
  default false (m !! k).

(** [parserWrapper.printOptions(w)], with [w = os.Stdout]. *)
Definition pwPrintOptions (p : parserWrapper) : M unit :=
  print ("Options:" +:+ LF +:+ LF) ;;
  forEach (VisitAll (setOptions (set p))) (fun o =>
    (if negb (String.eqb (ShortName o) "")
     then print ("  -" +:+ ShortName o +:+ ", --" +:+ optLong o)
     else print ("      --" +:+ optLong o)) ;;
    (if negb (optFlag o) then print " value" else ret tt) ;;
    print LF ;;
    let doc := withPeriod (lookupDoc (docs p) (optLong o)) in
    let doc :=
      if lookupRequired (required p) (optLong o)
      then doc +:+ " This option is mandatory." else doc in
    printWrapped doc 64 ;;
    print LF).

Definition positionalArgumentsPlaceholder (p : CommandParser) : string :=
  if (0 <? length (subcommands p))%nat then " <subcommand> [...]"
  else if (1 <? maxArgs (pac p))%Z then " <argument> [<argument> ...]"
  else if (0 <? maxArgs (pac p))%Z then " <argument>"
  else "".

Definition hasOptions (p : CommandParser) : run bool :=
  match newParserWrapper (options p) [] with
  | Val (inr parser) => Val (0 <? numOptions parser)%Z
  | Val (inl _) => Val false
  | Crash c => Crash c
  end.

(** What the loop of [printBriefUsage] adds to its string builder. *)
Fixpoint usageEntries (chain : list CommandParser) : M string :=
  match chain with
  | [] => ret ""
  | entry :: rest =>
      do has <- lift (hasOptions entry);
      do more <- usageEntries rest;
      ret (" " +:+ name entry +:+ (if has then " [options]" else "") +:+ more)
  end.

Definition printBriefUsage (p : CommandParser) (chain : list CommandParser) : M unit :=
  do entries <- usageEntries chain;
  print (LF +:+ "Usage:" +:+ entries +:+ positionalArgumentsPlaceholder p +:+ LF).

Definition printSubcommandDescription (p : CommandParser) : M unit :=
  print LF ;;
  forEach (SplitLines (WrapString (withPeriod (description p)) 72))
    (fun line => print (line +:+ LF)) ;;
  print LF.

(** [CommandParser.printOptions(w, chain)]. *)
Definition printOptions (chain : list CommandParser) : M unit :=
  forEach chain (fun entry =>
    do built <- lift (newParserWrapper (options entry) []);
    match built with
    | inl _ => ret tt
    | inr parser =>
        if (numOptions parser <=? 0)%Z then ret tt
        else print ("Options for " +:+ name entry +:+ ":" +:+ LF +:+ LF) ;;
             pwPrintOptions parser
    end).

Definition printSingleSubcommand (doc : string) (names : list string) : M unit :=
  print ("  " +:+ Join names " " +:+ LF) ;;
  printWrapped (withPeriod doc) 64 ;;
  print LF.

Fixpoint printSubcommands (p : CommandParser) (names : list string) {struct p} : M unit :=
  match p with
  | mkCommandParser _ _ _ _ _ subs =>
      if (0 <? length subs)%nat then
        (if (length names <=? 0)%nat
         then print ("Subcommands:" +:+ LF +:+ LF) else ret tt) ;;
        (fix each (scs : list CommandParser) : M unit :=
           match scs with
           | [] => ret tt
           | sc :: rest =>
               let newnames := (names ++ [name sc])%list in
               (if (0 <? length (subcommands sc))%nat
                then printSubcommands sc newnames
                else printSingleSubcommand (description sc) newnames) ;;
               each rest
           end) subs
      else ret tt
  end.

Definition printHelp (p : CommandParser) (chain : list CommandParser) : M unit :=
  printBriefUsage p chain ;;
  printSubcommandDescription p ;;
  printOptions chain ;;
  printSubcommands p [].

(** ** Resolution *)

(** [p.fullcmd(chain)]. *)
Definition fullcmd (chain : list CommandParser) : string :=
  Join (map name chain) " ".

(** [CommandParser.newParserWrapper(chain)]: the wrapper with the help
    option injected (or the error), and the full command. *)
Definition cpNewParserWrapper (p : CommandParser) (chain : list CommandParser)
    : run ((error + parserWrapper) * string) :=
  let full := fullcmd chain in
  let config :=
    [SetPositionalArgumentsPlaceholder (positionalArgumentsPlaceholder p);
     SetProgramName full] in
  match newParserWrapper (options p) config with
  | Val (inr parser) =>
      match maybeAddHelpFlags parser with
      | Val (_, parser) => Val (inr parser, full)
      | Crash c => Crash c
      end
  | Val (inl err) => Val (inl err, full)
  | Crash c => Crash c
  end.

Definition newSelectedCommand (p : CommandParser) (args : list string) : SelectedCommand :=
  {| scOptions := options p; scArgs := args |}.

Definition printedHelp : SelectedCommand :=
  {| scOptions := PointerToHasPrintedHelp; scArgs := [] |}.

Definition seeHelp (full : string) : string :=
  " See '" +:+ full +:+ " --help'." +:+ LF.

(** [p.getoptall(chain, args)]. Besides the Go result the call returns
    the node [p] as the call leaves it: the scans write to the [help]
    cells of [p] and of the children the walk descends into. *)
Fixpoint getoptall (p : CommandParser) (chain : list CommandParser)
    (args : list string) {struct p}
    : M ((error + SelectedCommand) * CommandParser) :=
  match p with
  | mkCommandParser pdescription phelp pname poptions ppac psubcommands =>
      match chain with
      | [] => die (Panic "called with zero length chain")
      | top :: _ =>
          let cmd := name top in
          do built <- lift (cpNewParserWrapper p chain);
          let '(built, full) := built in
          match built with
          | inl err =>
              eprint (cmd +:+ ": internal error: " +:+ Error err +:+ LF) ;;
              ret (inl err, p)
          | inr parser =>
              let '(err, parser, wrote) := pwGetopt parser args in
              let phelp :=
                if helpBound parser then default phelp wrote else phelp in
              let p1 :=
                mkCommandParser pdescription phelp pname poptions ppac psubcommands in
              match err with
              | Some err =>
                  eprint (cmd +:+ ": " +:+ Error err +:+ "." +:+ seeHelp full) ;;
                  ret (inl err, p1)
              | None =>
                  if phelp then
                    printHelp p1 chain ;; ret (inr printedHelp, p1)
                  else if (length psubcommands <=? 0)%nat then
                    match check ppac (NArgs parser) with
                    | Some err =>
                        ret (inl (fmtErrorf
                                    (cmd +:+ ": for command " +:+ pname +:+ ": "
                                     +:+ Error err) err), p1)
                    | None => ret (inr (newSelectedCommand p1 (Args parser)), p1)
                    end
                  else if (NArgs parser <=? 0)%Z then
                    if (length chain <? 2)%nat then
                      printHelp p1 chain ;; ret (inr printedHelp, p1)
                    else
                      eprint (cmd +:+ ": expected subcommand name." +:+ seeHelp full) ;;
                      ret (inl (errorsNew "expected subcommand name"), p1)
                  else
                    let subcmd := hd "" (Args parser) in
                    (fix dispatch (before scs : list CommandParser)
                       : M ((error + SelectedCommand) * CommandParser) :=
                       match scs with
                       | [] =>
                           eprint (cmd +:+ ": no such subcommand: '" +:+ subcmd
                                   +:+ "'." +:+ seeHelp full) ;;
                           ret (inl ErrNoSuchSubcommand, p1)
                       | sc :: rest =>
                           if negb (String.eqb subcmd (name sc))
                           then dispatch (before ++ [sc])%list rest
                           else
                             do r <- getoptall sc (chain ++ [sc])%list (Args parser);
                             ret (fst r,
                                  mkCommandParser pdescription phelp pname poptions
                                    ppac (before ++ snd r :: rest)%list)
                       end) [] psubcommands
              end
          end
      end
  end.

(** [p.Getopt(args)]. The method calls itself on the rewritten vector
    when the internal help subcommand was selected; [fuel] bounds the
    depth of these calls and [None] means the bound was reached before
    the call returned. *)
Fixpoint Getopt (fuel : nat) (p : CommandParser) (args : list string) (w : World)
    : option (run ((error + SelectedCommand) * CommandParser) * World) :=
  match fuel with
  | O => None
  | S fuel' =>
      if (length args <? 1)%nat
      then Some (Val (inl (errorsNew "passed a zero length argv"), p), w)
      else
        match getoptall p [p] args w with
        | (Val (inr sc, p'), w') =>
            if isSubcommandHelp (scOptions sc)
            then Getopt fuel' p' ([hd "" args] ++ scArgs sc ++ ["--help"])%list w'
            else Some (Val (inr sc, p'), w')
        | (Val (inl err, p'), w') => Some (Val (inl err, p'), w')
        | (Crash c, w') => Some (Crash c, w')
        end
  end.

(** The call [p.Getopt(args)], started in the world [w], ends with [r]:
    some depth of calls is enough for it. *)
Definition GetoptReturns (p : CommandParser) (args : list string) (w : World)
    (r : run ((error + SelectedCommand) * CommandParser) * World) : Prop :=
  exists fuel, Getopt fuel p args w = Some r.

(** [Command(description, options, subcommands...)]. *)
Definition Command (description : string) (options : flagsValue)
    (subcommands : list CommandParser) : CommandParser :=
  let subcommands :=
    if negb (containsHelp subcommands)
    then (subcommands ++
           [LeafSubcommand "help" "Prints generic or command-specific help"
              PointerToSubcommandHelp []])%list
    else subcommands in
  Subcommand osArgs0 description options subcommands.

(** ** Vocabulary of the properties *)

(** A Go [int] that counts arguments. *)
Definition isCount (n : Z) : Prop := (0 <= n <= MaxInt)%Z.

(** The checker a [minMaxPositionalArguments] config installs. *)
Definition pacOfConfig (c : Config) : positionalArgumentsChecker :=
  match c with
  | minMaxPositionalArguments lo hi => {| minArgs := lo; maxArgs := hi |}
  | _ => newPositionalArgumentsChecker
  end.

(** Go's [<=] on strings: bytewise lexicographic order. *)
Definition strLe (a b : string) : Prop := String.leb a b = true.

Definition nameLe (a b : CommandParser) : Prop := strLe (name a) (name b).

(** The children of every node of the tree are in ascending order of
    their names. *)
Fixpoint levelSorted (p : CommandParser) : Prop :=
  match p with
  | mkCommandParser _ _ _ _ _ subs =>
      Sorted nameLe subs
      /\ (fix all (l : list CommandParser) : Prop :=
            match l with
            | [] => True
            | c :: l' => levelSorted c /\ all l'
            end) subs
  end.

(** The entries [printSubcommands] hands to [printSingleSubcommand], in
    the order of the calls: the name path and the description. *)
Fixpoint listing (p : CommandParser) (names : list string) {struct p}
    : list (list string * string) :=
  match p with
  | mkCommandParser _ _ _ _ _ subs =>
      (fix each (scs : list CommandParser) : list (list string * string) :=
         match scs with
         | [] => []
         | sc :: rest =>
             let newnames := (names ++ [name sc])%list in
             ((if (0 <? length (subcommands sc))%nat
               then listing sc newnames
               else [(newnames, description sc)]) ++ each rest)%list
         end) subs
  end.

(** What one child adds to the listing of its parent. *)
Definition listingBlock (names : list string) (sc : CommandParser)
    : list (list string * string) :=
  if (0 <? length (subcommands sc))%nat
  then listing sc (names ++ [name sc])%list
  else [((names ++ [name sc])%list, description sc)].

(** The name at depth [k] of an entry's path. *)
Definition component (k : nat) (entry : list string * string) : string :=
  nth k (fst entry) "".

Fixpoint concatStrings (l : list string) : string :=
  match l with
  | [] => ""
  | x :: rest => x +:+ concatStrings rest
  end.

(** The text [printWrapped] and [printSingleSubcommand] write. *)
Definition wrappedText (doc : string) (width : Z) : string :=
  concatStrings (map (fun line => "             " +:+ line +:+ LF)
                   (SplitLines (WrapString doc width))).

Definition entryText (entry : list string * string) : string :=
  ("  " +:+ Join (fst entry) " " +:+ LF)
  +:+ wrappedText (withPeriod (snd entry)) 64 +:+ LF.

Definition listingHeading (p : CommandParser) (names : list string) : string :=
  if (0 <? length (subcommands p))%nat && (length names <=? 0)%nat
  then "Subcommands:" +:+ LF +:+ LF else "".

Definition listingText (p : CommandParser) (names : list string) : string :=
  listingHeading p names +:+ concatStrings (map entryText (listing p names)).

(** The body of the loop of [printSubcommands]. *)
Definition printBlock (names : list string) (sc : CommandParser) : M unit :=
  let newnames := (names ++ [name sc])%list in
  if (0 <? length (subcommands sc))%nat
  then printSubcommands sc newnames
  else printSingleSubcommand (description sc) newnames.

Definition addStdout (w : World) (text : string) : World :=
  {| stdout := stdout w +:+ text; stderr := stderr w |}.

Definition helpLeaf : CommandParser :=
  LeafSubcommand "help" "Prints generic or command-specific help"
    PointerToSubcommandHelp [].

(** The node [p] with another value in its help cell, and with other
    children. *)
Definition setHelp (p : CommandParser) (h : bool) : CommandParser :=
  mkCommandParser (description p) h (name p) (options p) (pac p) (subcommands p).

Definition setSubcommands (p : CommandParser) (subs : list CommandParser) : CommandParser :=
  mkCommandParser (description p) (help p) (name p) (options p) (pac p) subs.

(** The value of the help cell of [p] after a scan by [parser] that
    wrote [wrote] to the cell bound to the injected option. *)
Definition helpAfter (p : CommandParser) (parser : parserWrapper) (wrote : option bool) : bool :=
  if helpBound parser then default (help p) wrote else help p.

(** Steps 1 and 2 of [getoptall] went through at node [p]: the wrapper
    was built, the scan of [args] returned no error and left the
    positional arguments in [parser] and the node as [p1]. *)
Definition parsedAt (p : CommandParser) (chain : list CommandParser) (args : list string)
    (parser : parserWrapper) (p1 : CommandParser) : Prop :=
  chain <> []
  /\ exists parser0 wrote,
       cpNewParserWrapper p chain = Val (inr parser0, fullcmd chain)
       /\ pwGetopt parser0 args = (None, parser, wrote)
       /\ p1 = setHelp p (helpAfter p parser wrote).

(** [cmd], the name of the first node of the chain. *)
Definition cmdOf (chain : list CommandParser) : string :=
  match chain with
  | top :: _ => name top
  | [] => ""
  end.

(** Step 6 of [getoptall]: the first child named [subcmd], with its
    position. *)
Definition findSubcommand (subcmd : string) (subs : list CommandParser)
    : option (nat * CommandParser) :=
  list_find (fun sc => subcmd = name sc) subs.

(** Steps 3 to 7 of [getoptall], on the node [p1] as the scan left it. *)
Definition afterParse (p1 : CommandParser) (parser : parserWrapper)
    (chain : list CommandParser) : M ((error + SelectedCommand) * CommandParser) :=
  let cmd := cmdOf chain in
  let full := fullcmd chain in
  if help p1 then printHelp p1 chain ;; ret (inr printedHelp, p1)
  else if (length (subcommands p1) <=? 0)%nat then
    match check (pac p1) (NArgs parser) with
    | Some err =>
        ret (inl (fmtErrorf (cmd +:+ ": for command " +:+ name p1 +:+ ": " +:+ Error err)
                    err), p1)
    | None => ret (inr (newSelectedCommand p1 (Args parser)), p1)
    end
  else if (NArgs parser <=? 0)%Z then
    if (length chain <? 2)%nat then printHelp p1 chain ;; ret (inr printedHelp, p1)
    else
      eprint (cmd +:+ ": expected subcommand name." +:+ seeHelp full) ;;
      ret (inl (errorsNew "expected subcommand name"), p1)
  else
    let subcmd := hd "" (Args parser) in
    match findSubcommand subcmd (subcommands p1) with
    | None =>
        eprint (cmd +:+ ": no such subcommand: '" +:+ subcmd +:+ "'." +:+ seeHelp full) ;;
        ret (inl ErrNoSuchSubcommand, p1)
    | Some (i, sc) =>
        do r <- getoptall sc (chain ++ [sc]) (Args parser);
        ret (fst r, setSubcommands p1 (<[i := snd r]> (subcommands p1)))
    end.

(** The computation only writes [text] to the standard output. *)
Definition writes (m : M unit) (text : string) : Prop :=
  forall w, m w = (Val tt, addStdout w text).

Definition addStderr (w : World) (text : string) : World :=
  {| stdout := stdout w; stderr := stderr w +:+ text |}.

(** The scan made at node [p] of the chain, when the wrapper of the
    node builds. *)
Definition scanAt (p : CommandParser) (chain : list CommandParser) (args : list string)
    : option scanned :=
  match cpNewParserWrapper p chain with
  | Val (inr parser, _) => Some (SetGetopt (set parser) args)
  | _ => None
  end.

(** A scan that stops at once: no option consumed, nothing written, no
    error. *)
Definition stoppedAtOnce : scanned :=
  {| scanError := None; scanHelp := None; scanConsumed := 0 |}.

(** ** The text of the help *)

(** What the flat parser's [printOptions] writes for one option: the
    line of its names, then its documentation, closed by a period,
    marked when the option is mandatory, wrapped and indented; and what
    it writes for all the options of a wrapper. *)
Definition optionText (p : parserWrapper) (o : getoptOption) : string :=
  (if negb (String.eqb (ShortName o) "")
   then "  -" +:+ ShortName o +:+ ", --" +:+ optLong o
   else "      --" +:+ optLong o)
  +:+ (if negb (optFlag o) then " value" else "")
  +:+ LF
  +:+ wrappedText
        (if lookupRequired (required p) (optLong o)
         then withPeriod (lookupDoc (docs p) (optLong o)) +:+ " This option is mandatory."
         else withPeriod (lookupDoc (docs p) (optLong o))) 64
  +:+ LF.

Definition optionsListText (p : parserWrapper) : string :=
  ("Options:" +:+ LF +:+ LF)
  +:+ concatStrings (map (optionText p) (VisitAll (setOptions (set p)))).

(** The four parts of the help of node [p] reached along [chain]: the
    usage line, that names every command of the chain, each followed by
    [[options]] when it has options, and ends with the placeholder for
    what [p] expects; the description of [p]; for every command of the
    chain that has options, their list under the command's name; the
    listing of the subcommands of [p]. *)
Definition usageEntry (e : CommandParser) : string :=
  " " +:+ name e
  +:+ match hasOptions e with
      | Val true => " [options]"
      | _ => ""
      end.

Definition usageText (p : CommandParser) (chain : list CommandParser) : string :=
  LF +:+ "Usage:" +:+ concatStrings (map usageEntry chain)
  +:+ positionalArgumentsPlaceholder p +:+ LF.

Definition descriptionText (p : CommandParser) : string :=
  LF
  +:+ concatStrings (map (fun line => line +:+ LF)
                       (SplitLines (WrapString (withPeriod (description p)) 72)))
  +:+ LF.

Definition optionsText (e : CommandParser) : string :=
  match newParserWrapper (options e) [] with
  | Val (inr parser) =>
      if (numOptions parser <=? 0)%Z then ""
      else ("Options for " +:+ name e +:+ ":" +:+ LF +:+ LF) +:+ optionsListText parser
  | _ => ""
  end.

Definition helpText (p : CommandParser) (chain : list CommandParser) : string :=
  usageText p chain +:+ descriptionText p
  +:+ concatStrings (map optionsText chain) +:+ listingText p [].

(** The record of the node can be turned into options. *)
Definition builds (e : CommandParser) : Prop :=
  exists pw, newParserWrapper (options e) [] = Val (inr pw).

(** The walk from node [p] along the names of [args] comes to the node
    [q] along the chain [chainq], and there the help flag is read: on
    the way the help cells are clear and the scans stop at once, the
    first argument after a node's own name being the name of the child
    the walk goes on with; at [q] the option the package adds is there
    and the scan is clean and leaves [true] in the help cell. *)
Inductive helpAt : CommandParser -> list CommandParser -> list string ->
                   CommandParser -> list CommandParser -> Prop :=
| helpAt_here p chain args parser0 full :
    cpNewParserWrapper p chain = Val (inr parser0, full) ->
    helpBound parser0 = true ->
    scanError (SetGetopt (set parser0) args) = None ->
    scanHelp (SetGetopt (set parser0) args) = Some true ->
    helpAt p chain args p chain
| helpAt_child p chain args subcmd rest i sc q chainq :
    help p = false ->
    scanAt p chain args = Some stoppedAtOnce ->
    tail args = subcmd :: rest ->
    findSubcommand subcmd (subcommands p) = Some (i, sc) ->
    helpAt sc (chain ++ [sc]) (subcmd :: rest) q chainq ->
    helpAt p chain args q chainq.

(** ** Vocabulary of further properties *)

(** The node [p] with every help cell of its tree cleared: what of a
    tree the scans cannot change. *)
Fixpoint shape (p : CommandParser) : CommandParser :=
  match p with
  | mkCommandParser d _ n o c subs => mkCommandParser d false n o c (map shape subs)
  end.

(** The option records of the leaves of a tree. *)
Fixpoint leafOptions (p : CommandParser) : list flagsValue :=
  match p with
  | mkCommandParser _ _ _ o _ subs =>
      match subs with
      | [] => [o]
      | _ => flat_map leafOptions subs
      end
  end.

(** The number of arguments equal to the word ["help"]. *)
Definition countHelp (args : list string) : nat :=
  length (filter (fun a => a = "help") args).

(** Below [p], the internal help marker sits only on nodes named
    ["help"], as in every tree built through [Command], [Subcommand] and
    [LeafSubcommand] by code outside the package, which cannot name the
    marker's type. *)
Fixpoint markedBelow (p : CommandParser) : Prop :=
  match p with
  | mkCommandParser _ _ _ _ _ subs =>
      (fix all (l : list CommandParser) : Prop :=
         match l with
         | [] => True
         | c :: l' =>
             (options c = PointerToSubcommandHelp -> name c = "help")
             /\ markedBelow c /\ all l'
         end) subs
  end.

(** One call of [getoptall] that returns, as a relation: the node, the
    chain, the arguments and the world before; the Go result, the node
    and the world after. One rule per [return] of the source. *)
Inductive walk : CommandParser -> list CommandParser -> list string -> World ->
                 error + SelectedCommand -> CommandParser -> World -> Prop :=
| walk_build_error p chain args w err full :
    chain <> [] ->
    cpNewParserWrapper p chain = Val (inl err, full) ->
    walk p chain args w (inl err) p
      (addStderr w (cmdOf chain +:+ ": internal error: " +:+ Error err +:+ LF))
| walk_scan_error p chain args w parser0 full err parser wrote :
    chain <> [] ->
    cpNewParserWrapper p chain = Val (inr parser0, full) ->
    pwGetopt parser0 args = (Some err, parser, wrote) ->
    walk p chain args w (inl err) (setHelp p (helpAfter p parser wrote))
      (addStderr w (cmdOf chain +:+ ": " +:+ Error err +:+ "." +:+ seeHelp full))
| walk_help p chain args w parser p1 w' :
    parsedAt p chain args parser p1 ->
    help p1 = true ->
    printHelp p1 chain w = (Val tt, w') ->
    walk p chain args w (inr printedHelp) p1 w'
| walk_leaf_rejected p chain args w parser p1 err :
    parsedAt p chain args parser p1 ->
    help p1 = false ->
    subcommands p = [] ->
    check (pac p) (NArgs parser) = Some err ->
    walk p chain args w
      (inl (fmtErrorf (cmdOf chain +:+ ": for command " +:+ name p +:+ ": "
                       +:+ Error err) err)) p1 w
| walk_leaf_selected p chain args w parser p1 :
    parsedAt p chain args parser p1 ->
    help p1 = false ->
    subcommands p = [] ->
    check (pac p) (NArgs parser) = None ->
    walk p chain args w (inr {| scOptions := options p; scArgs := Args parser |}) p1 w
| walk_bare p chain args w parser p1 w' :
    parsedAt p chain args parser p1 ->
    help p1 = false ->
    subcommands p <> [] ->
    Args parser = [] ->
    (length chain < 2)%nat ->
    printHelp p1 chain w = (Val tt, w') ->
    walk p chain args w (inr printedHelp) p1 w'
| walk_missing_name p chain args w parser p1 :
    parsedAt p chain args parser p1 ->
    help p1 = false ->
    subcommands p <> [] ->
    Args parser = [] ->
    (2 <= length chain)%nat ->
    walk p chain args w (inl (errorsNew "expected subcommand name")) p1
      (addStderr w (cmdOf chain +:+ ": expected subcommand name."
                    +:+ seeHelp (fullcmd chain)))
| walk_unknown p chain args w parser p1 subcmd rest :
    parsedAt p chain args parser p1 ->
    help p1 = false ->
    subcommands p <> [] ->
    Args parser = subcmd :: rest ->
    findSubcommand subcmd (subcommands p) = None ->
    walk p chain args w (inl ErrNoSuchSubcommand) p1
      (addStderr w (cmdOf chain +:+ ": no such subcommand: '" +:+ subcmd +:+ "'."
                    +:+ seeHelp (fullcmd chain)))
| walk_descend p chain args w parser p1 subcmd rest i sc res sc' w' :
    parsedAt p chain args parser p1 ->
    help p1 = false ->
    Args parser = subcmd :: rest ->
    findSubcommand subcmd (subcommands p) = Some (i, sc) ->
    walk sc (chain ++ [sc]) (Args parser) w res sc' w' ->
    walk p chain args w res
      (setSubcommands p1 (<[i := sc']> (subcommands p))) w'.

(** The computation leaves the standard error alone, however it ends. *)
Definition keepsStderr {A} (m : M A) : Prop :=
  forall w r w', m w = (r, w') -> stderr w' = stderr w.

(** The errors [newParserWrapper] returns. *)
Definition buildErrors : list error :=
  [errNotPointer; errNotStruct; errMissingDocumentation; errInvalidShortName;
   errPrivateField].

(** Whether a piece of configuration is a positional-argument policy. *)
Definition isPolicy (c : Config) : bool :=
  match c with
  | minMaxPositionalArguments _ _ => true
  | _ => false
  end.

(** The option [newParserWrapper] registers for the field at [idx],
    and the options it registers for the fields from [idx] on: one for
    each field whose [doc] tag is not ["-"], in the order of the fields. *)
Definition fieldOption (idx : nat) (f : StructField) : getoptOption :=
  {| optLong := ToKebab (fieldName f);
     optShort :=
       if String.eqb (tagShort f) "" then 0 else fst (DecodeRune (bytesOf (tagShort f)));
     optHelpvalue := tagDoc f;
     optFlag := match fieldKindOf f with KValue => false | _ => true end;
     optMandatory := String.eqb (tagRequired f) "true";
     optTarget := BoundField idx |}.

Fixpoint fieldOptions (idx : nat) (fields : list StructField) : list getoptOption :=
  match fields with
  | [] => []
  | f :: rest =>
      if String.eqb (tagDoc f) "-" then fieldOptions (S idx) rest
      else fieldOption idx f :: fieldOptions (S idx) rest
  end.

(** A field [newParserWrapper] takes: excluded, or documented, with no
    short tag or one of a single byte, and exported. *)
Definition fieldOk (f : StructField) : Prop :=
  tagDoc f = "-"
  \/ (tagDoc f <> ""
      /\ (tagShort f = "" \/ String.length (tagShort f) = 1%nat)
      /\ fieldExported f = true).

(** The error [newParserWrapper] returns at a field that is not well
    formed: its checks come in this order. *)
Definition defect (f : StructField) : error :=
  if String.eqb (tagDoc f) "" then errMissingDocumentation
  else if negb (String.eqb (tagShort f) "")
          && negb (String.length (tagShort f) =? 1)%nat
  then errInvalidShortName
  else errPrivateField.

(** Options the flat parser takes together: each has a name, no short
    name is used twice and no long name is used twice. *)
Definition named (o : getoptOption) : Prop := optShort o <> 0 \/ optLong o <> "".

Definition distinctNames (opts : list getoptOption) : Prop :=
  Forall named opts
  /\ NoDup (filter (fun r => r <> 0) (optShort <$> opts))
  /\ NoDup (filter (fun n => n <> "") (optLong <$> opts)).

(** [FlagLong] for each option of a list in turn. *)
Fixpoint flagAll (s : getoptSet) (opts : list getoptOption) : option getoptSet :=
  match opts with
  | [] => Some s
  | o :: rest =>
      match FlagLong s o with
      | Some s' => flagAll s' rest
      | None => None
      end
  end.

(** The two maps of the wrapper after the options [opts] were
    registered. *)
Definition docsOf (ds : gmap string string) (opts : list getoptOption)
    : gmap string string :=
  foldl (fun m o => <[optLong o := optHelpvalue o]> m) ds opts.

Definition requiredOf (rs : gmap string bool) (opts : list getoptOption)
    : gmap string bool :=
  foldl (fun m o => if optMandatory o then <[optLong o := true]> m else m) rs opts.

(** The walk from node [p] along the names of [args] takes for
    positional arguments everything it sees and ends at the leaf [leaf]
    with [residual] left: at every node of the way the help cell is
    clear and the scan stops at once; the first argument after the
    node's own name is the name of the child the walk goes on with. *)
Inductive routed : CommandParser -> list CommandParser -> list string ->
                   CommandParser -> list string -> Prop :=
| routed_leaf p chain args :
    subcommands p = [] ->
    help p = false ->
    scanAt p chain args = Some stoppedAtOnce ->
    routed p chain args p (tail args)
| routed_child p chain args subcmd rest i sc leaf residual :
    help p = false ->
    scanAt p chain args = Some stoppedAtOnce ->
    tail args = subcmd :: rest ->
    findSubcommand subcmd (subcommands p) = Some (i, sc) ->
    routed sc (chain ++ [sc]) (subcmd :: rest) leaf residual ->
    routed p chain args leaf residual.

(** ** The counter *)

(** A Go [int] has 64 bits here, as [MaxInt] has it; [wrapInt] is the
    value an arithmetic result wraps around to. *)
Definition MinInt : Z := - 2 ^ 63.

Definition wrapInt (n : Z) : Z := (n + 2 ^ 63) mod 2 ^ 64 - 2 ^ 63.

(** [strconv.ParseInt(value, 0, strconv.IntSize)]: the number, or the
    [NumError] it fails with, known by its [Err], which for a call with
    a valid base and bit size is [ErrRange] or [ErrSyntax]. *)
Inductive numError : Type := ErrRange | ErrSyntax.

Variable ParseInt : string -> numError + Z.

(** [b.Set(value, opt)] on a counter that holds [b]: the error returned
    and the counter afterwards. *)
Definition CounterSet (b : Z) (value : string) : option error * Z :=
  if String.eqb value "" then (None, wrapInt (b + 1))
  else
    match ParseInt value with
    | inl ErrRange => (Some (errorsNew ("value out of range: " +:+ value)), b)
    | inl ErrSyntax => (Some (errorsNew ("not a valid number: " +:+ value)), b)
    | inr val => (None, val)
    end.

(** The calls of [Set] a scan makes for the occurrences of one option,
    in their order; the scan ends with the first error. *)
Fixpoint CounterSetAll (b : Z) (values : list string) : option error * Z :=
  match values with
  | [] => (None, b)
  | value :: rest =>
      match CounterSet b value with
      | (None, b') => CounterSetAll b' rest
      | failed => failed
      end
  end.

(** The option records of all the nodes of a tree. *)
Fixpoint allOptions (p : CommandParser) : list flagsValue :=
  match p with
  | mkCommandParser _ _ _ o _ subs => o :: flat_map allOptions subs
  end.

(** The computation returns a value, whatever the world it starts in. *)
Definition returnsValue {A} (m : M A) : Prop :=
  forall w, exists a w', m w = (Val a, w').

(** * Properties *)

(** ** The positional-argument policy *)

Lemma presets_ordered (c : Config) :
  c ∈ [NoPositionalArguments; AtLeastOnePositionalArgument; JustOnePositionalArgument] ->
  (minArgs (pacOfConfig c) <= maxArgs (pacOfConfig c))%Z.
Proof.
  intros Hc. repeat (apply elem_of_cons in Hc as [-> | Hc]); cbn; unfold MaxInt; try lia.
  by apply elem_of_nil in Hc.
Qed.

Lemma check_cases (pac : positionalArgumentsChecker) (n : Z) :
  (n < minArgs pac /\ check pac n = Some ErrTooFewPositionalArguments)%Z
  \/ (minArgs pac <= n /\ maxArgs pac < n
      /\ check pac n = Some ErrTooManyPositionalArguments)%Z
  \/ (minArgs pac <= n <= maxArgs pac /\ check pac n = None)%Z.
Proof.
  unfold check.
  destruct (Z.ltb_spec n (minArgs pac)); [left; done|].
  destruct (Z.ltb_spec (maxArgs pac) n); [right; left; done|].
  right; right. split; [lia | done].
Qed.

(** C4. For a checker with bounds [minArgs <= maxArgs] (the invariant of
    the data model, met by the default checker and by every preset, the
    only checkers the package builds) and
    an observed count [n >= 0]: [check] returns the too-few error exactly
    when [n < minArgs], the too-many error exactly when [n > maxArgs],
    and no error otherwise. The default checker ([minArgs = -1],
    [maxArgs = MaxInt]) accepts every count, and it is not the
    none-allowed configuration [{0, 0}], from which one positional
    argument tells it apart. *)
Theorem check_exactly (pac : positionalArgumentsChecker) (n : Z) :
  isCount n ->
  (minArgs pac <= maxArgs pac)%Z ->
  (check pac n = Some ErrTooFewPositionalArguments <-> (n < minArgs pac)%Z)
  /\ (check pac n = Some ErrTooManyPositionalArguments <-> (n > maxArgs pac)%Z)
  /\ (check pac n = None <-> (minArgs pac <= n <= maxArgs pac)%Z)
  /\ check newPositionalArgumentsChecker n = None
  /\ newPositionalArgumentsChecker <> pacOfConfig NoPositionalArguments
  /\ check newPositionalArgumentsChecker 1 = None
  /\ check (pacOfConfig NoPositionalArguments) 1 = Some ErrTooManyPositionalArguments
  /\ (minArgs newPositionalArgumentsChecker <= maxArgs newPositionalArgumentsChecker)%Z
  /\ (forall c, c ∈ [NoPositionalArguments; AtLeastOnePositionalArgument;
                     JustOnePositionalArgument] ->
       (minArgs (pacOfConfig c) <= maxArgs (pacOfConfig c))%Z).
Proof.
  intros [Hlo Hhi] Hinv.
  pose proof presets_ordered as Hpresets.
  assert (Hdefault : (minArgs newPositionalArgumentsChecker
                      <= maxArgs newPositionalArgumentsChecker)%Z) by done.
  assert (Hdef : check newPositionalArgumentsChecker n = None).
  { destruct (check_cases newPositionalArgumentsChecker n)
      as [[H _] | [(_ & H & _) | [_ H]]]; cbn in H; [lia | lia | done]. }
  destruct (check_cases pac n) as [[H1 ->] | [(H1 & H2 & ->) | [H1 ->]]].
  all: repeat split; try done; try lia; intros; simplify_eq; lia.
Qed.

(** ** Strings and output *)

Lemma append_cons (x : ascii) (a b : string) : String x a +:+ b = String x (a +:+ b).
Proof. reflexivity. Qed.

Lemma append_empty_l (a : string) : "" +:+ a = a.
Proof. reflexivity. Qed.

Lemma append_assoc (a b c : string) : (a +:+ b) +:+ c = a +:+ (b +:+ c).
Proof. induction a as [|x a IH]; [done |]. by rewrite !append_cons, IH. Qed.

Lemma append_empty_r (a : string) : a +:+ "" = a.
Proof. induction a as [|x a IH]; [done |]. by rewrite append_cons, IH. Qed.

Lemma addStdout_empty (w : World) : addStdout w "" = w.
Proof. destruct w. unfold addStdout. cbn. by rewrite append_empty_r. Qed.

Lemma addStdout_addStdout (w : World) (a b : string) :
  addStdout (addStdout w a) b = addStdout w (a +:+ b).
Proof. unfold addStdout. cbn. by rewrite append_assoc. Qed.

Lemma print_spec (text : string) (w : World) : print text w = (Val tt, addStdout w text).
Proof. done. Qed.

Lemma forEach_print {A} (l : list A) (f : A -> string) (w : World) :
  forEach l (fun x => print (f x)) w = (Val tt, addStdout w (concatStrings (map f l))).
Proof.
  revert w. induction l as [|x l IH]; intros w; cbn [forEach map concatStrings].
  - unfold ret. by rewrite addStdout_empty.
  - unfold bind. rewrite print_spec, IH. by rewrite addStdout_addStdout.
Qed.

Lemma printWrapped_spec (doc : string) (width : Z) (w : World) :
  printWrapped doc width w = (Val tt, addStdout w (wrappedText doc width)).
Proof. unfold printWrapped, wrappedText. apply forEach_print. Qed.

Lemma printSingleSubcommand_spec (doc : string) (names : list string) (w : World) :
  printSingleSubcommand doc names w = (Val tt, addStdout w (entryText (names, doc))).
Proof.
  unfold printSingleSubcommand, entryText, bind. cbn [fst snd].
  rewrite print_spec, printWrapped_spec, print_spec.
  by rewrite !addStdout_addStdout, ?append_assoc.
Qed.

(** ** The order of strings *)

Lemma ltb_lts (a b : string) : String.ltb a b = true <-> String_as_OT.lts a b.
Proof.
  unfold String.ltb. rewrite <- String_as_OT.cmp_lt. unfold String_as_OT.cmp.
  destruct (String.compare a b); split; congruence.
Qed.

Lemma ltb_false_leb (a b : string) : String.ltb a b = false -> strLe b a.
Proof.
  unfold String.ltb, strLe, String.leb. rewrite (String.compare_antisym b a).
  destruct (String.compare a b); cbn; congruence.
Qed.

Lemma ltb_true_leb (a b : string) : String.ltb a b = true -> strLe a b.
Proof.
  unfold String.ltb, strLe, String.leb. destruct (String.compare a b); congruence.
Qed.

Lemma strLe_cases (a b : string) : strLe a b <-> a = b \/ String.ltb a b = true.
Proof.
  unfold strLe, String.leb, String.ltb. split.
  - intros H. destruct (String.compare a b) eqn:E.
    + left. by apply String.compare_eq_iff.
    + by right.
    + done.
  - intros [-> | H].
    + pose proof (proj2 (String_as_OT.cmp_eq b b) eq_refl) as E.
      unfold String_as_OT.cmp in E. by rewrite E.
    + by destruct (String.compare a b).
Qed.

#[local] Instance strLe_refl : Reflexive strLe.
Proof. intros a. apply strLe_cases. by left. Qed.

#[local] Instance strLe_trans : Transitive strLe.
Proof.
  intros a b c Hab Hbc. apply strLe_cases in Hab as [-> | Hab]; [done |].
  apply strLe_cases in Hbc as [<- | Hbc]; [by apply ltb_true_leb |].
  apply ltb_true_leb, ltb_lts.
  eapply String_as_OT.lt_trans; by apply ltb_lts.
Qed.

#[local] Instance nameLe_trans : Transitive nameLe.
Proof. intros a b c. unfold nameLe. apply strLe_trans. Qed.

(** ** Sorted children *)

Lemma insertStable_Permutation (x : CommandParser) (l : list CommandParser) :
  insertStable x l ≡ₚ x :: l.
Proof.
  induction l as [|y l IH]; cbn; [done |].
  destruct (String.ltb (name y) (name x)); [| done].
  rewrite IH. apply perm_swap.
Qed.

Lemma sortSliceStable_Permutation (l : list CommandParser) : sortSliceStable l ≡ₚ l.
Proof.
  induction l as [|x l IH]; cbn; [done |].
  rewrite insertStable_Permutation. by rewrite IH.
Qed.

Lemma insertStable_HdRel (a x : CommandParser) (l : list CommandParser) :
  HdRel nameLe a l -> nameLe a x -> HdRel nameLe a (insertStable x l).
Proof.
  intros Hl Hx. destruct l as [|y l]; cbn; [by constructor |].
  destruct (String.ltb (name y) (name x)); constructor; [| done].
  by inversion Hl.
Qed.

Lemma insertStable_Sorted (x : CommandParser) (l : list CommandParser) :
  Sorted nameLe l -> Sorted nameLe (insertStable x l).
Proof.
  induction 1 as [|y l Hs IH Hhd]; cbn; [by repeat constructor |].
  destruct (String.ltb (name y) (name x)) eqn:Hlt.
  - constructor; [done |]. apply insertStable_HdRel; [done |].
    by apply ltb_true_leb.
  - constructor; [by constructor |]. constructor. by apply ltb_false_leb.
Qed.

Lemma sortSliceStable_Sorted (l : list CommandParser) : Sorted nameLe (sortSliceStable l).
Proof.
  induction l as [|x l IH]; cbn; [constructor |]. by apply insertStable_Sorted.
Qed.

Lemma ltb_irrefl (a : string) : String.ltb a a = false.
Proof.
  unfold String.ltb. pose proof (proj2 (String_as_OT.cmp_eq a a) eq_refl) as E.
  unfold String_as_OT.cmp in E. by rewrite E.
Qed.

(** The sort is stable: children that bear the same name keep the order
    in which they were passed. *)
Lemma insertStable_stable (k : string) (x : CommandParser) (l : list CommandParser) :
  filter (fun y => name y = k) (insertStable x l) = filter (fun y => name y = k) (x :: l).
Proof.
  induction l as [|y l IH]; [done |]. cbn [insertStable].
  destruct (String.ltb (name y) (name x)) eqn:Hlt; [| done].
  rewrite filter_cons, IH, !filter_cons.
  destruct (decide (name y = k)) as [Hy | Hy], (decide (name x = k)) as [Hx | Hx];
    try done.
  rewrite Hy, Hx, ltb_irrefl in Hlt. done.
Qed.

Lemma sortSliceStable_stable (k : string) (l : list CommandParser) :
  filter (fun y => name y = k) (sortSliceStable l) = filter (fun y => name y = k) l.
Proof.
  induction l as [|x l IH]; [done |]. cbn [sortSliceStable foldr].
  rewrite insertStable_stable, !filter_cons. fold (sortSliceStable l). by rewrite IH.
Qed.

(** Induction on command trees. *)
Lemma CommandParser_tree_ind (P : CommandParser -> Prop) :
  (forall d h n o c subs, Forall P subs -> P (mkCommandParser d h n o c subs)) ->
  forall p, P p.
Proof.
  intros step. fix IH 1. intros [d h n o c subs]. apply step.
  induction subs as [|sc subs IHsubs]; constructor; [apply IH | apply IHsubs].
Qed.

Lemma levelSorted_unfold (p : CommandParser) :
  levelSorted p <-> Sorted nameLe (subcommands p) /\ Forall levelSorted (subcommands p).
Proof.
  destruct p as [d h n o c subs]. cbn [levelSorted subcommands].
  apply and_iff_compat_l. induction subs as [|sc subs IH].
  - split; [constructor | done].
  - rewrite Forall_cons. by rewrite IH.
Qed.

Lemma levelSorted_Subcommand (n d : string) (o : flagsValue) (subs : list CommandParser) :
  Forall levelSorted subs -> levelSorted (Subcommand n d o subs).
Proof.
  intros Hsubs. apply levelSorted_unfold. cbn. split; [apply sortSliceStable_Sorted |].
  by rewrite sortSliceStable_Permutation.
Qed.

Lemma applyLeafConfig_subcommands (p : CommandParser) (c : Config) :
  subcommands (applyLeafConfig p c) = subcommands p.
Proof. by destruct c. Qed.

Lemma LeafSubcommand_subcommands (n d : string) (o : flagsValue) (config : list Config) :
  subcommands (LeafSubcommand n d o config) = [].
Proof.
  unfold LeafSubcommand.
  assert (H : subcommands (Subcommand n d o []) = []) by done.
  revert H. generalize (Subcommand n d o []).
  induction config as [|c config IH]; intros p Hp; cbn [foldl]; [done |].
  apply IH. by rewrite applyLeafConfig_subcommands.
Qed.

Lemma levelSorted_LeafSubcommand (n d : string) (o : flagsValue) (config : list Config) :
  levelSorted (LeafSubcommand n d o config).
Proof.
  apply levelSorted_unfold. rewrite LeafSubcommand_subcommands. split; constructor.
Qed.

(** ** The subcommand listing *)

Lemma listing_unfold (p : CommandParser) (names : list string) :
  listing p names = flat_map (listingBlock names) (subcommands p).
Proof.
  destruct p as [d h n o c subs]. cbn [listing subcommands].
  induction subs as [|sc subs IH]; [done |]. cbn [flat_map]. by rewrite <- IH.
Qed.

Lemma concatStrings_app (l1 l2 : list string) :
  concatStrings (l1 ++ l2) = concatStrings l1 +:+ concatStrings l2.
Proof.
  induction l1 as [|x l1 IH]; [done |]. cbn [app concatStrings].
  by rewrite IH, append_assoc.
Qed.

Lemma forEach_writes {A} (l : list A) (body : A -> M unit) (text : A -> string) :
  Forall (fun x => forall w, body x w = (Val tt, addStdout w (text x))) l ->
  forall w, forEach l body w = (Val tt, addStdout w (concatStrings (map text l))).
Proof.
  induction 1 as [|x l Hx _ IH]; intros w; cbn [forEach map concatStrings].
  - unfold ret. by rewrite addStdout_empty.
  - unfold bind. by rewrite Hx, IH, addStdout_addStdout.
Qed.

Lemma printSubcommands_unfold (p : CommandParser) (names : list string) :
  printSubcommands p names
  = if (0 <? length (subcommands p))%nat
    then (if (length names <=? 0)%nat
          then print ("Subcommands:" +:+ LF +:+ LF) else ret tt) ;;
         forEach (subcommands p) (printBlock names)
    else ret tt.
Proof.
  destruct p as [d h n o c subs]. cbn [printSubcommands subcommands].
  destruct (0 <? length subs)%nat; [| done].
  assert (Hloop : forall scs, (fix each (scs : list CommandParser) : M unit :=
           match scs with
           | [] => ret tt
           | sc :: rest =>
               (if (0 <? length (subcommands sc))%nat
                then printSubcommands sc (names ++ [name sc])
                else printSingleSubcommand (description sc) (names ++ [name sc])) ;;
               each rest
           end) scs = forEach scs (printBlock names)).
  { induction scs as [|sc scs IH]; [done |]. cbn [forEach]. by rewrite <- IH. }
  by rewrite Hloop.
Qed.

Lemma concatStrings_flat_map {A} (f : A -> list (list string * string)) (l : list A) :
  concatStrings (map entryText (flat_map f l))
  = concatStrings (map (fun x => concatStrings (map entryText (f x))) l).
Proof.
  induction l as [|x l IH]; [done |]. cbn [flat_map map concatStrings].
  by rewrite map_app, concatStrings_app, IH.
Qed.

Lemma printSubcommands_spec (p : CommandParser) :
  forall (names : list string) (w : World),
    printSubcommands p names w = (Val tt, addStdout w (listingText p names)).
Proof.
  induction p as [d h n o c subs IHsubs] using CommandParser_tree_ind.
  intros names w. rewrite printSubcommands_unfold.
  unfold listingText, listingHeading. rewrite listing_unfold. cbn [subcommands].
  destruct (0 <? length subs)%nat eqn:Hkids; cbn [andb].
  - unfold bind at 1.
    assert (Hhead : (if (length names <=? 0)%nat
                     then print ("Subcommands:" +:+ LF +:+ LF) else ret tt) w
                    = (Val tt, addStdout w (if (length names <=? 0)%nat
                                            then "Subcommands:" +:+ LF +:+ LF else ""))).
    { destruct (length names <=? 0)%nat; [done |]. unfold ret. by rewrite addStdout_empty. }
    rewrite Hhead. rewrite <- addStdout_addStdout, concatStrings_flat_map.
    apply forEach_writes. eapply Forall_impl; [exact IHsubs |].
    intros sc Hsc w'. unfold printBlock, listingBlock.
    destruct (0 <? length (subcommands sc))%nat eqn:Hsckids.
    + rewrite Hsc. unfold listingText, listingHeading. rewrite Hsckids.
      rewrite length_app, Nat.add_comm. cbn [length Nat.add Nat.leb andb].
      by rewrite append_empty_l.
    + rewrite printSingleSubcommand_spec. cbn [map concatStrings].
      by rewrite append_empty_r.
  - destruct subs; [| done]. cbn. unfold ret.
    by rewrite append_empty_l, addStdout_empty.
Qed.

Lemma listing_extends (p : CommandParser) :
  forall (names : list string) (entry : list string * string),
    entry ∈ listing p names -> names `prefix_of` fst entry.
Proof.
  induction p as [d h n o c subs IHsubs] using CommandParser_tree_ind.
  intros names entry. rewrite listing_unfold. cbn [subcommands].
  rewrite list_elem_of_In, in_flat_map. intros (sc & Hsc & Hentry).
  rewrite <- list_elem_of_In in Hsc. rewrite <- list_elem_of_In in Hentry. rewrite Forall_forall in IHsubs.
  unfold listingBlock in Hentry. destruct (0 <? length (subcommands sc))%nat.
  - apply (IHsubs sc Hsc) in Hentry. etrans; [| done]. by apply prefix_app_r.
  - apply list_elem_of_singleton in Hentry as ->. by apply prefix_app_r.
Qed.

Lemma listingBlock_component (names : list string) (sc : CommandParser)
    (entry : list string * string) :
  entry ∈ listingBlock names sc -> component (length names) entry = name sc.
Proof.
  intros Hentry. unfold component.
  assert (Hpre : (names ++ [name sc]) `prefix_of` fst entry).
  { unfold listingBlock in Hentry. destruct (0 <? length (subcommands sc))%nat.
    - by apply listing_extends in Hentry.
    - by apply list_elem_of_singleton in Hentry as ->. }
  destruct Hpre as [more ->]. rewrite <- app_assoc. cbn.
  rewrite app_nth2 by lia. by rewrite Nat.sub_diag.
Qed.

Lemma constant_StronglySorted (k : string) (l : list string) :
  Forall (fun x => x = k) l -> StronglySorted strLe l.
Proof.
  induction 1 as [|x l -> Hl IH]; constructor; [done |].
  eapply Forall_impl; [exact Hl |]. intros y ->. reflexivity.
Qed.

Lemma listing_level_sorted (p : CommandParser) (names : list string) :
  Sorted nameLe (subcommands p) ->
  Sorted strLe (map (component (length names)) (listing p names)).
Proof.
  intros Hs. apply Sorted_StronglySorted in Hs; [| apply _].
  apply StronglySorted_Sorted. rewrite listing_unfold.
  induction Hs as [|sc subs Hs IH Hall]; cbn [flat_map map]; [constructor |].
  rewrite map_app. apply StronglySorted_app_2; [| | done].
  - intros x1 x2 Hx1 Hx2.
    apply list_elem_of_fmap in Hx1 as (e1 & -> & He1).
    apply list_elem_of_fmap in Hx2 as (e2 & -> & He2).
    rewrite (listingBlock_component _ _ _ He1).
    rewrite list_elem_of_In, in_flat_map in He2. destruct He2 as (sc2 & Hsc2 & He2).
    rewrite <- list_elem_of_In in He2. rewrite <- list_elem_of_In in Hsc2. rewrite (listingBlock_component _ _ _ He2).
    rewrite Forall_forall in Hall. by apply Hall.
  - assert (Hconst : Forall (fun x => x = name sc)
                       (map (component (length names)) (listingBlock names sc))).
    { apply Forall_forall. intros x Hx.
      apply list_elem_of_fmap in Hx as (e & -> & He).
      by apply listingBlock_component. }
    by eapply constant_StronglySorted.
Qed.

Lemma Command_subcommands (d : string) (o : flagsValue) (subs : list CommandParser) :
  subcommands (Command d o subs)
  = sortSliceStable (if containsHelp subs then subs else subs ++ [helpLeaf]).
Proof. unfold Command. cbn. by destruct (containsHelp subs). Qed.

(** C6. Whatever the order in which the children are passed, the node
    built by [Subcommand], and hence the one built by [Command] (which
    may add the internal help leaf), holds exactly these children in
    ascending order of their names. The renderer prints the entries of
    the depth-first listing in the order of the stored children, so at
    the level of the node the listed names ascend; and a node built over
    subtrees whose levels are all sorted has all its levels sorted. *)
Theorem subcommands_sorted_and_listed (n d : string) (o : flagsValue)
    (subs : list CommandParser) (names : list string) (w : World) :
  (Sorted nameLe (subcommands (Subcommand n d o subs))
   /\ subcommands (Subcommand n d o subs) ≡ₚ subs)
  /\ (Sorted nameLe (subcommands (Command d o subs))
      /\ subcommands (Command d o subs)
           ≡ₚ (if containsHelp subs then subs else subs ++ [helpLeaf]))
  /\ (forall r, r ∈ [Subcommand n d o subs; Command d o subs] ->
        printSubcommands r names w = (Val tt, addStdout w (listingText r names))
        /\ Sorted strLe (map (component (length names)) (listing r names))
        /\ (Forall levelSorted subs -> levelSorted r)).
Proof.
  split; [| split].
  - split; [apply sortSliceStable_Sorted | apply sortSliceStable_Permutation].
  - rewrite Command_subcommands.
    split; [apply sortSliceStable_Sorted | apply sortSliceStable_Permutation].
  - intros r Hr. split; [apply printSubcommands_spec |].
    apply elem_of_cons in Hr as [-> | Hr];
      [| apply list_elem_of_singleton in Hr as ->].
    + split; [apply listing_level_sorted, sortSliceStable_Sorted |].
      apply levelSorted_Subcommand.
    + split; [apply listing_level_sorted; rewrite Command_subcommands;
              apply sortSliceStable_Sorted |].
      intros Hsubs. unfold Command. apply levelSorted_Subcommand.
      destruct (containsHelp subs); cbn [negb]; [done |].
      apply Forall_app; split; [done |]. constructor; [| constructor].
      apply levelSorted_LeafSubcommand.
Qed.

(** ** Building the descriptors *)

Lemma processFields_app (idx : nat) (pre rest : list StructField) (st : building) :
  processFields idx (pre ++ rest) st
  = match processFields idx pre st with
    | Val (inr st') => processFields (idx + length pre) rest st'
    | other => other
    end.
Proof.
  revert idx st. induction pre as [|f pre IH]; intros idx st; cbn [app processFields length].
  - by rewrite Nat.add_0_r.
  - destruct (processField idx f st) as [[e | st'] | c]; [done | | done].
    rewrite IH. by rewrite Nat.add_succ_comm.
Qed.

Lemma processField_undocumented (idx : nat) (f : StructField) (st : building) :
  tagDoc f = "" -> processField idx f st = Val (inl errMissingDocumentation).
Proof. intros Hdoc. unfold processField. destruct st as [[? ?] ?]. by rewrite Hdoc. Qed.

Lemma processField_excluded (idx : nat) (f : StructField) (st : building) :
  tagDoc f = "-" -> processField idx f st = Val (inr st).
Proof. intros Hdoc. unfold processField. destruct st as [[? ?] ?]. by rewrite Hdoc. Qed.

Lemma processFields_excluded (idx : nat) (fields : list StructField) (st : building) :
  Forall (fun f => tagDoc f = "-") fields -> processFields idx fields st = Val (inr st).
Proof.
  intros Hall. revert idx. induction Hall as [|f fields Hf _ IH]; intros idx; [done |].
  cbn [processFields]. by rewrite processField_excluded.
Qed.

Lemma processFields_undocumented (idx : nat) (fields : list StructField) (st : building) :
  (exists f, f ∈ fields /\ tagDoc f = "") ->
  forall st', processFields idx fields st <> Val (inr st').
Proof.
  intros (f & Hin & Hdoc). revert idx st.
  induction fields as [|g fields IH]; intros idx st st'; [by apply elem_of_nil in Hin |].
  cbn [processFields]. apply elem_of_cons in Hin as [<- | Hin].
  - by rewrite processField_undocumented.
  - destruct (processField idx g st) as [[e | st1] | c]; [done | by apply IH | done].
Qed.

(** C7, as the code has it. A record with a field whose [doc] tag is
    empty is never built. The error is the missing-documentation one
    when the loop reaches that field, that is when the fields before it
    pass. A field tagged ["-"] is skipped: it changes neither the option
    set nor the maps, and a record of such fields only yields the empty
    option set. *)
Theorem undocumented_field_rejected (typeName : string) (pre post : list StructField)
    (f : StructField) (configs : list Config) :
  tagDoc f = "" ->
  (forall pw, newParserWrapper (PointerToStruct typeName (pre ++ f :: post)) configs
              <> Val (inr pw))
  /\ (forall st, processFields 0 pre (getoptNew, ∅, ∅) = Val (inr st) ->
       newParserWrapper (PointerToStruct typeName (pre ++ f :: post)) configs
       = Val (inl errMissingDocumentation))
  /\ (forall idx g st, tagDoc g = "-" -> processField idx g st = Val (inr st))
  /\ (forall fields, Forall (fun g => tagDoc g = "-") fields ->
       exists pw, newParserWrapper (PointerToStruct typeName fields) [] = Val (inr pw)
                  /\ setOptions (set pw) = [] /\ numOptions pw = 0).
Proof.
  intros Hdoc. repeat split.
  - intros pw. unfold newParserWrapper. cbn [structFields].
    pose proof (processFields_undocumented 0 (pre ++ f :: post) (getoptNew, ∅, ∅)) as Hno.
    destruct (processFields 0 (pre ++ f :: post) (getoptNew, ∅, ∅))
      as [[e | [[parser docs] required]] | c]; [done | | done].
    exfalso. eapply Hno; [| done]. exists f. split; [| done].
    apply elem_of_app. right. by left.
  - intros st Hpre. unfold newParserWrapper. cbn [structFields].
    rewrite processFields_app, Hpre. cbn [processFields].
    by rewrite processField_undocumented.
  - intros idx g st. apply processField_excluded.
  - intros fields Hall. unfold newParserWrapper. cbn [structFields].
    rewrite processFields_excluded by done. cbn [foldl]. eexists. split; [done |].
    split; [done |]. unfold numOptions. cbn. by rewrite map_size_empty.
Qed.

Lemma oneByte_oneRune (s : string) : String.length s = 1%nat -> RuneCountInString s = 1%nat.
Proof.
  destruct s as [|c [|c' s]]; [done | | done]. intros _.
  unfold RuneCountInString, bytesOf.
  by cbn [String.length list_ascii_of_string map RuneCount_go].
Qed.

(** C8, as the code has it. For a documented field that is not excluded
    and carries a short tag, the field is rejected with the
    invalid-short-name error exactly when the tag is not one byte long.
    So every tag whose length in characters is not one is rejected, and
    a one-byte tag on an exported field is accepted unless the library
    refuses the names. *)
Theorem short_tag_one_byte (idx : nat) (f : StructField) (st : building) :
  tagDoc f <> "-" -> tagDoc f <> "" -> tagShort f <> "" ->
  (processField idx f st = Val (inl errInvalidShortName)
   <-> String.length (tagShort f) <> 1%nat)
  /\ (RuneCountInString (tagShort f) <> 1%nat ->
      processField idx f st = Val (inl errInvalidShortName))
  /\ (String.length (tagShort f) = 1%nat -> fieldExported f = true ->
      (exists st', processField idx f st = Val (inr st'))
      \/ processField idx f st = Crash LibraryExit)
  /\ (forall typeName pre post configs st0,
        String.length (tagShort f) <> 1%nat ->
        processFields 0 pre (getoptNew, ∅, ∅) = Val (inr st0) ->
        newParserWrapper (PointerToStruct typeName (pre ++ f :: post)) configs
        = Val (inl errInvalidShortName)).
Proof.
  intros Hdash Hdoc Hshort.
  apply String.eqb_neq in Hdash, Hdoc, Hshort.
  assert (Hbad : String.length (tagShort f) <> 1%nat ->
                 processField idx f st = Val (inl errInvalidShortName)).
  { intros Hlen. unfold processField. destruct st as [[parser docs] required].
    rewrite Hdash, Hdoc, Hshort. apply Nat.eqb_neq in Hlen. by rewrite Hlen. }
  assert (Hbad' : forall idx' st', String.length (tagShort f) <> 1%nat ->
                 processField idx' f st' = Val (inl errInvalidShortName)).
  { intros idx' st' Hlen. unfold processField. destruct st' as [[parser docs] required].
    rewrite Hdash, Hdoc, Hshort. apply Nat.eqb_neq in Hlen. by rewrite Hlen. }
  assert (Hgood : String.length (tagShort f) = 1%nat ->
                  processField idx f st <> Val (inl errInvalidShortName)).
  { intros Hlen. unfold processField. destruct st as [[parser docs] required].
    rewrite Hdash, Hdoc, Hshort. apply Nat.eqb_eq in Hlen. rewrite Hlen. cbn [negb andb].
    destruct (fieldExported f); cbn [negb]; [| done]. by case_match. }
  split; [| split; [| split]].
  - split; [| done]. intros Hres Hlen. by apply Hgood.
  - intros Hrunes. apply Hbad. intros Hlen. by apply Hrunes, oneByte_oneRune.
  - intros Hlen Hexp. unfold processField. destruct st as [[parser docs] required].
    rewrite Hdash, Hdoc, Hshort, Hexp. apply Nat.eqb_eq in Hlen. rewrite Hlen.
    cbn [negb andb]. case_match; [left; by eexists | by right].
  - intros typeName pre post configs st0 Hlen Hpre.
    unfold newParserWrapper. cbn [structFields].
    rewrite processFields_app, Hpre. cbn [processFields]. by rewrite Hbad'.
Qed.

(** ** Help injection *)

Lemma byteChar_h (r : Z) : (0 <= r < 128)%Z -> byteChar r = "h" -> r = 104%Z.
Proof.
  intros Hr Heq. unfold byteChar in Heq. injection Heq as Heq.
  apply (f_equal N_of_ascii) in Heq. rewrite N_ascii_embedding in Heq by lia.
  cbn in Heq. lia.
Qed.

Lemma ShortName_h (o : getoptOption) : ShortName o = "h" <-> optShort o = 104%Z.
Proof.
  split; [| intros Hs; unfold ShortName; by rewrite Hs].
  unfold ShortName, stringOfRune.
  repeat case_match; unfold byteChar; rewrite ?append_cons, ?append_empty_l;
    intros Heq; try discriminate.
  apply byteChar_h; [lia | done].
Qed.

Lemma isHelpOption_spec (o : getoptOption) :
  isHelpOption o = true <-> ShortName o = "h" \/ optLong o = "help".
Proof.
  unfold isHelpOption. rewrite orb_true_iff, Z.eqb_eq, String.eqb_eq.
  by rewrite ShortName_h.
Qed.

Lemma sameName_helpOption (o : getoptOption) : sameName helpOption o = isHelpOption o.
Proof. done. Qed.

Lemma existsb_Permutation {A} (f : A -> bool) (l1 l2 : list A) :
  l1 ≡ₚ l2 -> existsb f l1 = existsb f l2.
Proof.
  induction 1 as [| x l1 l2 _ IH | x y l | l1 l2 l3 _ IH1 _ IH2]; cbn.
  - done.
  - by rewrite IH.
  - destruct (f x), (f y); done.
  - by rewrite IH1.
Qed.

(** C9. [maybeAddHelpFlags] registers the synthesized [-h]/[--help]
    option, bound to the node's help cell and documented, exactly when no
    registered option has the short name [h] or the long name [help]; it
    then appends that one option and leaves everything else alone. When
    such an option exists the wrapper is returned unchanged. Running the
    step again on its own result changes nothing. *)
Theorem help_injected_unless_present (p : parserWrapper) :
  let taken := exists o, o ∈ setOptions (set p)
                         /\ (ShortName o = "h" \/ optLong o = "help") in
  (~ taken ->
     exists s, maybeAddHelpFlags p
               = Val (true, {| set := s; docs := <["help" := "Prints this help message"]> (docs p);
                               pwPac := pwPac p; required := required p |})
               /\ setOptions s = setOptions (set p) ++ [helpOption]
               /\ setProgram s = setProgram (set p)
               /\ setParameters s = setParameters (set p)
               /\ setArgs s = setArgs (set p))
  /\ (taken -> maybeAddHelpFlags p = Val (false, p))
  /\ (forall added p', maybeAddHelpFlags p = Val (added, p') ->
        maybeAddHelpFlags p' = Val (false, p')
        /\ (added = true <-> ~ taken)).
Proof.
  intros taken.
  assert (Hfound : existsb isHelpOption (VisitAll (setOptions (set p))) = true <-> taken).
  { rewrite (existsb_Permutation _ _ _ (VisitAll_all _)), existsb_exists.
    unfold taken. split; intros (o & Hin & Ho); exists o.
    - split; [by apply list_elem_of_In | by apply isHelpOption_spec].
    - split; [by apply list_elem_of_In | by apply isHelpOption_spec]. }
  assert (Hfresh : ~ taken ->
            maybeAddHelpFlags p
            = Val (true, {| set := {| setOptions := setOptions (set p) ++ [helpOption];
                                      setProgram := setProgram (set p);
                                      setParameters := setParameters (set p);
                                      setArgs := setArgs (set p) |};
                            docs := <["help" := helpDoc]> (docs p);
                            pwPac := pwPac p; required := required p |})).
  { intros Hno. unfold maybeAddHelpFlags.
    destruct (existsb isHelpOption (VisitAll (setOptions (set p)))) eqn:Hex;
      [exfalso; by apply Hno, Hfound |].
    rewrite (existsb_Permutation _ _ _ (VisitAll_all _)) in Hex.
    unfold FlagLong. cbn [helpOption optShort optLong Z.eqb andb].
    assert (Hs : existsb (sameName helpOption) (setOptions (set p)) = false).
    { rewrite <- Hex. clear. induction (setOptions (set p)) as [|o l IH]; [done |].
      cbn [existsb]. by rewrite IH, sameName_helpOption. }
    by rewrite Hs. }
  assert (Hskip : taken -> maybeAddHelpFlags p = Val (false, p)).
  { intros Hyes. apply Hfound in Hyes. unfold maybeAddHelpFlags. by rewrite Hyes. }
  split; [| split].
  - intros Hno. eexists. split; [by apply Hfresh |]. done.
  - done.
  - intros added p' Hrun.
    destruct (existsb isHelpOption (VisitAll (setOptions (set p)))) eqn:Hex.
    + assert (Hyes : taken) by by apply Hfound.
      rewrite (Hskip Hyes) in Hrun. injection Hrun as <- <-.
      split; [by apply Hskip |]. split; [done | intros Hno; by destruct Hno].
    + assert (Hno : ~ taken) by (intros Hyes; apply Hfound in Hyes; congruence).
      rewrite (Hfresh Hno) in Hrun. injection Hrun as <- <-.
      split; [| done]. unfold maybeAddHelpFlags. cbn [set setOptions].
      rewrite (existsb_Permutation _ _ _ (VisitAll_all _)), existsb_app. cbn.
      by rewrite orb_true_r.
Qed.



(** ** Resolution, step by step *)

Lemma cpNewParserWrapper_full (p : CommandParser) (chain : list CommandParser)
    (built : error + parserWrapper) (full : string) :
  cpNewParserWrapper p chain = Val (built, full) -> full = fullcmd chain.
Proof.
  unfold cpNewParserWrapper. repeat case_match; intros; simplify_eq; done.
Qed.

(** [getoptall] with its loop over the children read as a search. *)
Lemma getoptall_unfold (p : CommandParser) (chain : list CommandParser)
    (args : list string) (w : World) :
  getoptall p chain args w
  = match chain with
    | [] => die (Panic "called with zero length chain") w
    | _ :: _ =>
        match cpNewParserWrapper p chain with
        | Crash c => (Crash c, w)
        | Val (inl err, _) =>
            (eprint (cmdOf chain +:+ ": internal error: " +:+ Error err +:+ LF) ;;
             ret (inl err, p)) w
        | Val (inr parser0, full) =>
            let '(err, parser, wrote) := pwGetopt parser0 args in
            let p1 := setHelp p (helpAfter p parser wrote) in
            match err with
            | Some err =>
                (eprint (cmdOf chain +:+ ": " +:+ Error err +:+ "." +:+ seeHelp full) ;;
                 ret (inl err, p1)) w
            | None => afterParse p1 parser chain w
            end
        end
    end.
Proof.
  destruct p as [d h n o c subs]. destruct chain as [|top more]; [done |].
  cbn [getoptall]. unfold bind at 1. unfold lift.
  destruct (cpNewParserWrapper _ _) as [[built full] | cr] eqn:Hbuilt; [| done].
  destruct built as [err | parser0]; [done |].
  destruct (pwGetopt parser0 args) as [[err parser] wrote].
  unfold setHelp, helpAfter. cbn [help description name options pac subcommands].
  destruct err as [err |]; [done |].
  apply cpNewParserWrapper_full in Hbuilt as ->.
  unfold afterParse. cbn [help subcommands pac name cmdOf].
  set (h1 := if helpBound parser then default h wrote else h).
  destruct h1; [done |].
  destruct (length subs <=? 0)%nat; [done |].
  destruct (NArgs parser <=? 0)%Z; [done |].
  unfold findSubcommand, setSubcommands.
  cbn [help description name options pac subcommands].
  set (subcmd := hd "" (Args parser)).
  set (pfail := mkCommandParser d false n o c subs).
  match goal with
  | |- ?loop [] subs w = _ =>
      enough (Hloop : forall scs before,
        loop before scs w
        = match list_find (fun sc => subcmd = name sc) scs with
          | Some (i, sc) =>
              (do r <- getoptall sc ((top :: more) ++ [sc]) (Args parser);
               ret (fst r, mkCommandParser d false n o c (before ++ <[i := snd r]> scs))) w
          | None =>
              (eprint (name top +:+ ": no such subcommand: '" +:+ subcmd +:+ "'."
                       +:+ seeHelp (fullcmd (top :: more))) ;;
               ret (inl ErrNoSuchSubcommand, pfail)) w
          end) by (rewrite (Hloop subs []); by destruct (list_find _ subs) as [[? ?] |])
  end.
  clearbody pfail.
  induction scs as [|sc scs IH]; intros before; [done |].
  cbn [list_find]. destruct (decide (subcmd = name sc)) as [Heq | Hne].
  - rewrite (proj2 (String.eqb_eq _ _) Heq). cbn [negb]. reflexivity.
  - rewrite (proj2 (String.eqb_neq _ _) Hne). cbn [negb].
    rewrite IH. destruct (list_find _ scs) as [[i sc'] |]; cbn [fmap option_fmap option_map prod_map fst snd]; [| done].
    unfold bind, id. destruct (getoptall sc' _ _ w) as [[r | cr] w']; [| done].
    unfold ret. cbn [list_insert insert]. by rewrite <- app_assoc.
Qed.

Lemma getoptall_parsed (p : CommandParser) (chain : list CommandParser)
    (args : list string) (parser : parserWrapper) (p1 : CommandParser) (w : World) :
  parsedAt p chain args parser p1 ->
  getoptall p chain args w = afterParse p1 parser chain w.
Proof.
  intros (Hchain & parser0 & wrote & Hbuilt & Hscan & ->).
  rewrite getoptall_unfold. destruct chain as [|top more]; [done |].
  by rewrite Hbuilt, Hscan.
Qed.

Lemma parsedAt_shape (p : CommandParser) (chain : list CommandParser)
    (args : list string) (parser : parserWrapper) (p1 : CommandParser) :
  parsedAt p chain args parser p1 ->
  description p1 = description p /\ name p1 = name p /\ options p1 = options p
  /\ pac p1 = pac p /\ subcommands p1 = subcommands p.
Proof. intros (_ & parser0 & wrote & _ & _ & ->). done. Qed.

Lemma getoptall_leaf (p : CommandParser) (chain : list CommandParser)
    (args : list string) (parser : parserWrapper) (p1 : CommandParser) (w : World) :
  parsedAt p chain args parser p1 ->
  help p1 = false ->
  subcommands p = [] ->
  getoptall p chain args w
  = match check (pac p) (NArgs parser) with
    | Some err =>
        (Val (inl (fmtErrorf (cmdOf chain +:+ ": for command " +:+ name p +:+ ": "
                              +:+ Error err) err), p1), w)
    | None => (Val (inr {| scOptions := options p; scArgs := Args parser |}, p1), w)
    end.
Proof.
  intros Hparsed Hhelp Hleaf.
  destruct (parsedAt_shape _ _ _ _ _ Hparsed) as (Hd & Hn & Ho & Hc & Hs).
  rewrite (getoptall_parsed _ _ _ _ _ _ Hparsed). unfold afterParse.
  rewrite Hhelp, Hs, Hleaf, Hc, Hn. cbn [length Nat.leb].
  unfold newSelectedCommand. rewrite Ho. by destruct (check (pac p) (NArgs parser)).
Qed.

(** C3. At a leaf the walk reaches (wrapper built, scan without error,
    help flag not set), the count of positional arguments the scan left
    is checked against the policy of the leaf. A count below [minArgs]
    fails with the too-few error and a count above [maxArgs] with the
    too-many error, each wrapped with the command and the name of the
    leaf, and no command is selected; otherwise the leaf's option record
    is returned with exactly these arguments. Nothing is printed in
    either case. For the exactly-one policy: no argument fails (too few),
    two or more fail (too many), one succeeds with that argument.
    [errors.Is] sees the policy error through the wrapping. *)
Theorem leaf_policy_enforced (p : CommandParser) (chain : list CommandParser)
    (args : list string) (parser : parserWrapper) (p1 : CommandParser) (w : World) :
  parsedAt p chain args parser p1 ->
  help p1 = false ->
  subcommands p = [] ->
  let wrapped err :=
    fmtErrorf (cmdOf chain +:+ ": for command " +:+ name p +:+ ": " +:+ Error err) err in
  let selected := {| scOptions := options p; scArgs := Args parser |} in
  ((NArgs parser < minArgs (pac p))%Z ->
   getoptall p chain args w = (Val (inl (wrapped ErrTooFewPositionalArguments), p1), w))
  /\ ((minArgs (pac p) <= NArgs parser)%Z -> (maxArgs (pac p) < NArgs parser)%Z ->
      getoptall p chain args w = (Val (inl (wrapped ErrTooManyPositionalArguments), p1), w))
  /\ ((minArgs (pac p) <= NArgs parser <= maxArgs (pac p))%Z ->
      getoptall p chain args w = (Val (inr selected, p1), w))
  /\ (pac p = pacOfConfig JustOnePositionalArgument ->
      (Args parser = [] ->
       getoptall p chain args w
       = (Val (inl (wrapped ErrTooFewPositionalArguments), p1), w))
      /\ (forall a b rest, Args parser = a :: b :: rest ->
          getoptall p chain args w
          = (Val (inl (wrapped ErrTooManyPositionalArguments), p1), w))
      /\ (forall a, Args parser = [a] ->
          getoptall p chain args w
          = (Val (inr {| scOptions := options p; scArgs := [a] |}, p1), w)))
  /\ errorsIs (wrapped ErrTooFewPositionalArguments) ErrTooFewPositionalArguments = true
  /\ errorsIs (wrapped ErrTooManyPositionalArguments) ErrTooManyPositionalArguments = true.
Proof.
  intros Hparsed Hhelp Hleaf wrapped selected.
  destruct (parsedAt_shape _ _ _ _ _ Hparsed) as (Hd & Hn & Ho & Hc & Hs).
  pose proof (getoptall_leaf _ _ _ _ _ w Hparsed Hhelp Hleaf) as Hrun.
  fold wrapped selected in Hrun.
  assert (Hfew : (NArgs parser < minArgs (pac p))%Z ->
                 getoptall p chain args w
                 = (Val (inl (wrapped ErrTooFewPositionalArguments), p1), w)).
  { intros Hlt. rewrite Hrun.
    destruct (check_cases (pac p) (NArgs parser)) as [[_ ->] | [(? & _) | [? _]]];
      [done | lia | lia]. }
  assert (Hmany : (minArgs (pac p) <= NArgs parser)%Z ->
                  (maxArgs (pac p) < NArgs parser)%Z ->
                  getoptall p chain args w
                  = (Val (inl (wrapped ErrTooManyPositionalArguments), p1), w)).
  { intros Hge Hgt. rewrite Hrun.
    destruct (check_cases (pac p) (NArgs parser)) as [[? _] | [(_ & _ & ->) | [? _]]];
      [lia | done | lia]. }
  assert (Hok : (minArgs (pac p) <= NArgs parser <= maxArgs (pac p))%Z ->
                getoptall p chain args w = (Val (inr selected, p1), w)).
  { intros Hin. rewrite Hrun.
    destruct (check_cases (pac p) (NArgs parser)) as [[? _] | [(_ & ? & _) | [_ ->]]];
      [lia | lia | done]. }
  split; [done |]. split; [done |]. split; [done |]. split; [| done].
  intros Hone. split; [| split].
  - intros Hnone. apply Hfew. unfold NArgs. rewrite Hnone, Hone. cbn. lia.
  - intros a b rest Hargs. unfold NArgs in Hmany.
    apply Hmany; rewrite Hargs, Hone;
      cbn [length pacOfConfig JustOnePositionalArgument minArgs maxArgs]; lia.
  - intros a Hargs. unfold selected in Hok. rewrite Hargs in Hok. apply Hok.
    unfold NArgs. rewrite Hargs, Hone. cbn. lia.
Qed.

(** C5. At a node with children the walk reaches, when the scan left at
    least one positional argument and no child bears the first of them as
    its name, resolution fails with [ErrNoSuchSubcommand]: the message
    goes to the standard error, no command is selected and the remaining
    arguments are dropped. *)
Theorem unknown_subcommand_rejected (p : CommandParser) (chain : list CommandParser)
    (args : list string) (parser : parserWrapper) (p1 : CommandParser) (w : World)
    (subcmd : string) (rest : list string) :
  parsedAt p chain args parser p1 ->
  help p1 = false ->
  subcommands p <> [] ->
  Args parser = subcmd :: rest ->
  (forall sc, sc ∈ subcommands p -> name sc <> subcmd) ->
  getoptall p chain args w
  = (Val (inl ErrNoSuchSubcommand, p1),
     addStderr w (cmdOf chain +:+ ": no such subcommand: '" +:+ subcmd +:+ "'."
                  +:+ " See '" +:+ fullcmd chain +:+ " --help'." +:+ LF)).
Proof.
  intros Hparsed Hhelp Hkids Hargs Hnone.
  destruct (parsedAt_shape _ _ _ _ _ Hparsed) as (Hd & Hn & Ho & Hc & Hs).
  rewrite (getoptall_parsed _ _ _ _ _ _ Hparsed). unfold afterParse.
  rewrite Hhelp, Hs. destruct (subcommands p) as [|sc0 subs0] eqn:Hsubs; [done |].
  cbn [length Nat.leb]. unfold NArgs. rewrite Hargs. cbn [length hd].
  replace (Z.of_nat (S (length rest)) <=? 0)%Z with false by (symmetry; apply Z.leb_gt; lia).
  unfold findSubcommand.
  destruct (list_find _ _) as [[i sc] |] eqn:Hfind; [| done].
  apply list_find_Some in Hfind as (Hi & Hname & _).
  exfalso. apply (Hnone sc); [| done]. by eapply list_elem_of_lookup_2.
Qed.

(** ** Rendering never fails on a node that was built *)

Lemma writes_ret : writes (ret tt) "".
Proof. intros w. unfold ret. by rewrite addStdout_empty. Qed.

Lemma writes_print (text : string) : writes (print text) text.
Proof. intros w. apply print_spec. Qed.

Lemma writes_bind (m k : M unit) (a b : string) :
  writes m a -> writes k b -> writes (m ;; k) (a +:+ b).
Proof.
  intros Hm Hk w. unfold bind. by rewrite Hm, Hk, addStdout_addStdout.
Qed.

Lemma writes_forEach {A} (l : list A) (body : A -> M unit) (text : A -> string) :
  (forall x, writes (body x) (text x)) ->
  writes (forEach l body) (concatStrings (map text l)).
Proof.
  intros Hbody w. apply forEach_writes. apply Forall_forall. intros x _. apply Hbody.
Qed.

Lemma writes_if (b : bool) (m1 m2 : M unit) (t1 t2 : string) :
  writes m1 t1 -> writes m2 t2 -> writes (if b then m1 else m2) (if b then t1 else t2).
Proof. by destruct b. Qed.

Lemma pwPrintOptions_writes (parser : parserWrapper) :
  exists text, writes (pwPrintOptions parser) text.
Proof.
  eexists. unfold pwPrintOptions. apply writes_bind; [apply writes_print |].
  apply (writes_forEach _ _ (fun o =>
    (if negb (String.eqb (ShortName o) "")
     then "  -" +:+ ShortName o +:+ ", --" +:+ optLong o
     else "      --" +:+ optLong o)
    +:+ (if negb (optFlag o) then " value" else "")
    +:+ LF
    +:+ wrappedText
          (if lookupRequired (required parser) (optLong o)
           then withPeriod (lookupDoc (docs parser) (optLong o))
                +:+ " This option is mandatory."
           else withPeriod (lookupDoc (docs parser) (optLong o))) 64
    +:+ LF)).
  intros o.
  apply writes_bind; [apply writes_if; apply writes_print |].
  apply writes_bind; [apply writes_if; [apply writes_print | apply writes_ret] |].
  apply writes_bind; [apply writes_print |].
  apply writes_bind; [| apply writes_print].
  intros w. rewrite printWrapped_spec. by destruct (lookupRequired _ _).
Qed.

Lemma newParserWrapper_configs (flags : flagsValue) (configs : list Config)
    (pw : parserWrapper) :
  newParserWrapper flags configs = Val (inr pw) ->
  exists pw0, newParserWrapper flags [] = Val (inr pw0).
Proof.
  unfold newParserWrapper. destruct flags; try done;
    destruct (processFields _ _ _) as [[e | [[parser docs] required]] | c];
    try done; intros _; by eexists.
Qed.

Lemma cpNewParserWrapper_built (p : CommandParser) (chain : list CommandParser)
    (parser : parserWrapper) (full : string) :
  cpNewParserWrapper p chain = Val (inr parser, full) ->
  exists pw0, newParserWrapper (options p) [] = Val (inr pw0).
Proof.
  unfold cpNewParserWrapper.
  destruct (newParserWrapper (options p) _) as [[e | pw] | c] eqn:Hbuilt; try done.
  intros _. by eapply newParserWrapper_configs.
Qed.

Lemma printHelp_writes (p p1 : CommandParser) (pw0 : parserWrapper) :
  newParserWrapper (options p) [] = Val (inr pw0) ->
  exists text, writes (printHelp p1 [p]) text.
Proof.
  intros Hbuilt. destruct (pwPrintOptions_writes pw0) as [optionsText Hopts].
  eexists. unfold printHelp.
  apply writes_bind; [| apply writes_bind; [| apply writes_bind]].
  - unfold printBriefUsage, usageEntries, hasOptions, lift, bind.
    rewrite Hbuilt. intros w. cbn. apply print_spec.
  - unfold printSubcommandDescription.
    apply writes_bind; [apply writes_print |].
    apply writes_bind; [| apply writes_print].
    intros w. apply forEach_print.
  - unfold printOptions. cbn [forEach]. apply writes_bind; [| apply writes_ret].
    unfold lift, bind. rewrite Hbuilt.
    instantiate (1 := if (numOptions pw0 <=? 0)%Z then ""
                      else ("Options for " +:+ name p +:+ ":" +:+ LF +:+ LF) +:+ optionsText).
    destruct (numOptions pw0 <=? 0)%Z; [apply writes_ret |].
    exact (writes_bind (print _) (pwPrintOptions pw0) _ optionsText
             (writes_print _) Hopts).
  - intros w. apply printSubcommands_spec.
Qed.

(** ** The text the help renderer writes *)

Lemma pwPrintOptions_spec (parser : parserWrapper) :
  writes (pwPrintOptions parser) (optionsListText parser).
Proof.
  unfold pwPrintOptions, optionsListText. apply writes_bind; [apply writes_print |].
  apply (writes_forEach _ _ (optionText parser)).
  intros o. unfold optionText.
  apply writes_bind; [apply writes_if; apply writes_print |].
  apply writes_bind; [apply writes_if; [apply writes_print | apply writes_ret] |].
  apply writes_bind; [apply writes_print |].
  apply writes_bind; [| apply writes_print].
  intros w. rewrite printWrapped_spec. by destruct (lookupRequired _ _).
Qed.

Lemma usageEntries_spec (chain : list CommandParser) :
  Forall builds chain ->
  forall w, usageEntries chain w = (Val (concatStrings (map usageEntry chain)), w).
Proof.
  induction 1 as [|e chain [pw He] _ IH]; intros w; cbn [usageEntries map concatStrings];
    [done |].
  unfold bind, lift, ret. rewrite IH. unfold usageEntry, hasOptions. rewrite He.
  by rewrite !append_assoc.
Qed.

Lemma printOptions_spec (chain : list CommandParser) :
  Forall builds chain ->
  writes (printOptions chain) (concatStrings (map optionsText chain)).
Proof.
  intros Hchain w. unfold printOptions. apply forEach_writes.
  eapply Forall_impl; [exact Hchain |]. intros e [pw He] w1. cbn beta.
  unfold bind, lift, optionsText. rewrite He.
  destruct (numOptions pw <=? 0)%Z; [by rewrite addStdout_empty |].
  rewrite print_spec, pwPrintOptions_spec. by rewrite addStdout_addStdout.
Qed.

(** The help of a node reached along a chain of nodes whose records
    build is the four parts, in their order. *)
Lemma printHelp_spec (p : CommandParser) (chain : list CommandParser) :
  Forall builds chain -> writes (printHelp p chain) (helpText p chain).
Proof.
  intros Hchain. unfold printHelp, helpText.
  apply writes_bind; [| apply writes_bind; [| apply writes_bind]].
  - intros w. unfold printBriefUsage, bind. rewrite (usageEntries_spec chain Hchain).
    by rewrite print_spec.
  - unfold printSubcommandDescription, descriptionText.
    apply writes_bind; [apply writes_print |].
    apply writes_bind; [| apply writes_print].
    intros w. apply forEach_print.
  - by apply printOptions_spec.
  - intros w. apply printSubcommands_spec.
Qed.

Lemma helpText_setHelp (p : CommandParser) (h : bool) (chain : list CommandParser) :
  helpText (setHelp p h) chain = helpText p chain.
Proof. by destruct p. Qed.

Lemma helpText_usage (p : CommandParser) (chain : list CommandParser) :
  exists rest, helpText p chain = LF +:+ "Usage:" +:+ rest.
Proof.
  unfold helpText, usageText. eexists. by rewrite !append_assoc.
Qed.

(** C2. At a node with children the walk reaches (wrapper built, scan
    without error, help flag not set), when the scan left no positional
    argument: if the chain has length one the full help of the node is
    rendered on the standard output, nothing else is written, and the
    walk returns the [HasPrintedHelp] record with no arguments, as
    [--help] does. The text is the usage line of the chain, the
    description of the node, the options of the chain and the listing
    of the node's subcommands; at the root of the walk, where the chain
    is the node itself, the usage line names the node and asks for a
    subcommand. If the chain is longer, the walk fails with the error
    "expected subcommand name" and reports it on the standard error. *)
Theorem bare_invocation_or_missing_name (p : CommandParser) (chain : list CommandParser)
    (args : list string) (parser : parserWrapper) (p1 : CommandParser) (w : World) :
  parsedAt p chain args parser p1 ->
  help p1 = false ->
  subcommands p <> [] ->
  Args parser = [] ->
  (length chain = 1%nat ->
   getoptall p chain args w = (printHelp p1 chain ;; ret (inr printedHelp, p1)) w)
  /\ (length chain = 1%nat -> Forall builds chain ->
      getoptall p chain args w
      = (Val (inr printedHelp, p1), addStdout w (helpText p chain)))
  /\ (chain = [p] ->
      printHelp p1 [p] w = (Val tt, addStdout w (helpText p [p]))
      /\ getoptall p chain args w
         = (Val (inr printedHelp, p1), addStdout w (helpText p [p]))
      /\ helpText p [p]
         = (LF +:+ "Usage: " +:+ name p
            +:+ (if hasOptions p is Val true then " [options]" else "")
            +:+ " <subcommand> [...]" +:+ LF)
           +:+ descriptionText p +:+ optionsText p +:+ listingText p [])
  /\ ((2 <= length chain)%nat ->
      getoptall p chain args w
      = (Val (inl (errorsNew "expected subcommand name"), p1),
         addStderr w (cmdOf chain +:+ ": expected subcommand name."
                      +:+ " See '" +:+ fullcmd chain +:+ " --help'." +:+ LF))).
Proof.
  intros Hparsed Hhelp Hkids Hargs.
  destruct (parsedAt_shape _ _ _ _ _ Hparsed) as (Hd & Hn & Ho & Hc & Hs).
  assert (Hrun : getoptall p chain args w
                 = (if (length chain <? 2)%nat
                    then printHelp p1 chain ;; ret (inr printedHelp, p1)
                    else eprint (cmdOf chain +:+ ": expected subcommand name."
                                 +:+ seeHelp (fullcmd chain)) ;;
                         ret (inl (errorsNew "expected subcommand name"), p1)) w).
  { rewrite (getoptall_parsed _ _ _ _ _ _ Hparsed). unfold afterParse.
    rewrite Hhelp, Hs. destruct (subcommands p) as [|sc0 subs0]; [done |].
    cbn [length Nat.leb]. unfold NArgs. rewrite Hargs. cbn [length Z.of_nat Z.leb Z.compare].
    done. }
  assert (Hp1 : forall c, helpText p1 c = helpText p c).
  { intros c. destruct Hparsed as (_ & ? & ? & _ & _ & ->). apply helpText_setHelp. }
  assert (Hroot : length chain = 1%nat -> Forall builds chain ->
            getoptall p chain args w
            = (Val (inr printedHelp, p1), addStdout w (helpText p chain))).
  { intros Hlen Hchain. rewrite Hrun, Hlen. cbn [Nat.ltb Nat.leb]. unfold bind.
    by rewrite (printHelp_spec p1 chain Hchain), Hp1. }
  assert (Hbuilt : builds p).
  { destruct Hparsed as (_ & parser0 & wrote & Hbuilt & _ & _).
    by apply cpNewParserWrapper_built in Hbuilt. }
  split; [| split; [done |]; split].
  - intros Hlen. by rewrite Hrun, Hlen.
  - intros ->. assert (Hchain : Forall builds [p]) by (by constructor).
    split; [by rewrite (printHelp_spec p1 [p] Hchain), Hp1 |].
    split; [by apply Hroot |].
    unfold helpText, usageText, positionalArgumentsPlaceholder, usageEntry.
    replace (0 <? length (subcommands p))%nat with true by (by destruct (subcommands p)).
    cbn [map concatStrings]. rewrite !append_assoc.
    rewrite ?append_cons, ?append_empty_l, ?append_empty_r.
    by destruct (hasOptions p) as [[] |].
  - intros Hlen. rewrite Hrun.
    replace (length chain <? 2)%nat with false by (symmetry; apply Nat.ltb_ge; lia).
    done.
Qed.

(** ** The top-level entry point *)

(** C10. On the empty argument vector [Getopt] returns at once, with no
    selected command and the error "passed a zero length argv": it
    neither panics nor touches the tree or the output. *)
Theorem empty_argv_rejected (p : CommandParser) (w : World) :
  (forall fuel, Getopt (S fuel) p [] w
                = Some (Val (inl (errorsNew "passed a zero length argv"), p), w))
  /\ GetoptReturns p [] w (Val (inl (errorsNew "passed a zero length argv"), p), w)
  /\ (forall r, GetoptReturns p [] w r ->
       r = (Val (inl (errorsNew "passed a zero length argv"), p), w)).
Proof.
  split; [done |]. split; [by exists 1%nat |].
  intros r [[|fuel] Hrun]; [done |]. cbn in Hrun. by injection Hrun.
Qed.

Lemma Getopt_more_fuel (fuel : nat) :
  forall p args w r, Getopt fuel p args w = Some r -> Getopt (S fuel) p args w = Some r.
Proof.
  induction fuel as [|fuel IH]; intros p args w r; [done |].
  intros Hrun. cbn [Getopt] in *. destruct (length args <? 1)%nat; [done |].
  destruct (getoptall p [p] args w) as [[[[err | sc] p'] | c] w']; try done.
  destruct (isSubcommandHelp (scOptions sc)); [| done]. by apply IH.
Qed.

Lemma Getopt_fuel_le (fuel fuel' : nat) p args w r :
  (fuel <= fuel')%nat -> Getopt fuel p args w = Some r -> Getopt fuel' p args w = Some r.
Proof.
  induction 1 as [|fuel' _ IH]; [done |]. intros Hrun. by apply Getopt_more_fuel, IH.
Qed.

Lemma GetoptReturns_unique p args w r1 r2 :
  GetoptReturns p args w r1 -> GetoptReturns p args w r2 -> r1 = r2.
Proof.
  intros [f1 H1] [f2 H2].
  apply (Getopt_fuel_le f1 (f1 `max` f2)) in H1; [| lia].
  apply (Getopt_fuel_le f2 (f1 `max` f2)) in H2; [| lia]. congruence.
Qed.

(** ** The help subcommand *)

Lemma cpNewParserWrapper_pac (p : CommandParser) (chain : list CommandParser)
    (parser : parserWrapper) (full : string) :
  cpNewParserWrapper p chain = Val (inr parser, full) ->
  pwPac parser = newPositionalArgumentsChecker.
Proof.
  unfold cpNewParserWrapper, newParserWrapper.
  assert (Hvisit : forall pw,
            pwPac pw = newPositionalArgumentsChecker ->
            pwPac (foldl (fun pw config => visit config pw) pw
                     [SetPositionalArgumentsPlaceholder (positionalArgumentsPlaceholder p);
                      SetProgramName (fullcmd chain)])
            = newPositionalArgumentsChecker).
  { intros pw Hpw. cbn [foldl].
    unfold visit, SetPositionalArgumentsPlaceholder, SetProgramName.
    by repeat case_match. }
  destruct (options p); try done;
    destruct (processFields _ _ _) as [[e | [[ps ds] rs]] | c]; try done;
    unfold maybeAddHelpFlags; repeat case_match; intros; simplify_eq; cbn;
    by apply Hvisit.
Qed.

(** A scan that stops at once leaves the node as it was and everything
    after the program name as positional arguments. *)
Lemma scanAt_stopped_parsed (p : CommandParser) (chain : list CommandParser)
    (args : list string) :
  chain <> [] ->
  scanAt p chain args = Some stoppedAtOnce ->
  isCount (Z.of_nat (length (tail args))) ->
  exists parser, parsedAt p chain args parser p /\ Args parser = tail args.
Proof.
  intros Hchain Hscan Hcount. unfold scanAt in Hscan.
  destruct (cpNewParserWrapper p chain) as [[[e | parser0] full] | c] eqn:Hbuilt; try done.
  injection Hscan as Hscan.
  pose proof (cpNewParserWrapper_pac _ _ _ _ Hbuilt) as Hpac.
  apply cpNewParserWrapper_full in Hbuilt as Hfull. subst full.
  eexists. split.
  - split; [done |]. exists parser0, None. split; [done |]. split.
    + unfold pwGetopt. rewrite Hscan. cbn [scanError scanHelp scanConsumed pwPac].
      rewrite Hpac. unfold NArgs, Args, stoppedAtOnce.
      cbn [set setArgs scanError scanHelp scanConsumed].
      destruct (check_cases newPositionalArgumentsChecker (Z.of_nat (length (drop 1 args))))
        as [[Hlt _] | [(_ & Hgt & _) | [_ ->]]]; [| | done].
      * cbn in Hlt. lia.
      * replace (drop 1 args) with (tail args) in Hgt by (by destruct args).
        unfold newPositionalArgumentsChecker in Hgt. cbn [maxArgs] in Hgt.
        unfold isCount in Hcount. lia.
    + unfold helpAfter. destruct p. cbn. by case_match.
  - unfold Args. cbn. by destruct args.
Qed.

Lemma helpLeaf_facts :
  name helpLeaf = "help" /\ options helpLeaf = PointerToSubcommandHelp
  /\ subcommands helpLeaf = [] /\ help helpLeaf = false
  /\ pac helpLeaf = newPositionalArgumentsChecker.
Proof. done. Qed.

Lemma Command_finds_help (d : string) (o : flagsValue) (subs : list CommandParser) :
  containsHelp subs = false ->
  exists i, findSubcommand "help" (subcommands (Command d o subs)) = Some (i, helpLeaf).
Proof.
  intros Hno. rewrite Command_subcommands, Hno. unfold findSubcommand.
  destruct (list_find _ _) as [[i sc] |] eqn:Hfind.
  - exists i. apply list_find_Some in Hfind as (Hi & Hname & _).
    apply list_elem_of_lookup_2 in Hi. rewrite sortSliceStable_Permutation in Hi.
    apply elem_of_app in Hi as [Hi | Hi].
    + exfalso. unfold containsHelp in Hno.
      assert (Hyes : existsb (fun sc => String.eqb (name sc) "help") subs = true);
        [| congruence].
      apply existsb_exists. exists sc. split; [by apply list_elem_of_In |].
      by apply String.eqb_eq.
    + by apply list_elem_of_singleton in Hi as ->.
  - exfalso. apply list_find_None in Hfind. rewrite Forall_forall in Hfind.
    apply (Hfind helpLeaf); [| done].
    rewrite sortSliceStable_Permutation. apply elem_of_app. right. by left.
Qed.

(** * Further properties *)

(** ** Calls of [getoptall] as derivations *)

Lemma eprint_spec (text : string) (w : World) : eprint text w = (Val tt, addStderr w text).
Proof. done. Qed.

Lemma findSubcommand_Some (subcmd : string) (subs : list CommandParser) (i : nat)
    (sc : CommandParser) :
  findSubcommand subcmd subs = Some (i, sc) ->
  subs !! i = Some sc /\ name sc = subcmd /\ sc ∈ subs.
Proof.
  unfold findSubcommand. intros Hfind. apply list_find_Some in Hfind as (Hi & Hname & _).
  split; [done |]. split; [done |]. by eapply list_elem_of_lookup_2.
Qed.

(** Every call of [getoptall] that returns follows one of the rules. *)
Lemma getoptall_walk (p : CommandParser) :
  forall chain args w res p' w',
    getoptall p chain args w = (Val (res, p'), w') ->
    walk p chain args w res p' w'.
Proof.
  induction p as [d h n o c subs IHsubs] using CommandParser_tree_ind.
  intros chain args w res p' w' Hrun.
  set (p := mkCommandParser d h n o c subs) in *.
  rewrite getoptall_unfold in Hrun.
  destruct chain as [|top more] eqn:Hchain; [done |]. rewrite <- Hchain in *.
  assert (Hne : chain <> []) by (by rewrite Hchain).
  clear Hchain.
  destruct (cpNewParserWrapper p chain) as [[[err | parser0] full] | cr] eqn:Hbuilt;
    [| | done].
  { unfold bind in Hrun. rewrite eprint_spec in Hrun. unfold ret in Hrun.
    injection Hrun as <- <- <-. by eapply walk_build_error. }
  destruct (pwGetopt parser0 args) as [[err parser] wrote] eqn:Hscan.
  destruct err as [err |].
  { unfold bind in Hrun. rewrite eprint_spec in Hrun. unfold ret in Hrun.
    injection Hrun as <- <- <-. by eapply walk_scan_error. }
  cbv zeta in Hrun.
  set (p1 := setHelp p (helpAfter p parser wrote)) in *.
  assert (Hparsed : parsedAt p chain args parser p1).
  { split; [done |]. exists parser0, wrote.
    by rewrite (cpNewParserWrapper_full _ _ _ _ Hbuilt) in Hbuilt. }
  unfold afterParse in Hrun.
  change (subcommands p1) with subs in Hrun.
  change (pac p1) with c in Hrun. change (name p1) with n in Hrun.
  destruct (help p1) eqn:Hhelp.
  { unfold bind in Hrun.
    destruct (printHelp p1 chain w) as [[[] | cr] w1] eqn:Hprint; [| done].
    unfold ret in Hrun. injection Hrun as <- <- <-. by eapply walk_help. }
  destruct (decide (subs = [])) as [Hsubs | Hkids].
  { rewrite Hsubs in Hrun. cbn [length Nat.leb] in Hrun.
    destruct (check c (NArgs parser)) as [err |] eqn:Hcheck; unfold ret in Hrun;
      injection Hrun as <- <- <-.
    - by eapply (walk_leaf_rejected p).
    - by eapply (walk_leaf_selected p). }
  replace (length subs <=? 0)%nat with false in Hrun by (by destruct subs).
  destruct (Args parser) as [|subcmd rest] eqn:Hargs.
  { unfold NArgs in Hrun. rewrite Hargs in Hrun.
    change (Z.of_nat (length (@nil string)) <=? 0)%Z with true in Hrun. cbv iota in Hrun.
    destruct (length chain <? 2)%nat eqn:Hlen.
    - unfold bind in Hrun.
      destruct (printHelp p1 chain w) as [[[] | cr] w1] eqn:Hprint; [| done].
      unfold ret in Hrun. injection Hrun as <- <- <-.
      eapply walk_bare; try done. by apply Nat.ltb_lt.
    - unfold bind in Hrun. rewrite eprint_spec in Hrun. unfold ret in Hrun.
      injection Hrun as <- <- <-.
      eapply walk_missing_name; try done. by apply Nat.ltb_ge. }
  unfold NArgs in Hrun. rewrite Hargs in Hrun. cbn [length hd] in Hrun.
  replace (Z.of_nat (S (length rest)) <=? 0)%Z with false in Hrun
    by (symmetry; apply Z.leb_gt; lia).
  destruct (findSubcommand subcmd subs) as [[i sc] |] eqn:Hfind.
  - unfold bind in Hrun.
    destruct (getoptall sc (chain ++ [sc]) (subcmd :: rest) w) as [[[res1 sc'] | cr] w1]
      eqn:Hchild; [| done].
    unfold ret in Hrun. cbn [fst snd] in Hrun. injection Hrun as <- <- <-.
    destruct (findSubcommand_Some _ _ _ _ Hfind) as (_ & _ & Hin).
    rewrite Forall_forall in IHsubs. apply (IHsubs sc Hin) in Hchild.
    rewrite <- Hargs in Hchild.
    by eapply (walk_descend p).
  - unfold bind in Hrun. rewrite eprint_spec in Hrun. unfold ret in Hrun.
    injection Hrun as <- <- <-. by eapply (walk_unknown p).
Qed.

(** ** What a resolution leaves of the tree *)

Lemma shape_unfold (p : CommandParser) :
  shape p = mkCommandParser (description p) false (name p) (options p) (pac p)
              (map shape (subcommands p)).
Proof. by destruct p. Qed.

Lemma shape_setHelp (p : CommandParser) (h : bool) : shape (setHelp p h) = shape p.
Proof. by destruct p. Qed.

Lemma shape_fields (p q : CommandParser) :
  shape p = shape q ->
  description p = description q /\ name p = name q /\ options p = options q
  /\ pac p = pac q /\ map shape (subcommands p) = map shape (subcommands q).
Proof. rewrite !shape_unfold. intros H. by injection H. Qed.

Lemma shape_insert (p : CommandParser) (h : bool) (i : nat) (sc sc' : CommandParser) :
  subcommands p !! i = Some sc ->
  shape sc' = shape sc ->
  shape (setSubcommands (setHelp p h) (<[i := sc']> (subcommands p))) = shape p.
Proof.
  intros Hi Hsc. rewrite (shape_unfold p), shape_unfold. cbn. f_equal.
  change (map shape) with (fmap (M := list) shape).
  rewrite list_fmap_insert, Hsc. apply list_insert_id.
  by rewrite list_lookup_fmap, Hi.
Qed.

Lemma walk_shape p chain args w res p' w' :
  walk p chain args w res p' w' -> shape p' = shape p.
Proof.
  induction 1 as [ | | ? ? ? ? ? ? ? Hp | ? ? ? ? ? ? ? Hp | ? ? ? ? ? ? Hp
                   | ? ? ? ? ? ? ? Hp | ? ? ? ? ? ? Hp | ? ? ? ? ? ? ? ? Hp
                   | ? ? ? ? ? ? ? ? ? ? ? ? ? Hp ? ? Hfind ? IH];
    try done; try apply shape_setHelp;
    destruct Hp as (_ & ? & ? & _ & _ & ->); try apply shape_setHelp.
  apply findSubcommand_Some in Hfind as (Hi & _). by eapply shape_insert.
Qed.

Lemma Getopt_shape (fuel : nat) :
  forall p args w res p' w',
    Getopt fuel p args w = Some (Val (res, p'), w') -> shape p' = shape p.
Proof.
  induction fuel as [|fuel IH]; intros p args w res p' w' Hrun; [done |].
  cbn [Getopt] in Hrun. destruct (length args <? 1)%nat; [by simplify_eq |].
  destruct (getoptall p [p] args w) as [[[[err | sc] p1] | cr] w1] eqn:Hwalk;
    [| | done].
  - simplify_eq. by eapply walk_shape, getoptall_walk.
  - apply getoptall_walk, walk_shape in Hwalk.
    destruct (isSubcommandHelp (scOptions sc)).
    + rewrite <- Hwalk. by eapply IH.
    + by simplify_eq.
Qed.

(** X1. A resolution changes nothing of the tree but help cells:
    whatever [Getopt] returns, the tree it leaves has the descriptions,
    names, option records, policies and children, in their order, of the
    tree it was called on. *)
Theorem resolution_keeps_the_tree (fuel : nat) (p : CommandParser) (args : list string)
    (w : World) (res : error + SelectedCommand) (p' : CommandParser) (w' : World) :
  Getopt fuel p args w = Some (Val (res, p'), w') ->
  shape p' = shape p
  /\ description p' = description p /\ name p' = name p /\ options p' = options p
  /\ pac p' = pac p
  /\ map name (subcommands p') = map name (subcommands p).
Proof.
  intros Hrun. apply Getopt_shape in Hrun as Hshape. split; [done |].
  destruct (shape_fields _ _ Hshape) as (Hd & Hn & Ho & Hc & Hsubs).
  repeat (split; [done |]).
  assert (Hname : forall l, map name (map shape l) = map name l).
  { intros l. rewrite map_map. apply map_ext. by intros []. }
  by rewrite <- (Hname (subcommands p')), Hsubs, Hname.
Qed.

(** ** What a resolution selects *)

Lemma leafOptions_unfold (p : CommandParser) :
  leafOptions p
  = match subcommands p with
    | [] => [options p]
    | _ => flat_map leafOptions (subcommands p)
    end.
Proof. by destruct p. Qed.

Lemma leafOptions_shape (p : CommandParser) : leafOptions (shape p) = leafOptions p.
Proof.
  induction p as [d h n o c subs IH] using CommandParser_tree_ind.
  cbn [shape]. rewrite !leafOptions_unfold. cbn [subcommands options].
  destruct subs as [|sc subs]; [done |]. cbn [map].
  change (flat_map leafOptions (map shape (sc :: subs))
          = flat_map leafOptions (sc :: subs)).
  induction IH as [|x l Hx _ IHl]; [done |]. cbn [map flat_map]. by rewrite Hx, IHl.
Qed.

Lemma leafOptions_child (p sc : CommandParser) :
  sc ∈ subcommands p -> leafOptions sc ⊆ leafOptions p.
Proof.
  intros Hin v Hv. rewrite (leafOptions_unfold p).
  destruct (subcommands p) as [|c l] eqn:Hsubs; [by apply elem_of_nil in Hin |].
  rewrite <- Hsubs. apply list_elem_of_In, in_flat_map. exists sc.
  rewrite Hsubs. by split; apply list_elem_of_In.
Qed.

Lemma walk_selected p chain args w res p' w' :
  walk p chain args w res p' w' ->
  forall sc, res = inr sc -> sc = printedHelp \/ scOptions sc ∈ leafOptions p.
Proof.
  induction 1 as [ | | | | ? ? ? ? ? ? ? ? Hleaf | | |
                   | ? ? ? ? ? ? ? ? ? ? ? ? ? ? ? ? Hfind ? IH];
    intros sel Hsel; simplify_eq; try (by left).
  - right. rewrite leafOptions_unfold, Hleaf. cbn. by left.
  - destruct (IH _ eq_refl) as [-> | Hin]; [by left | right].
    apply findSubcommand_Some in Hfind as (_ & _ & Hsc).
    by eapply leafOptions_child.
Qed.

(** X2. [Getopt] only selects leaves, and never shows its internal help
    marker: the record it returns is the help sentinel or the option
    record of a leaf of the tree it was called on, and is never the
    marker of the internal help subcommand. *)
Theorem only_leaves_are_selected (fuel : nat) (p : CommandParser) (args : list string)
    (w : World) (sc : SelectedCommand) (p' : CommandParser) (w' : World) :
  Getopt fuel p args w = Some (Val (inr sc, p'), w') ->
  scOptions sc <> PointerToSubcommandHelp
  /\ (sc = printedHelp \/ scOptions sc ∈ leafOptions p).
Proof.
  revert p args w. induction fuel as [|fuel IH]; intros p args w Hrun; [done |].
  cbn [Getopt] in Hrun. destruct (length args <? 1)%nat; [by simplify_eq |].
  destruct (getoptall p [p] args w) as [[[[err | sc1] p1] | cr] w1] eqn:Hwalk;
    [done | | done].
  apply getoptall_walk in Hwalk.
  destruct (isSubcommandHelp (scOptions sc1)) eqn:Hmarker.
  - apply IH in Hrun as [Hno Hsel]. split; [done |].
    by rewrite <- (leafOptions_shape p1), (walk_shape _ _ _ _ _ _ _ Hwalk),
         leafOptions_shape in Hsel.
  - simplify_eq. split.
    + intros Heq. by rewrite Heq in Hmarker.
    + by eapply walk_selected.
Qed.

(** ** The residual arguments *)

Lemma pwGetopt_args (parser0 parser : parserWrapper) (args : list string)
    (err : option error) (wrote : option bool) :
  pwGetopt parser0 args = (err, parser, wrote) ->
  Args parser `suffix_of` tail args.
Proof.
  unfold pwGetopt. intros Hscan.
  assert (Hargs : Args parser = drop (S (scanConsumed (SetGetopt (set parser0) args))) args).
  { by destruct (scanError _); simplify_eq. }
  rewrite Hargs. destruct args as [|a args]; [by rewrite drop_nil |].
  cbn [drop tail]. apply suffix_drop.
Qed.

Lemma parsedAt_args p chain args parser p1 :
  parsedAt p chain args parser p1 -> Args parser `suffix_of` tail args.
Proof. intros (_ & parser0 & wrote & _ & Hscan & _). by eapply pwGetopt_args. Qed.

Lemma suffix_tail {A} (l : list A) : tail l `suffix_of` l.
Proof. destruct l; [done |]. by apply suffix_cons_r. Qed.

Lemma walk_args p chain args w res p' w' :
  walk p chain args w res p' w' ->
  forall sc, res = inr sc -> scArgs sc `suffix_of` tail args.
Proof.
  induction 1 as [ | | | | ? ? ? ? ? ? Hp | | |
                   | ? ? ? ? ? ? ? ? ? ? ? ? ? Hp ? ? ? ? IH];
    intros sel Hsel; simplify_eq; try apply suffix_nil.
  - by eapply parsedAt_args.
  - etrans; [by apply IH |]. etrans; [apply suffix_tail |]. by eapply parsedAt_args.
Qed.

(** X3. The arguments handed to the selected command are what the
    command line ends with: one call of [getoptall] returns a suffix of
    the arguments after the program name, and [Getopt] such a suffix
    followed by the [--help] words its own rewrites of the help
    subcommand appended, fewer of them than there were calls. *)
Theorem residual_arguments_are_a_suffix (fuel : nat) (p : CommandParser)
    (args : list string) (w : World) (sc : SelectedCommand) (p' : CommandParser)
    (w' : World) :
  (forall chain, getoptall p chain args w = (Val (inr sc, p'), w') ->
     scArgs sc `suffix_of` tail args)
  /\ (Getopt fuel p args w = Some (Val (inr sc, p'), w') ->
      exists k, (k < fuel)%nat
                /\ scArgs sc `suffix_of` (tail args ++ replicate k "--help")).
Proof.
  split.
  { intros chain Hrun. by eapply walk_args, eq_refl; apply getoptall_walk. }
  revert p args w. induction fuel as [|fuel IH]; intros p args w Hrun; [done |].
  cbn [Getopt] in Hrun. destruct (length args <? 1)%nat; [by simplify_eq |].
  destruct (getoptall p [p] args w) as [[[[err | sc1] p1] | cr] w1] eqn:Hwalk;
    [done | | done].
  apply getoptall_walk in Hwalk.
  pose proof (walk_args _ _ _ _ _ _ _ Hwalk sc1 eq_refl) as Hsuffix.
  destruct (isSubcommandHelp (scOptions sc1)).
  - apply IH in Hrun as (k & Hk & Hsc). exists (S k). split; [lia |].
    etrans; [exact Hsc |]. cbn [app tail replicate].
    rewrite <- (app_assoc (scArgs sc1)). cbn [app]. by apply suffix_app.
  - simplify_eq. exists 0%nat. split; [lia |]. by rewrite app_nil_r.
Qed.

(** ** Where a resolution writes *)

Lemma keepsStderr_ret {A} (a : A) : keepsStderr (ret a).
Proof. intros w r w' H. unfold ret in H. by simplify_eq. Qed.

Lemma keepsStderr_lift {A} (r : run A) : keepsStderr (lift r).
Proof. intros w r' w' H. unfold lift in H. by simplify_eq. Qed.

Lemma keepsStderr_print (text : string) : keepsStderr (print text).
Proof. intros w r w' H. unfold print in H. by simplify_eq. Qed.

Lemma keepsStderr_bind {A B} (m : M A) (k : A -> M B) :
  keepsStderr m -> (forall a, keepsStderr (k a)) -> keepsStderr (bind m k).
Proof.
  intros Hm Hk w r w' H. unfold bind in H.
  destruct (m w) as [[a | c] w1] eqn:Hrun.
  - rewrite (Hk a _ _ _ H). by eapply Hm.
  - simplify_eq. by eapply Hm.
Qed.

Lemma keepsStderr_forEach {A} (l : list A) (body : A -> M unit) :
  (forall x, keepsStderr (body x)) -> keepsStderr (forEach l body).
Proof.
  intros Hbody. induction l as [|x l IH]; cbn [forEach]; [apply keepsStderr_ret |].
  apply keepsStderr_bind; [apply Hbody | by intros _].
Qed.

Lemma keepsStderr_writes (m : M unit) (text : string) : writes m text -> keepsStderr m.
Proof. intros Hm w r w' H. rewrite Hm in H. by simplify_eq. Qed.

Lemma keepsStderr_usageEntries (chain : list CommandParser) :
  keepsStderr (usageEntries chain).
Proof.
  induction chain as [|entry chain IH]; cbn [usageEntries]; [apply keepsStderr_ret |].
  apply keepsStderr_bind; [apply keepsStderr_lift | intros has].
  apply keepsStderr_bind; [apply IH | intros more]. apply keepsStderr_ret.
Qed.

Lemma keepsStderr_printHelp (p : CommandParser) (chain : list CommandParser) :
  keepsStderr (printHelp p chain).
Proof.
  unfold printHelp.
  apply keepsStderr_bind; [| intros _; apply keepsStderr_bind; [| intros _;
    apply keepsStderr_bind; [| intros _]]].
  - unfold printBriefUsage.
    apply keepsStderr_bind; [apply keepsStderr_usageEntries | intros entries].
    apply keepsStderr_print.
  - unfold printSubcommandDescription.
    apply keepsStderr_bind; [apply keepsStderr_print | intros _].
    apply keepsStderr_bind; [| intros _; apply keepsStderr_print].
    apply keepsStderr_forEach. intros line. apply keepsStderr_print.
  - unfold printOptions. apply keepsStderr_forEach. intros entry.
    apply keepsStderr_bind; [apply keepsStderr_lift | intros [err | parser]];
      [apply keepsStderr_ret |].
    destruct (numOptions parser <=? 0)%Z; [apply keepsStderr_ret |].
    apply keepsStderr_bind; [apply keepsStderr_print | intros _].
    destruct (pwPrintOptions_writes parser) as [text Htext].
    by eapply keepsStderr_writes.
  - intros w r w' H. rewrite printSubcommands_spec in H. by simplify_eq.
Qed.

Lemma walk_output p chain args w res p' w' :
  walk p chain args w res p' w' ->
  match res with
  | inl _ => stdout w' = stdout w
  | inr sc => stderr w' = stderr w /\ (sc <> printedHelp -> w' = w)
  end.
Proof.
  induction 1 as [ | | ? ? ? ? ? ? ? ? ? Hprint | | | ? ? ? ? ? ? ? ? ? ? ? Hprint | |
                   | ? ? ? ? ? ? ? ? ? ? res ? ? ? ? ? ? ? IH];
    try done.
  - split; [by eapply keepsStderr_printHelp |]. by intros [].
  - split; [by eapply keepsStderr_printHelp |]. by intros [].
Qed.

(** X4. A resolution keeps its two streams apart: when [Getopt] returns
    an error nothing was written to the standard output; when it
    returns a command nothing was written to the standard error, and
    unless that command is the help sentinel nothing was written at
    all. *)
Theorem streams_kept_apart (fuel : nat) (p : CommandParser) (args : list string)
    (w : World) (res : error + SelectedCommand) (p' : CommandParser) (w' : World) :
  Getopt fuel p args w = Some (Val (res, p'), w') ->
  match res with
  | inl _ => stdout w' = stdout w
  | inr sc => stderr w' = stderr w /\ (sc <> printedHelp -> w' = w)
  end.
Proof.
  revert p args w. induction fuel as [|fuel IH]; intros p args w Hrun; [done |].
  cbn [Getopt] in Hrun. destruct (length args <? 1)%nat; [by simplify_eq |].
  destruct (getoptall p [p] args w) as [[[[err | sc1] p1] | cr] w1] eqn:Hwalk;
    [| | done].
  - simplify_eq. by apply getoptall_walk, walk_output in Hwalk.
  - apply getoptall_walk, walk_output in Hwalk as [Herr Hsame].
    destruct (isSubcommandHelp (scOptions sc1)) eqn:Hmarker.
    + rewrite <- Hsame; [exact (IH _ _ _ Hrun) |]. intros Heq. by rewrite Heq in Hmarker.
    + by simplify_eq.
Qed.

(** ** How a resolution fails *)

Lemma processField_errors (idx : nat) (f : StructField) (st : building) (err : error) :
  processField idx f st = Val (inl err) ->
  err ∈ [errMissingDocumentation; errInvalidShortName; errPrivateField].
Proof.
  unfold processField. destruct st as [[parser ds] rs].
  repeat case_match; intros; simplify_eq; repeat constructor.
Qed.

Lemma processFields_errors (fields : list StructField) :
  forall idx st err,
    processFields idx fields st = Val (inl err) ->
    err ∈ [errMissingDocumentation; errInvalidShortName; errPrivateField].
Proof.
  induction fields as [|f fields IH]; intros idx st err H; cbn [processFields] in H;
    [done |].
  destruct (processField idx f st) as [[e | st'] | c] eqn:Hf; [| by eapply IH | done].
  simplify_eq. by eapply processField_errors.
Qed.

Lemma newParserWrapper_errors (flags : flagsValue) (configs : list Config) (err : error) :
  newParserWrapper flags configs = Val (inl err) -> err ∈ buildErrors.
Proof.
  unfold newParserWrapper, buildErrors. intros H.
  assert (Hfields : forall fields,
            match processFields 0 fields (getoptNew, ∅, ∅) with
            | Val (inr (parser, docs, required)) =>
                Val (inr (foldl (fun pw config => visit config pw)
                            {| set := parser; docs := docs;
                               pwPac := newPositionalArgumentsChecker;
                               required := required |} configs))
            | Val (inl e) => Val (inl e)
            | Crash c => Crash c
            end = Val (inl err) ->
            err ∈ [errMissingDocumentation; errInvalidShortName; errPrivateField]).
  { intros fields Hf.
    destruct (processFields 0 fields _) as [[e | [[ps ds] rs]] | c] eqn:Hrun; [| done | done].
    simplify_eq. by eapply processFields_errors. }
  destruct flags; simplify_eq; try (by repeat constructor);
    apply Hfields in H; by do 2 apply list_elem_of_further.
Qed.

Lemma cpNewParserWrapper_errors (p : CommandParser) (chain : list CommandParser)
    (err : error) (full : string) :
  cpNewParserWrapper p chain = Val (inl err, full) -> err ∈ buildErrors.
Proof.
  unfold cpNewParserWrapper. intros H.
  destruct (newParserWrapper (options p) _) as [[e | parser] | c] eqn:Hbuilt; [| | done].
  - simplify_eq. by eapply newParserWrapper_errors.
  - by destruct (maybeAddHelpFlags parser) as [[? ?] |].
Qed.

Lemma pwGetopt_error (parser0 parser : parserWrapper) (args : list string)
    (err : error) (wrote : option bool) :
  pwPac parser0 = newPositionalArgumentsChecker ->
  isCount (Z.of_nat (length args)) ->
  pwGetopt parser0 args = (Some err, parser, wrote) ->
  exists msg, err = FlatParserError msg.
Proof.
  intros Hpac Hcount. unfold pwGetopt.
  destruct (scanError _) as [msg |]; intros H; [simplify_eq; by eexists |].
  exfalso. cbn [pwPac] in H. rewrite Hpac in H. unfold NArgs, Args in H.
  cbn [set setArgs] in H.
  set (n := scanConsumed _) in H.
  pose proof (length_drop args (S n)) as Hlen.
  destruct (check_cases newPositionalArgumentsChecker
              (Z.of_nat (length (drop (S n) args))))
    as [[Hlt _] | [(_ & Hgt & _) | [_ Hok]]].
  - cbn in Hlt. lia.
  - unfold newPositionalArgumentsChecker in Hgt. cbn [maxArgs] in Hgt.
    unfold isCount in Hcount. lia.
  - rewrite Hok in H. by simplify_eq.
Qed.

Lemma cmdOf_app (chain more : list CommandParser) :
  chain <> [] -> cmdOf (chain ++ more) = cmdOf chain.
Proof. by destruct chain. Qed.

(** X5. The ways a call of [getoptall] fails, and what each one tells
    the user. Either a leaf refused the number of its arguments: the
    error wraps one of the two count errors and nothing is printed. Or
    exactly one line went to the standard error, headed by the name of
    the command the walk started from: an internal error for a record
    that cannot be turned into options, the scanner's own message, a
    missing subcommand name or an unknown subcommand, the last three
    followed by the pointer to [--help] of the command the walk had
    reached. The argument vector is one a Go slice can hold. *)
Theorem failures_and_their_reports (p : CommandParser) (chain : list CommandParser)
    (args : list string) (w : World) (err : error) (p' : CommandParser) (w' : World) :
  isCount (Z.of_nat (length args)) ->
  getoptall p chain args w = (Val (inl err, p'), w') ->
  (exists inner leaf,
     inner ∈ [ErrTooFewPositionalArguments; ErrTooManyPositionalArguments]
     /\ err = fmtErrorf (cmdOf chain +:+ ": for command " +:+ leaf +:+ ": "
                         +:+ Error inner) inner
     /\ w' = w)
  \/ (exists reached text,
        chain `prefix_of` reached
        /\ w' = addStderr w (cmdOf chain +:+ ": " +:+ text)
        /\ ((err ∈ buildErrors /\ text = "internal error: " +:+ Error err +:+ LF)
            \/ (exists msg, err = FlatParserError msg
                            /\ text = msg +:+ "." +:+ seeHelp (fullcmd reached))
            \/ (err = errorsNew "expected subcommand name"
                /\ text = "expected subcommand name." +:+ seeHelp (fullcmd reached))
            \/ (exists subcmd,
                  err = ErrNoSuchSubcommand
                  /\ text = "no such subcommand: '" +:+ subcmd +:+ "'."
                            +:+ seeHelp (fullcmd reached)))).
Proof.
  intros Hcount Hrun. apply getoptall_walk in Hrun.
  remember (inl err) as res eqn:Hres. revert Hcount.
  induction Hrun as [ ? ? ? ? ? ? Hne Hbuilt
                    | ? ? ? ? ? ? ? ? ? Hne Hbuilt Hscan
                    | | ? ? ? ? ? ? ? ? ? ? Hcheck | | | |
                    | ? ? ? ? ? ? ? ? ? ? ? ? ? Hp ? ? ? ? IH];
    intros Hcount; simplify_eq.
  - right. exists chain, ("internal error: " +:+ Error err +:+ LF).
    split; [done |]. split; [done |]. left. split; [| done].
    by eapply cpNewParserWrapper_errors.
  - right. apply cpNewParserWrapper_full in Hbuilt as Hfull. subst full.
    destruct (pwGetopt_error _ _ _ _ _ (cpNewParserWrapper_pac _ _ _ _ Hbuilt) Hcount Hscan)
      as [msg ->].
    exists chain, (msg +:+ "." +:+ seeHelp (fullcmd chain)).
    split; [done |]. split; [done |]. right. left. by exists msg.
  - left. eexists _, _. split; [| done].
    destruct (check_cases (pac p) (NArgs parser))
      as [[_ Hc] | [(_ & _ & Hc) | [_ Hc]]]; rewrite Hc in Hcheck; simplify_eq;
      repeat constructor.
  - right. exists chain, ("expected subcommand name." +:+ seeHelp (fullcmd chain)).
    split; [done |]. split; [done |]. right. right. by left.
  - right.
    exists chain, ("no such subcommand: '" +:+ subcmd +:+ "'." +:+ seeHelp (fullcmd chain)).
    split; [done |]. split; [done |]. right. right. right. by exists subcmd.
  - pose proof (parsedAt_args _ _ _ _ _ Hp) as Hsuffix.
    destruct Hp as (Hne & _).
    rewrite (cmdOf_app chain [sc] Hne) in IH.
    assert (Hcount' : isCount (Z.of_nat (length (Args parser)))).
    { apply suffix_length in Hsuffix. unfold isCount in *.
      assert (length (tail args) <= length args)%nat by (destruct args; cbn; lia). lia. }
    destruct (IH eq_refl Hcount') as [Hleaf | (reached & text & Hpre & Hw & Hkind)];
      [by left | right].
    exists reached, text. split; [| done]. by eapply prefix_app_l.
Qed.

(** ** The help rewrite ends *)

Lemma markedBelow_unfold (p : CommandParser) :
  markedBelow p
  <-> Forall (fun c => (options c = PointerToSubcommandHelp -> name c = "help")
                       /\ markedBelow c) (subcommands p).
Proof.
  clear.
  destruct p as [d h n o c subs]. cbn [markedBelow subcommands].
  induction subs as [|sc subs IH].
  - split; [constructor | done].
  - rewrite Forall_cons, <- IH. tauto.
Qed.

Lemma markedBelow_shape (p : CommandParser) : markedBelow (shape p) <-> markedBelow p.
Proof.
  induction p as [d h n o c subs IH] using CommandParser_tree_ind.
  rewrite !markedBelow_unfold. cbn [shape subcommands].
  induction IH as [|x l Hx _ IHl]; [done |]. cbn [map].
  rewrite !Forall_cons, IHl, Hx. by destruct x.
Qed.

(** The trees the constructors build have the marker where the walk
    expects it, when the children passed have. *)
Lemma markedBelow_Subcommand (n d : string) (o : flagsValue) (subs : list CommandParser) :
  Forall (fun c => (options c = PointerToSubcommandHelp -> name c = "help")
                   /\ markedBelow c) subs ->
  markedBelow (Subcommand n d o subs).
Proof.
  intros Hsubs. apply markedBelow_unfold. cbn. by rewrite sortSliceStable_Permutation.
Qed.

Lemma markedBelow_LeafSubcommand (n d : string) (o : flagsValue) (config : list Config) :
  markedBelow (LeafSubcommand n d o config).
Proof. apply markedBelow_unfold. rewrite LeafSubcommand_subcommands. constructor. Qed.

Lemma markedBelow_Command (d : string) (o : flagsValue) (subs : list CommandParser) :
  Forall (fun c => (options c = PointerToSubcommandHelp -> name c = "help")
                   /\ markedBelow c) subs ->
  markedBelow (Command d o subs).
Proof.
  intros Hsubs. apply markedBelow_unfold.
  rewrite Command_subcommands, sortSliceStable_Permutation.
  destruct (containsHelp subs); [done |].
  apply Forall_app. split; [done |]. constructor; [| constructor].
  split; [done |]. apply markedBelow_LeafSubcommand.
Qed.

Lemma countHelp_suffix (l1 l2 : list string) :
  l1 `suffix_of` l2 -> (countHelp l1 <= countHelp l2)%nat.
Proof.
  intros [k ->]. unfold countHelp. rewrite filter_app, length_app. lia.
Qed.

Lemma countHelp_rewritten (prog : string) (l : list string) :
  countHelp (tail ([prog] ++ l ++ ["--help"])) = countHelp l.
Proof.
  cbn [app tail]. unfold countHelp. rewrite filter_app, length_app.
  rewrite filter_cons_False by done. cbn. lia.
Qed.

Lemma walk_marker p chain args w res p' w' :
  walk p chain args w res p' w' ->
  markedBelow p ->
  forall sc, res = inr sc -> scOptions sc = PointerToSubcommandHelp ->
    (options p = PointerToSubcommandHelp
     /\ (countHelp (scArgs sc) <= countHelp (tail args))%nat)
    \/ (countHelp (scArgs sc) < countHelp (tail args))%nat.
Proof.
  induction 1 as [ | | | | ? ? ? ? ? ? Hp | | |
                   | ? ? ? ? ? ? ? ? ? ? ? ? ? Hp ? Hargs Hfind ? IH];
    intros Hmarked sel Hsel Hmarker; simplify_eq; try done.
  - left. split; [done |]. by eapply countHelp_suffix, parsedAt_args.
  - right. apply parsedAt_args, countHelp_suffix in Hp.
    apply findSubcommand_Some in Hfind as (_ & Hname & Hin).
    apply markedBelow_unfold in Hmarked. rewrite Forall_forall in Hmarked.
    destruct (Hmarked _ Hin) as [Hhelp Hbelow].
    rewrite Hargs in Hp, IH. cbn [tail] in IH.
    assert (Hle : (countHelp rest <= countHelp (subcmd :: rest))%nat)
      by (apply countHelp_suffix; by apply suffix_cons_r).
    destruct (IH Hbelow _ eq_refl Hmarker) as [[Hopt Hcount] | Hcount]; [| lia].
    rewrite <- Hname, (Hhelp Hopt) in Hp.
    unfold countHelp in Hp. rewrite filter_cons_True in Hp by done.
    cbn [length] in Hp. unfold countHelp in *. lia.
Qed.

Lemma Getopt_enough_fuel (fuel : nat) :
  forall p args w,
    options p <> PointerToSubcommandHelp ->
    markedBelow p ->
    (countHelp (tail args) < fuel)%nat ->
    exists r, Getopt fuel p args w = Some r.
Proof.
  induction fuel as [|fuel IH]; intros p args w Hroot Hmarked Hfuel; [lia |].
  cbn [Getopt]. destruct (length args <? 1)%nat; [by eexists |].
  destruct (getoptall p [p] args w) as [[[[err | sc] p1] | cr] w1] eqn:Hwalk;
    [by eexists | | by eexists].
  destruct (isSubcommandHelp (scOptions sc)) eqn:Hmarker; [| by eexists].
  apply getoptall_walk in Hwalk.
  assert (Hsc : scOptions sc = PointerToSubcommandHelp)
    by (by destruct (scOptions sc)).
  pose proof (walk_shape _ _ _ _ _ _ _ Hwalk) as Hshape.
  destruct (walk_marker _ _ _ _ _ _ _ Hwalk Hmarked sc eq_refl Hsc) as [[Hopt _] | Hlt];
    [done |].
  apply IH.
  - destruct (shape_fields _ _ Hshape) as (_ & _ & -> & _). done.
  - by rewrite <- markedBelow_shape, Hshape, markedBelow_shape.
  - rewrite countHelp_rewritten. lia.
Qed.

(** X6. [Getopt] returns. In a tree where the internal help marker sits
    only on nodes named [help] (code outside the package cannot put it
    anywhere: [Command] does, on the child it names [help]) and not on
    the root, every rewrite of the help subcommand takes one word [help]
    off the command line, so that the calls of [Getopt] to itself are no
    more than the words [help] after the program name, and one more
    call returns: a result, or the end of the process. *)
Theorem Getopt_returns (p : CommandParser) (args : list string) (w : World) :
  options p <> PointerToSubcommandHelp ->
  markedBelow p ->
  exists r, Getopt (S (countHelp (tail args))) p args w = Some r
            /\ GetoptReturns p args w r.
Proof.
  intros Hroot Hmarked.
  destruct (Getopt_enough_fuel (S (countHelp (tail args))) p args w Hroot Hmarked)
    as [r Hr]; [lia |].
  exists r. split; [done |]. by eexists.
Qed.

(** ** Building the tree *)

Lemma list_find_head_filter {A} (P Q : A -> Prop) `{!forall x, Decision (P x)}
    `{!forall x, Decision (Q x)} (l : list A) :
  (forall x, P x <-> Q x) -> snd <$> list_find P l = head (filter Q l).
Proof.
  intros HPQ. induction l as [|x l IH]; [done |].
  cbn [list_find]. rewrite filter_cons.
  destruct (decide (P x)) as [HP | HP], (decide (Q x)) as [HQ | HQ];
    try done; try (by apply HPQ in HP); try (by apply HPQ in HQ).
  rewrite <- IH. by destruct (list_find P l) as [[? ?] |].
Qed.

Lemma findSubcommand_first (k : string) (l : list CommandParser) :
  snd <$> findSubcommand k (sortSliceStable l) = head (filter (fun y => name y = k) l).
Proof.
  unfold findSubcommand. rewrite <- (sortSliceStable_stable k l).
  apply list_find_head_filter. intros x. split; congruence.
Qed.

(** X7. Between children that bear the same name the first one passed
    wins: the node that [getoptall] dispatches a name to, among the
    children of a node built by [Subcommand] or by [Command], is the
    first child of that name in the order of the call (for [Command],
    with the internal help leaf after the caller's children when none
    of them is named [help]); the sort moves no child past another of
    the same name. *)
Theorem first_child_of_a_name_wins (n d : string) (o : flagsValue)
    (subs : list CommandParser) (k : string) :
  snd <$> findSubcommand k (subcommands (Subcommand n d o subs))
  = head (filter (fun y => name y = k) subs)
  /\ snd <$> findSubcommand k (subcommands (Command d o subs))
     = head (filter (fun y => name y = k)
               (if containsHelp subs then subs else subs ++ [helpLeaf])).
Proof.
  split.
  - apply findSubcommand_first.
  - rewrite Command_subcommands. apply findSubcommand_first.
Qed.

Lemma strLe_not_ltb (a b : string) : strLe a b -> String.ltb b a = false.
Proof.
  unfold String.ltb, strLe, String.leb. rewrite (String.compare_antisym a b).
  by destruct (String.compare b a).
Qed.

Lemma sortSliceStable_sorted_id (l : list CommandParser) :
  Sorted nameLe l -> sortSliceStable l = l.
Proof.
  induction 1 as [|x l Hl IH Hhd]; [done |].
  unfold sortSliceStable in *. cbn [foldr]. rewrite IH.
  destruct Hhd as [|y l' Hxy]; [done |]. cbn [insertStable].
  by rewrite (strLe_not_ltb _ _ Hxy).
Qed.

Lemma containsHelp_Permutation (l1 l2 : list CommandParser) :
  l1 ≡ₚ l2 -> containsHelp l1 = containsHelp l2.
Proof. apply existsb_Permutation. Qed.

Lemma containsHelp_Command (d : string) (o : flagsValue) (subs : list CommandParser) :
  containsHelp (subcommands (Command d o subs)) = true.
Proof.
  rewrite Command_subcommands, (containsHelp_Permutation _ _ (sortSliceStable_Permutation _)).
  destruct (containsHelp subs) eqn:Hhelp; [done |].
  unfold containsHelp. rewrite existsb_app. cbn. apply orb_true_r.
Qed.

Lemma containsHelp_spec (l : list CommandParser) :
  containsHelp l = true <-> exists sc, sc ∈ l /\ name sc = "help".
Proof.
  unfold containsHelp. rewrite existsb_exists. split.
  - intros (sc & Hin & Heq). exists sc. split; [by apply list_elem_of_In |].
    by apply String.eqb_eq.
  - intros (sc & Hin & Heq). exists sc. split; [by apply list_elem_of_In |].
    by apply String.eqb_eq.
Qed.

(** X8. A tree built by [Command] always answers to [help], and
    building is idempotent: the children of the root hold a node named
    [help], so that the word [help] is dispatched and never reported as
    an unknown subcommand; and passing the children of a built node to
    the constructor again, for [Command] as for [Subcommand], gives the
    same node: nothing is added and no child moves. *)
Theorem help_is_always_a_subcommand (n d : string) (o : flagsValue)
    (subs : list CommandParser) :
  containsHelp (subcommands (Command d o subs)) = true
  /\ (exists i sc, findSubcommand "help" (subcommands (Command d o subs)) = Some (i, sc)
                   /\ (containsHelp subs = false -> sc = helpLeaf)
                   /\ (containsHelp subs = true -> sc ∈ subs))
  /\ Command d o (subcommands (Command d o subs)) = Command d o subs
  /\ Subcommand n d o (subcommands (Subcommand n d o subs)) = Subcommand n d o subs.
Proof.
  split; [apply containsHelp_Command |]. split; [| split].
  - pose proof (containsHelp_Command d o subs) as Hhas.
    apply containsHelp_spec in Hhas as (sc0 & Hsc0 & Hname0).
    destruct (findSubcommand "help" (subcommands (Command d o subs)))
      as [[i sc] |] eqn:Hfind.
    + exists i, sc. split; [done |].
      apply findSubcommand_Some in Hfind as (_ & Hname & Hin).
      rewrite Command_subcommands, sortSliceStable_Permutation in Hin.
      split; intros Hsubs; rewrite Hsubs in Hin; [| done].
      apply elem_of_app in Hin as [Hin | Hin]; [| by apply list_elem_of_singleton in Hin].
      assert (Hyes : containsHelp subs = true) by (apply containsHelp_spec; by exists sc).
      congruence.
    + unfold findSubcommand in Hfind. apply list_find_None in Hfind.
      rewrite Forall_forall in Hfind. by destruct (Hfind _ Hsc0).
  - unfold Command at 1. rewrite containsHelp_Command. cbn [negb].
    unfold Command, Subcommand. f_equal.
    destruct (negb (containsHelp subs)); apply sortSliceStable_sorted_id,
      sortSliceStable_Sorted.
  - unfold Subcommand. cbn [subcommands]. f_equal.
    apply sortSliceStable_sorted_id, sortSliceStable_Sorted.
Qed.

(** ** The options of a record *)

Lemma processField_unfold (idx : nat) (f : StructField) (parser : getoptSet)
    (ds : gmap string string) (rs : gmap string bool) :
  processField idx f (parser, ds, rs)
  = if String.eqb (tagDoc f) "-" then Val (inr (parser, ds, rs))
    else if String.eqb (tagDoc f) "" then Val (inl errMissingDocumentation)
    else if negb (String.eqb (tagShort f) "")
            && negb (String.length (tagShort f) =? 1)%nat
    then Val (inl errInvalidShortName)
    else if negb (fieldExported f) then Val (inl errPrivateField)
    else match FlagLong parser (fieldOption idx f) with
         | None => Crash LibraryExit
         | Some parser' =>
             Val (inr (parser',
                       <[optLong (fieldOption idx f) := optHelpvalue (fieldOption idx f)]> ds,
                       if optMandatory (fieldOption idx f)
                       then <[optLong (fieldOption idx f) := true]> rs else rs))
         end.
Proof. reflexivity. Qed.

Lemma processField_built (idx : nat) (f : StructField) (parser : getoptSet)
    (ds : gmap string string) (rs : gmap string bool) (st' : building) :
  processField idx f (parser, ds, rs) = Val (inr st')
  <-> (tagDoc f = "-" /\ st' = (parser, ds, rs))
      \/ (tagDoc f <> "-" /\ fieldOk f
          /\ exists parser',
               FlagLong parser (fieldOption idx f) = Some parser'
               /\ st' = (parser',
                         <[optLong (fieldOption idx f) := optHelpvalue (fieldOption idx f)]> ds,
                         if optMandatory (fieldOption idx f)
                         then <[optLong (fieldOption idx f) := true]> rs else rs)).
Proof.
  clear.
  rewrite processField_unfold. unfold fieldOk.
  destruct (String.eqb_spec (tagDoc f) "-") as [Hx | Hx].
  { split; [intros H; simplify_eq; by left |]. by intros [[_ ->] | [? _]]. }
  destruct (String.eqb_spec (tagDoc f) "") as [He | He].
  { split; [done |]. by intros [[? _] | (_ & [? | (? & _)] & _)]. }
  destruct (String.eqb_spec (tagShort f) "") as [Hs | Hs],
           (Nat.eqb_spec (String.length (tagShort f)) 1) as [Hl | Hl],
           (fieldExported f) eqn:Hexp; cbn [negb andb];
    try (split; [done |];
         intros [[? _] | (_ & [? | (_ & [? | ?] & ?)] & _)]; done).
  all: split;
    [ destruct (FlagLong parser (fieldOption idx f)) as [parser' |] eqn:Hflag; [| done];
      intros H; simplify_eq; right; split; [done |];
      split; [right; split; [done |]; split; [tauto | done] |];
      by exists parser'
    | intros [[? _] | (_ & _ & parser' & -> & ->)]; done ].
Qed.

Lemma processFields_built (fields : list StructField) :
  forall idx parser ds rs parser' ds' rs',
    processFields idx fields (parser, ds, rs) = Val (inr (parser', ds', rs'))
    <-> Forall fieldOk fields
        /\ flagAll parser (fieldOptions idx fields) = Some parser'
        /\ ds' = docsOf ds (fieldOptions idx fields)
        /\ rs' = requiredOf rs (fieldOptions idx fields).
Proof.
  induction fields as [|f fields IH]; intros idx parser ds rs parser' ds' rs'.
  { cbn. split.
    - intros H. by simplify_eq.
    - intros (_ & H & -> & ->). by simplify_eq. }
  cbn [processFields fieldOptions]. rewrite Forall_cons. split.
  - destruct (processField idx f (parser, ds, rs)) as [[e | [[p1 d1] r1]] | c] eqn:Hf;
      [done | | done].
    intros Hrest. apply IH in Hrest as (Hok & Hflag & -> & ->).
    apply processField_built in Hf
      as [[Hx Hst] | (Hx & Hfok & p2 & Hflag1 & Hst)]; simplify_eq.
    + rewrite Hx. cbn. split; [| done]. split; [by left | done].
    + destruct (String.eqb_spec (tagDoc f) "-") as [? | _]; [done |].
      cbn [flagAll docsOf requiredOf foldl]. by rewrite Hflag1.
  - intros ([Hfok Hok] & Hflag & -> & ->).
    destruct (String.eqb_spec (tagDoc f) "-") as [Hx | Hx].
    + rewrite (proj2 (processField_built idx f parser ds rs (parser, ds, rs)));
        [| by left].
      by apply IH.
    + cbn [flagAll] in Hflag.
      destruct (FlagLong parser (fieldOption idx f)) as [p1 |] eqn:Hflag1; [| done].
      assert (Hf : processField idx f (parser, ds, rs)
                   = Val (inr (p1,
                               <[optLong (fieldOption idx f)
                                 := optHelpvalue (fieldOption idx f)]> ds,
                               if optMandatory (fieldOption idx f)
                               then <[optLong (fieldOption idx f) := true]> rs else rs))).
      { apply processField_built. right. split; [done |]. split; [done |]. by exists p1. }
      rewrite Hf. by apply IH.
Qed.

Lemma FlagLong_Some (s : getoptSet) (o : getoptOption) :
  is_Some (FlagLong s o) <-> named o /\ existsb (sameName o) (setOptions s) = false.
Proof.
  clear.
  unfold FlagLong, named.
  destruct (Z.eqb_spec (optShort o) 0) as [Hs | Hs],
           (String.eqb_spec (optLong o) "") as [Hl | Hl]; cbn [andb].
  { split; [by intros [? ?] | intros [[? | ?] _]; done]. }
  all: destruct (existsb (sameName o) (setOptions s));
    (split; [intros [? ?]; [done || (split; [tauto | done])]
            | intros [_ ?]; done || by eexists]).
Qed.

Lemma FlagLong_options (s s' : getoptSet) (o : getoptOption) :
  FlagLong s o = Some s' ->
  setOptions s' = setOptions s ++ [o] /\ setProgram s' = setProgram s
  /\ setParameters s' = setParameters s /\ setArgs s' = setArgs s.
Proof. unfold FlagLong. repeat case_match; intros; by simplify_eq. Qed.

Lemma flagAll_options (opts : list getoptOption) :
  forall s s', flagAll s opts = Some s' ->
    setOptions s' = setOptions s ++ opts /\ setProgram s' = setProgram s
    /\ setParameters s' = setParameters s /\ setArgs s' = setArgs s.
Proof.
  induction opts as [|o opts IH]; intros s s' H; cbn [flagAll] in H.
  { simplify_eq. by rewrite app_nil_r. }
  destruct (FlagLong s o) as [s1 |] eqn:Hflag; [| done].
  apply FlagLong_options in Hflag as (Ho & Hp & Hq & Ha).
  apply IH in H as (Ho' & Hp' & Hq' & Ha').
  rewrite Ho', Ho, <- app_assoc. cbn. repeat split; congruence.
Qed.

Lemma sameName_false (o o' : getoptOption) :
  sameName o o' = false
  <-> (optShort o <> 0 -> optShort o' <> optShort o)
      /\ (optLong o <> "" -> optLong o' <> optLong o).
Proof.
  clear.
  unfold sameName.
  destruct (Z.eqb_spec (optShort o) 0), (Z.eqb_spec (optShort o') (optShort o)),
           (String.eqb_spec (optLong o) ""), (String.eqb_spec (optLong o') (optLong o));
    cbn; split; try done; try tauto; intros [? ?]; tauto.
Qed.

Lemma existsb_sameName_false (o : getoptOption) (acc : list getoptOption) :
  existsb (sameName o) acc = false
  <-> (optShort o <> 0 -> optShort o ∉ optShort <$> acc)
      /\ (optLong o <> "" -> optLong o ∉ optLong <$> acc).
Proof.
  induction acc as [|a acc IH]; cbn [existsb].
  { split; [| done]. intros _. split; intros _ H; by apply elem_of_nil in H. }
  rewrite orb_false_iff, IH, sameName_false, !fmap_cons.
  split.
  - intros [[Hs Hl] [Hs' Hl']]. split; intros Hne Hin;
      apply elem_of_cons in Hin as [Hin | Hin].
    + by apply (Hs Hne).
    + by apply (Hs' Hne).
    + by apply (Hl Hne).
    + by apply (Hl' Hne).
  - intros [Hs Hl]. repeat split; intros Hne.
    + intros Heq. apply (Hs Hne). rewrite <- Heq. by left.
    + intros Heq. apply (Hl Hne). rewrite <- Heq. by left.
    + intros Hin. apply (Hs Hne). by right.
    + intros Hin. apply (Hl Hne). by right.
Qed.

Lemma NoDup_filter_snoc {A} (P : A -> Prop) `{!forall x, Decision (P x)}
    (l : list A) (x : A) :
  NoDup (filter P (l ++ [x])) <-> NoDup (filter P l) /\ (P x -> x ∉ l).
Proof.
  rewrite filter_app, NoDup_app.
  destruct (decide (P x)) as [HP | HP].
  - rewrite filter_cons_True, filter_nil by done. split.
    + intros (Hl & Hx & _). split; [done |]. intros _ Hin.
      apply (Hx x); [by apply list_elem_of_filter | by left].
    + intros [Hl Hx]. split; [done |]. split; [| apply NoDup_singleton].
      intros y Hy Hyx. apply list_elem_of_singleton in Hyx as ->.
      apply list_elem_of_filter in Hy as [_ Hy]. by apply Hx.
  - rewrite filter_cons_False, filter_nil by done. split.
    + intros (Hl & _). by split.
    + intros [Hl _]. split; [done |]. split; [| constructor].
      intros y _ Hy. by apply elem_of_nil in Hy.
Qed.

Lemma distinctNames_snoc (acc : list getoptOption) (o : getoptOption) :
  distinctNames (acc ++ [o])
  <-> distinctNames acc /\ named o /\ existsb (sameName o) acc = false.
Proof.
  clear.
  unfold distinctNames.
  rewrite Forall_app, Forall_singleton, !fmap_app, existsb_sameName_false.
  cbn [fmap list_fmap]. rewrite !NoDup_filter_snoc. tauto.
Qed.

Lemma distinctNames_nil : distinctNames [].
Proof. split; [constructor |]. split; constructor. Qed.

Lemma distinctNames_app_l (l k : list getoptOption) :
  distinctNames (l ++ k) -> distinctNames l.
Proof.
  induction k as [|o k IH] using rev_ind; [by rewrite app_nil_r |].
  rewrite app_assoc, distinctNames_snoc. intros [H _]. by apply IH.
Qed.

Lemma flagAll_distinct (opts : list getoptOption) :
  forall s, distinctNames (setOptions s) ->
    is_Some (flagAll s opts) <-> distinctNames (setOptions s ++ opts).
Proof.
  induction opts as [|o opts IH]; intros s Hs; cbn [flagAll].
  { rewrite app_nil_r. split; [done | by eexists]. }
  replace (setOptions s ++ o :: opts) with ((setOptions s ++ [o]) ++ opts)
    by (by rewrite <- app_assoc).
  destruct (FlagLong s o) as [s1 |] eqn:Hflag.
  - apply FlagLong_options in Hflag as Hopts. destruct Hopts as (Hopts & _).
    rewrite <- Hopts. apply IH. rewrite Hopts. apply distinctNames_snoc.
    split; [done |]. apply FlagLong_Some. by eexists.
  - split; [by intros [? ?] |]. intros Hall. exfalso.
    apply distinctNames_app_l, distinctNames_snoc in Hall as (_ & Hn & He).
    assert (Hsome : is_Some (FlagLong s o)) by (by apply FlagLong_Some).
    rewrite Hflag in Hsome. by destruct Hsome.
Qed.

Lemma visit_keeps (configs : list Config) :
  forall pw,
    setOptions (set (foldl (fun pw config => visit config pw) pw configs))
    = setOptions (set pw)
    /\ docs (foldl (fun pw config => visit config pw) pw configs) = docs pw
    /\ required (foldl (fun pw config => visit config pw) pw configs) = required pw.
Proof.
  induction configs as [|c configs IH]; intros pw; cbn [foldl]; [done |].
  destruct (IH (visit c pw)) as (-> & -> & ->).
  unfold visit. by repeat case_match.
Qed.

Lemma newParserWrapper_struct (typeName : string) (fields : list StructField)
    (configs : list Config) (pw : parserWrapper) :
  newParserWrapper (PointerToStruct typeName fields) configs = Val (inr pw)
  <-> exists parser,
        Forall fieldOk fields
        /\ flagAll getoptNew (fieldOptions 0 fields) = Some parser
        /\ pw = foldl (fun pw config => visit config pw)
                  {| set := parser; docs := docsOf ∅ (fieldOptions 0 fields);
                     pwPac := newPositionalArgumentsChecker;
                     required := requiredOf ∅ (fieldOptions 0 fields) |} configs.
Proof.
  unfold newParserWrapper. cbn [structFields]. split.
  - destruct (processFields 0 fields (getoptNew, ∅, ∅)) as [[e | [[ps ds] rs]] | c] eqn:Hrun;
      [done | | done].
    apply processFields_built in Hrun as (Hok & Hflag & -> & ->).
    intros H. simplify_eq. by exists ps.
  - intros (parser & Hok & Hflag & ->).
    by rewrite (proj2 (processFields_built fields 0 getoptNew ∅ ∅ parser _ _)
                  (conj Hok (conj Hflag (conj eq_refl eq_refl)))).
Qed.

Lemma processField_error (idx : nat) (f : StructField) (st : building) (e : error) :
  processField idx f st = Val (inl e) -> ~ fieldOk f /\ e = defect f.
Proof.
  clear. destruct st as [[parser ds] rs]. rewrite processField_unfold.
  unfold fieldOk, defect.
  destruct (String.eqb_spec (tagDoc f) "-") as [Hx | Hx]; [done |].
  destruct (String.eqb_spec (tagDoc f) "") as [He | He].
  { intros H. simplify_eq. split; [| done]. by intros [? | (? & _)]. }
  destruct (String.eqb_spec (tagShort f) "") as [Hs | Hs],
           (Nat.eqb_spec (String.length (tagShort f)) 1) as [Hl | Hl];
    cbn [negb andb];
    try (intros H; simplify_eq; split; [| done];
         by intros [? | (_ & [? | ?] & _)]).
  all: destruct (fieldExported f) eqn:Hexp; cbn [negb];
    [by destruct (FlagLong parser (fieldOption idx f)) |];
    intros H; simplify_eq; split; [| done]; by intros [? | (_ & _ & ?)].
Qed.

Lemma processFields_error (fields : list StructField) :
  forall idx st e,
    processFields idx fields st = Val (inl e) ->
    exists pre f post,
      fields = pre ++ f :: post /\ Forall fieldOk pre /\ ~ fieldOk f /\ e = defect f.
Proof.
  induction fields as [|f fields IH]; intros idx st e Hrun; cbn [processFields] in Hrun;
    [done |].
  destruct (processField idx f st) as [[e' | st'] | c] eqn:Hf; [| | done].
  - simplify_eq. apply processField_error in Hf as [Hno ->].
    exists [], f, fields. by repeat split.
  - destruct st as [[parser ds] rs].
    assert (Hok : fieldOk f).
    { apply processField_built in Hf as [[Hx _] | (_ & Hok & _)]; [by left | done]. }
    destruct (IH _ _ _ Hrun) as (pre & g & post & -> & Hpre & Hg & ->).
    exists (f :: pre), g, post. split; [done |]. split; [by constructor | done].
Qed.

(** X9. When a record can be turned into options. Unless the flat
    parser library ends the process at a registration,
    [newParserWrapper] returns a wrapper if and only if every field is
    excluded or is documented, exported and has no short tag or one of
    a single byte. A wrapper is returned only if the options of the
    fields that are not excluded each have a name, no two the same
    short name and no two the same long name. And an error returned is
    the one of the first field that is not well formed: missing
    documentation, then the short tag, then the private field. *)
Theorem record_builds_iff_well_formed (typeName : string) (fields : list StructField)
    (configs : list Config) :
  ((exists pw, newParserWrapper (PointerToStruct typeName fields) configs = Val (inr pw))
   <-> Forall fieldOk fields
       /\ forall c, newParserWrapper (PointerToStruct typeName fields) configs <> Crash c)
  /\ ((exists pw, newParserWrapper (PointerToStruct typeName fields) configs = Val (inr pw))
      -> distinctNames (fieldOptions 0 fields))
  /\ (forall e,
        newParserWrapper (PointerToStruct typeName fields) configs = Val (inl e) ->
        exists pre f post,
          fields = pre ++ f :: post /\ Forall fieldOk pre /\ ~ fieldOk f
          /\ e = defect f).
Proof.
  pose proof (flagAll_distinct (fieldOptions 0 fields) getoptNew distinctNames_nil)
    as Hdistinct.
  cbn [getoptNew setOptions app] in Hdistinct.
  assert (Herror : forall e,
            newParserWrapper (PointerToStruct typeName fields) configs = Val (inl e) ->
            exists pre f post,
              fields = pre ++ f :: post /\ Forall fieldOk pre /\ ~ fieldOk f
              /\ e = defect f).
  { intros e. unfold newParserWrapper. cbn [structFields].
    destruct (processFields 0 fields (getoptNew, ∅, ∅)) as [[e' | [[ps ds] rs]] | c] eqn:Hrun;
      [| done | done].
    intros H. simplify_eq. by eapply processFields_error. }
  split; [| split; [| done]].
  - split.
    + intros [pw Hpw]. split; [| intros c; by rewrite Hpw].
      by apply newParserWrapper_struct in Hpw as (parser & Hok & _).
    + intros [Hok Hlive].
      destruct (newParserWrapper (PointerToStruct typeName fields) configs)
        as [[e | pw] | c] eqn:Hrun.
      * exfalso. destruct (Herror e eq_refl) as (pre & f & post & -> & _ & Hno & _).
        apply Hno. apply Forall_app in Hok as [_ Hok]. by apply Forall_cons in Hok as [? _].
      * by eexists.
      * by destruct (Hlive c).
  - intros [pw Hpw]. apply newParserWrapper_struct in Hpw as (parser & _ & Hflag & _).
    apply Hdistinct. by eexists.
Qed.

Lemma fieldOptions_elem (fields : list StructField) :
  forall k o,
    o ∈ fieldOptions k fields
    <-> exists i f, fields !! i = Some f /\ tagDoc f <> "-"
                    /\ o = fieldOption (k + i) f.
Proof.
  induction fields as [|f fields IH]; intros k o; cbn [fieldOptions].
  { split; [by intros ?%elem_of_nil | by intros (i & g & ? & _)]. }
  assert (Hrest : o ∈ fieldOptions (S k) fields
                  <-> exists i g, (f :: fields) !! S i = Some g /\ tagDoc g <> "-"
                                  /\ o = fieldOption (k + S i) g).
  { rewrite IH. split; intros (i & g & Hi & Hg & ->); exists i, g;
      (split; [done |]); (split; [done |]); f_equal; lia. }
  destruct (String.eqb_spec (tagDoc f) "-") as [Hx | Hx].
  - rewrite Hrest. split.
    + intros (i & g & ?). by exists (S i), g.
    + intros ([|i] & g & Hi & Hg & Ho); [| by exists i, g].
      cbn in Hi. injection Hi as <-. contradiction.
  - rewrite elem_of_cons, Hrest. split.
    + intros [-> | (i & g & ?)]; [| by exists (S i), g].
      exists 0%nat, f. split; [done |]. split; [done |]. f_equal. lia.
    + intros ([|i] & g & Hi & Hg & Ho).
      * left. cbn in Hi. injection Hi as <-. rewrite Ho. f_equal. lia.
      * right. by exists i, g.
Qed.

Lemma docsOf_snoc (ds : gmap string string) (l : list getoptOption) (x : getoptOption) :
  docsOf ds (l ++ [x]) = <[optLong x := optHelpvalue x]> (docsOf ds l).
Proof. unfold docsOf. by rewrite foldl_snoc. Qed.

Lemma requiredOf_snoc (rs : gmap string bool) (l : list getoptOption) (x : getoptOption) :
  requiredOf rs (l ++ [x])
  = if optMandatory x then <[optLong x := true]> (requiredOf rs l) else requiredOf rs l.
Proof. unfold requiredOf. by rewrite foldl_snoc. Qed.

Lemma requiredOf_keys (l : list getoptOption) (k : string) :
  k ∉ optLong <$> l -> requiredOf ∅ l !! k = None.
Proof.
  induction l as [|x l IH] using rev_ind; intros Hk; [done |].
  rewrite fmap_app, not_elem_of_app in Hk. destruct Hk as [Hl Hx].
  rewrite requiredOf_snoc. destruct (optMandatory x); [| by apply IH].
  rewrite lookup_insert_ne; [by apply IH |].
  intros Heq. apply Hx. rewrite <- Heq. cbn. by left.
Qed.

Lemma registered_lookup (l : list getoptOption) :
  distinctNames l ->
  forall o, o ∈ l -> optLong o <> "" ->
    lookupDoc (docsOf ∅ l) (optLong o) = optHelpvalue o
    /\ lookupRequired (requiredOf ∅ l) (optLong o) = optMandatory o.
Proof.
  induction l as [|x l IH] using rev_ind; intros Hall o Hin Hlong;
    [by apply elem_of_nil in Hin |].
  apply distinctNames_snoc in Hall as (Hl & _ & Hfresh).
  apply existsb_sameName_false in Hfresh as [_ Hfresh].
  rewrite docsOf_snoc, requiredOf_snoc. unfold lookupDoc, lookupRequired.
  apply elem_of_app in Hin as [Hin | Hin].
  - assert (Hne : optLong x <> optLong o).
    { intros Heq. rewrite <- Heq in Hlong. apply (Hfresh Hlong).
      rewrite Heq. by apply list_elem_of_fmap_2. }
    destruct (IH Hl o Hin Hlong) as [Hdoc Hreq].
    rewrite lookup_insert_ne by done. split; [done |].
    destruct (optMandatory x); [by rewrite lookup_insert_ne |]. done.
  - apply list_elem_of_singleton in Hin as ->.
    rewrite lookup_insert_eq. split; [done |].
    destruct (optMandatory x); [by rewrite lookup_insert_eq |].
    by rewrite (requiredOf_keys l _ (Hfresh Hlong)).
Qed.

(** X10. What a record registers. When [newParserWrapper] returns a
    wrapper, whatever the configs, its options are those of the fields
    that are not excluded, one each and in the order of the fields: the
    field at index [i] gives the option bound to that very field whose
    long name is the kebab case of the field's name, whose short name is
    the byte of the short tag, that takes no value when the field is a
    [bool] or a [Counter] and that is mandatory when the tag says
    [true]. The two maps the help text is made from agree with the
    options: under each long name the doc tag of its own field, and the
    mandatory mark exactly for the mandatory options. *)
Theorem options_follow_the_fields (typeName : string) (fields : list StructField)
    (configs : list Config) (pw : parserWrapper) :
  newParserWrapper (PointerToStruct typeName fields) configs = Val (inr pw) ->
  setOptions (set pw) = fieldOptions 0 fields
  /\ (forall o, o ∈ setOptions (set pw)
                <-> exists i f, fields !! i = Some f /\ tagDoc f <> "-"
                                /\ o = fieldOption i f)
  /\ (forall o, o ∈ setOptions (set pw) -> optLong o <> "" ->
        lookupDoc (docs pw) (optLong o) = optHelpvalue o
        /\ lookupRequired (required pw) (optLong o) = optMandatory o).
Proof.
  intros Hpw. apply newParserWrapper_struct in Hpw as (parser & Hok & Hflag & ->).
  destruct (visit_keeps configs
              {| set := parser; docs := docsOf ∅ (fieldOptions 0 fields);
                 pwPac := newPositionalArgumentsChecker;
                 required := requiredOf ∅ (fieldOptions 0 fields) |})
    as (-> & -> & ->).
  cbn [set docs required].
  pose proof (flagAll_options _ _ _ Hflag) as (Hopts & _). cbn in Hopts.
  rewrite Hopts. split; [done |]. split.
  - intros o. by rewrite fieldOptions_elem.
  - apply registered_lookup.
    pose proof (flagAll_distinct (fieldOptions 0 fields) getoptNew distinctNames_nil)
      as Hdistinct.
    apply Hdistinct. by eexists.
Qed.

(** ** Whether a command has options *)

Lemma newParserWrapper_fields (flags : flagsValue) (configs : list Config)
    (pw : parserWrapper) :
  newParserWrapper flags configs = Val (inr pw) ->
  newParserWrapper (PointerToStruct "" (structFields flags)) configs = Val (inr pw).
Proof. by destruct flags. Qed.

Lemma fieldOptions_nil (fields : list StructField) :
  forall k, fieldOptions k fields = [] <-> Forall (fun f => tagDoc f = "-") fields.
Proof.
  clear.
  induction fields as [|f fields IH]; intros k; cbn [fieldOptions]; [done |].
  rewrite Forall_cons. destruct (String.eqb_spec (tagDoc f) "-") as [Hx | Hx].
  - rewrite IH. tauto.
  - split; [done | tauto].
Qed.

Lemma docsOf_nonempty (l : list getoptOption) :
  forall ds, ds <> ∅ -> docsOf ds l <> ∅.
Proof.
  induction l as [|x l IH]; intros ds Hds; [done |].
  apply IH, insert_non_empty.
Qed.

Lemma docsOf_empty (l : list getoptOption) : docsOf ∅ l = ∅ <-> l = [].
Proof.
  destruct l as [|x l]; [done |]. split; [| done].
  change (docsOf ∅ (x :: l)) with (docsOf (<[optLong x := optHelpvalue x]> ∅) l).
  intros H. exfalso. revert H. apply docsOf_nonempty, insert_non_empty.
Qed.

(** X11. The usage line shows [[options]] after a command exactly when
    the command has options of its own: [hasOptions] answers [true] if
    and only if the record of the node can be turned into options and
    has a field that is not excluded. The help option that [getoptall]
    adds to every node does not count, and a record that cannot be
    turned into options counts as one without options. *)
Theorem options_shown_iff_own_options (p : CommandParser) :
  hasOptions p = Val true
  <-> (exists pw, newParserWrapper (options p) [] = Val (inr pw))
      /\ exists f, f ∈ structFields (options p) /\ tagDoc f <> "-".
Proof.
  unfold hasOptions.
  destruct (newParserWrapper (options p) []) as [[e | pw] | c] eqn:Hbuilt.
  - split; [done | by intros [[? ?] _]].
  - apply newParserWrapper_fields, newParserWrapper_struct in Hbuilt
      as (parser & _ & _ & ->).
    cbn [foldl]. unfold numOptions. cbn [docs].
    assert (Hnone : Forall (fun f => tagDoc f = "-") (structFields (options p))
                    <-> ~ exists f, f ∈ structFields (options p) /\ tagDoc f <> "-").
    { rewrite Forall_forall. split.
      - intros Hall (f & Hin & Hf). by apply Hf, Hall.
      - intros Hno f Hin. destruct (decide (tagDoc f = "-")); [done |].
        exfalso. apply Hno. by exists f. }
    destruct (decide (fieldOptions 0 (structFields (options p)) = [])) as [Hnil | Hsome].
    + rewrite Hnil. cbn. split; [done |]. intros [_ Hf].
      by apply fieldOptions_nil, Hnone in Hnil.
    + assert (Hsize : size (docsOf ∅ (fieldOptions 0 (structFields (options p)))) <> 0%nat).
      { apply map_size_non_empty_iff. by rewrite docsOf_empty. }
      replace (0 <? _)%Z with true by (symmetry; apply Z.ltb_lt; lia).
      split; [| done]. intros _. split; [by eexists |].
      rewrite fieldOptions_nil in Hsome.
      apply not_Forall_Exists in Hsome; [| apply _].
      apply Exists_exists in Hsome as (f & Hin & Hf). by exists f.
  - split; [done | by intros [[? ?] _]].
Qed.

(** ** The wrapper of a node *)

Lemma newParserWrapper_configs_eq (flags : flagsValue) (configs : list Config) :
  newParserWrapper flags configs
  = match newParserWrapper flags [] with
    | Val (inr pw) => Val (inr (foldl (fun pw config => visit config pw) pw configs))
    | other => other
    end.
Proof.
  unfold newParserWrapper.
  destruct flags; try done;
    by destruct (processFields _ _ _) as [[e | [[ps ds] rs]] | c].
Qed.

Lemma fieldOptions_unbound (fields : list StructField) :
  forall k,
    existsb (fun o => match optTarget o with BoundHelp => true | _ => false end)
      (fieldOptions k fields) = false.
Proof.
  induction fields as [|f fields IH]; intros k; cbn [fieldOptions]; [done |].
  destruct (String.eqb (tagDoc f) "-"); [apply IH |]. cbn. apply IH.
Qed.

Lemma newParserWrapper_plain (flags : flagsValue) (pw0 : parserWrapper) :
  newParserWrapper flags [] = Val (inr pw0) ->
  pwPac pw0 = newPositionalArgumentsChecker /\ helpBound pw0 = false.
Proof.
  intros H. apply newParserWrapper_fields, newParserWrapper_struct in H
    as (parser & _ & Hflag & ->).
  cbn [foldl]. split; [done |]. unfold helpBound. cbn [set].
  apply flagAll_options in Hflag as (-> & _). apply fieldOptions_unbound.
Qed.

Lemma existsb_sameName_helpOption (l : list getoptOption) :
  existsb (sameName helpOption) l = existsb isHelpOption l.
Proof.
  induction l as [|o l IH]; [done |]. cbn [existsb]. by rewrite IH, sameName_helpOption.
Qed.

Lemma maybeAddHelpFlags_spec (pw : parserWrapper) :
  maybeAddHelpFlags pw
  = if existsb isHelpOption (setOptions (set pw)) then Val (false, pw)
    else Val (true,
              {| set := {| setOptions := setOptions (set pw) ++ [helpOption];
                           setProgram := setProgram (set pw);
                           setParameters := setParameters (set pw);
                           setArgs := setArgs (set pw) |};
                 docs := <["help" := helpDoc]> (docs pw);
                 pwPac := pwPac pw; required := required pw |}).
Proof.
  unfold maybeAddHelpFlags. rewrite (existsb_Permutation _ _ _ (VisitAll_all _)).
  destruct (existsb isHelpOption (setOptions (set pw))) eqn:Hfound; [done |].
  unfold FlagLong. cbn [helpOption optShort optLong Z.eqb andb].
  by rewrite existsb_sameName_helpOption, Hfound.
Qed.

(** X12. The wrapper [getoptall] builds for a node. Registering the
    help option never ends the process and never fails: the node's
    wrapper fails, or ends the process, exactly as
    [newParserWrapper] does on the node's record alone. The wrapper
    built always answers to [-h] or [--help]; the option the package
    adds, bound to the node's help cell, comes after the options of the
    record, and it is there exactly when no option of the record
    answers to [-h] or [--help]; and the wrapper's own policy accepts
    any number of arguments. *)
Theorem node_wrapper_answers_to_help (p : CommandParser) (chain : list CommandParser) :
  (forall c, cpNewParserWrapper p chain = Crash c
             <-> newParserWrapper (options p) [] = Crash c)
  /\ (forall err, cpNewParserWrapper p chain = Val (inl err, fullcmd chain)
                  <-> newParserWrapper (options p) [] = Val (inl err))
  /\ (forall parser full,
        cpNewParserWrapper p chain = Val (inr parser, full) ->
        exists pw0,
          newParserWrapper (options p) [] = Val (inr pw0)
          /\ existsb isHelpOption (setOptions (set parser)) = true
          /\ helpBound parser = negb (existsb isHelpOption (setOptions (set pw0)))
          /\ setOptions (set parser)
             = setOptions (set pw0) ++ (if helpBound parser then [helpOption] else [])
          /\ pwPac parser = newPositionalArgumentsChecker).
Proof.
  unfold cpNewParserWrapper. rewrite newParserWrapper_configs_eq.
  destruct (newParserWrapper (options p) []) as [[e | pw0] | c0] eqn:Hbuilt.
  - split; [done |]. split; [| done]. intros err. split; intros H; by simplify_eq.
  - set (pw1 := foldl _ pw0 _).
    destruct (newParserWrapper_plain _ _ Hbuilt) as [Hpac Hunbound].
    assert (Hopts : setOptions (set pw1) = setOptions (set pw0)).
    { subst pw1. by destruct (visit_keeps
        [SetPositionalArgumentsPlaceholder (positionalArgumentsPlaceholder p);
         SetProgramName (fullcmd chain)] pw0) as (-> & _). }
    assert (Hpac1 : pwPac pw1 = newPositionalArgumentsChecker).
    { subst pw1. cbn [foldl].
      unfold visit, SetPositionalArgumentsPlaceholder, SetProgramName.
      by repeat case_match. }
    rewrite maybeAddHelpFlags_spec, Hopts.
    destruct (existsb isHelpOption (setOptions (set pw0))) eqn:Hfound.
    + split; [done |]. split; [done |]. intros parser full H.
      injection H as <- <-.
      exists pw0. split; [done |]. rewrite Hopts.
      assert (Hb : helpBound pw1 = false) by (unfold helpBound in *; by rewrite Hopts).
      by rewrite Hb, app_nil_r, Hfound.
    + split; [done |]. split; [done |]. intros parser full H.
      injection H as <- <-.
      exists pw0. split; [done |]. unfold helpBound in *. cbn [set setOptions].
      rewrite !existsb_app, Hfound, Hunbound. done.
  - split; [| done]. intros c. split; intros H; by simplify_eq.
Qed.

(** ** The policy of a leaf *)

Lemma applyLeafConfig_ignored (config : list Config) :
  Forall (fun c => isPolicy c = false) config ->
  forall p, foldl applyLeafConfig p config = p.
Proof.
  induction 1 as [|c config Hc _ IH]; intros p; cbn [foldl]; [done |].
  rewrite <- (IH p) at 2. f_equal. by destruct c.
Qed.

Lemma applyLeafConfig_fields (config : list Config) :
  forall p, exists c,
    foldl applyLeafConfig p config
    = mkCommandParser (description p) (help p) (name p) (options p) c (subcommands p).
Proof.
  induction config as [|e config IH]; intros p; cbn [foldl].
  - exists (pac p). by destruct p.
  - destruct (IH (applyLeafConfig p e)) as [c ->]. exists c. by destruct e.
Qed.

Lemma visit_ignored (config : list Config) :
  Forall (fun c => isPolicy c = false) config ->
  forall pw, pwPac (foldl (fun pw config => visit config pw) pw config) = pwPac pw.
Proof.
  induction 1 as [|c config Hc _ IH]; intros pw; cbn [foldl]; [done |].
  rewrite IH. destruct c; try done; unfold visit; by case_match.
Qed.

(** X13. Of the positional-argument configs passed to a constructor the
    last one decides. The node [LeafSubcommand] returns is a leaf with
    the given name, description and record whose policy is that of the
    last such config, whatever comes before it; pieces of any other
    kind leave no trace in it, and without such a config the node is
    the one [Subcommand] builds without children. The wrapper of
    [newParserWrapper] likewise has the policy of the last such
    config, and the policy that accepts everything when there is
    none. *)
Theorem last_policy_wins (n d : string) (o : flagsValue) (before after : list Config)
    (lo hi : Z) :
  Forall (fun c => isPolicy c = false) after ->
  LeafSubcommand n d o (before ++ minMaxPositionalArguments lo hi :: after)
  = mkCommandParser d false n o {| minArgs := lo; maxArgs := hi |} []
  /\ LeafSubcommand n d o after = Subcommand n d o []
  /\ (forall pw,
        newParserWrapper o (before ++ minMaxPositionalArguments lo hi :: after)
        = Val (inr pw) ->
        pwPac pw = {| minArgs := lo; maxArgs := hi |})
  /\ (forall pw, newParserWrapper o after = Val (inr pw) ->
        pwPac pw = newPositionalArgumentsChecker).
Proof.
  intros Hafter. split; [| split; [| split]].
  - unfold LeafSubcommand. rewrite foldl_app. cbn [foldl].
    rewrite (applyLeafConfig_ignored _ Hafter).
    by destruct (applyLeafConfig_fields before (Subcommand n d o [])) as [c ->].
  - unfold LeafSubcommand. by apply applyLeafConfig_ignored.
  - intros pw. rewrite newParserWrapper_configs_eq.
    destruct (newParserWrapper o []) as [[e | pw0] | c]; [done | | done].
    intros H. simplify_eq. rewrite foldl_app. cbn [foldl].
    by rewrite (visit_ignored _ Hafter).
  - intros pw. rewrite newParserWrapper_configs_eq.
    destruct (newParserWrapper o []) as [[e | pw0] | c] eqn:Hbuilt; [done | | done].
    intros H. simplify_eq. rewrite (visit_ignored _ Hafter).
    by destruct (newParserWrapper_plain _ _ Hbuilt).
Qed.

(** ** Walks that only meet names *)

Lemma setHelp_same (p : CommandParser) : setHelp p (help p) = p.
Proof. by destruct p. Qed.

Lemma setSubcommands_same (p : CommandParser) : setSubcommands p (subcommands p) = p.
Proof. by destruct p. Qed.

Lemma length_tail_le {A} (l : list A) : (length (tail l) <= length l)%nat.
Proof. destruct l; cbn; lia. Qed.

Lemma routed_getoptall p chain args leaf residual :
  routed p chain args leaf residual ->
  chain <> [] ->
  isCount (Z.of_nat (length args)) ->
  forall w,
    getoptall p chain args w
    = match check (pac leaf) (Z.of_nat (length residual)) with
      | Some err =>
          (Val (inl (fmtErrorf (cmdOf chain +:+ ": for command " +:+ name leaf +:+ ": "
                                +:+ Error err) err), p), w)
      | None => (Val (inr {| scOptions := options leaf; scArgs := residual |}, p), w)
      end.
Proof.
  induction 1 as [p chain args Hleaf Hhelp Hscan
                 | p chain args subcmd rest i sc leaf residual Hhelp Hscan Hargs Hfind _ IH];
    intros Hne Hcount w.
  - destruct (scanAt_stopped_parsed p chain args Hne Hscan) as (parser & Hparsed & Hrest).
    { pose proof (length_tail_le args). unfold isCount in *. lia. }
    rewrite (getoptall_leaf _ _ _ _ _ w Hparsed Hhelp Hleaf).
    unfold NArgs. by rewrite Hrest.
  - destruct (scanAt_stopped_parsed p chain args Hne Hscan) as (parser & Hparsed & Hrest).
    { pose proof (length_tail_le args). unfold isCount in *. lia. }
    rewrite (getoptall_parsed _ _ _ _ _ w Hparsed). unfold afterParse.
    rewrite Hhelp, Hrest, Hargs.
    assert (Hkids : (length (subcommands p) <=? 0)%nat = false).
    { unfold findSubcommand in Hfind. by destruct (subcommands p). }
    rewrite Hkids. unfold NArgs. rewrite Hrest, Hargs. cbn [length hd].
    replace (Z.of_nat (S (length rest)) <=? 0)%Z with false
      by (symmetry; apply Z.leb_gt; lia).
    rewrite Hfind. unfold bind. rewrite IH.
    + rewrite (cmdOf_app chain [sc] Hne).
      apply findSubcommand_Some in Hfind as (Hi & _).
      destruct (check (pac leaf) (Z.of_nat (length residual))); unfold ret; cbn [fst snd];
        by rewrite (list_insert_id _ _ _ Hi), setSubcommands_same.
    + by destruct chain.
    + pose proof (length_tail_le args) as Hle. rewrite Hargs in Hle.
      unfold isCount in *. lia.
Qed.

Lemma routed_leaf_of p chain args leaf residual :
  routed p chain args leaf residual ->
  subcommands leaf = [] /\ options leaf ∈ leafOptions p /\ residual `suffix_of` args.
Proof.
  induction 1 as [p chain args Hleaf Hhelp Hscan
                 | p chain args subcmd rest i sc leaf residual Hhelp Hscan Hargs Hfind _ IH].
  - split; [done |]. split; [| apply suffix_tail].
    rewrite leafOptions_unfold, Hleaf. by left.
  - destruct IH as (Hleaf & Hin & Hsuffix). split; [done |]. split.
    + apply findSubcommand_Some in Hfind as (_ & _ & Hsc).
      by eapply leafOptions_child.
    + etrans; [exact Hsuffix |]. rewrite <- Hargs. apply suffix_tail.
Qed.

(** X14. A command line of names leads to the leaf it names. When the
    walk from the root along the names after the program name meets
    clear help cells and scans that take every argument for a
    positional one, and ends at a leaf with some arguments left, then
    [Getopt] on that command line comes to that very leaf: it returns
    the leaf's record with exactly the arguments left when the leaf's
    policy accepts their number, and the leaf's wrapped count error
    when it does not; in both cases it prints nothing and leaves the
    tree as it was. The command line is not empty and is one a Go
    slice can hold; the leaf is not the internal help leaf. *)
Theorem names_lead_to_their_leaf (p : CommandParser) (args : list string)
    (leaf : CommandParser) (residual : list string) (w : World) (fuel : nat) :
  routed p [p] args leaf residual ->
  args <> [] ->
  isCount (Z.of_nat (length args)) ->
  options leaf <> PointerToSubcommandHelp ->
  Getopt (S fuel) p args w
  = Some (match check (pac leaf) (Z.of_nat (length residual)) with
          | Some err =>
              (Val (inl (fmtErrorf (name p +:+ ": for command " +:+ name leaf +:+ ": "
                                    +:+ Error err) err), p), w)
          | None => (Val (inr {| scOptions := options leaf; scArgs := residual |}, p), w)
          end)
  /\ subcommands leaf = []
  /\ options leaf ∈ leafOptions p
  /\ residual `suffix_of` args.
Proof.
  intros Hrouted Hargs Hcount Hleaf. split; [| by eapply routed_leaf_of].
  cbn [Getopt]. replace (length args <? 1)%nat with false by (by destruct args).
  rewrite (routed_getoptall _ _ _ _ _ Hrouted) by done. cbn [cmdOf].
  destruct (check (pac leaf) (Z.of_nat (length residual))); [done |].
  cbn [scOptions]. by destruct (options leaf).
Qed.

(** ** A help cell that is set *)

Lemma scanAt_builds (p : CommandParser) (chain : list CommandParser) (args : list string)
    (r : scanned) :
  scanAt p chain args = Some r -> builds p.
Proof.
  unfold scanAt.
  destruct (cpNewParserWrapper p chain) as [[[e | parser0] full] | c] eqn:Hbuilt; try done.
  intros _. by eapply cpNewParserWrapper_built.
Qed.


Lemma pwGetopt_clean (parser0 : parserWrapper) (args : list string) :
  pwPac parser0 = newPositionalArgumentsChecker ->
  isCount (Z.of_nat (length args)) ->
  scanError (SetGetopt (set parser0) args) = None ->
  exists parser,
    pwGetopt parser0 args = (None, parser, scanHelp (SetGetopt (set parser0) args))
    /\ helpBound parser = helpBound parser0
    /\ Args parser = drop (S (scanConsumed (SetGetopt (set parser0) args))) args.
Proof.
  intros Hpac Hcount Hclean. unfold pwGetopt. rewrite Hclean. cbn [pwPac]. rewrite Hpac.
  unfold NArgs, Args. cbn [set setArgs].
  set (n := scanConsumed _).
  pose proof (length_drop args (S n)) as Hlen.
  destruct (check_cases newPositionalArgumentsChecker
              (Z.of_nat (length (drop (S n) args))))
    as [[Hlt _] | [(_ & Hgt & _) | [_ Hok]]].
  - cbn in Hlt. lia.
  - unfold newPositionalArgumentsChecker in Hgt. cbn [maxArgs] in Hgt.
    unfold isCount in Hcount. lia.
  - rewrite Hok. by eexists.
Qed.

(** X15. A help cell that is set overrides the command line. The cell
    of a node is only ever cleared by a scan that writes [false] to it,
    never by [getoptall]: on a root whose cell is set (as the [--help]
    of an earlier call leaves it), a later call whose scan is clean
    and does not write [false] prints the help of the root, the text
    [printHelp] renders for the root alone, which no argument bears
    on, prints nothing else, returns the help sentinel and leaves the
    cell set. *)
Theorem set_help_cell_overrides (p : CommandParser) (args : list string)
    (r : scanned) (w : World) (fuel : nat) :
  help p = true ->
  args <> [] ->
  isCount (Z.of_nat (length args)) ->
  scanAt p [p] args = Some r ->
  scanError r = None ->
  scanHelp r <> Some false ->
  printHelp p [p] w = (Val tt, addStdout w (helpText p [p]))
  /\ Getopt (S fuel) p args w
     = Some (Val (inr printedHelp, p), addStdout w (helpText p [p])).
Proof.
  intros Hhelp Hargs Hcount Hscan Hclean Hwrote.
  assert (Hchain : Forall builds [p]).
  { constructor; [| constructor]. by eapply scanAt_builds. }
  pose proof (printHelp_spec p [p] Hchain w) as Htext. split; [done |].
  unfold scanAt in Hscan.
  destruct (cpNewParserWrapper p [p]) as [[[e | parser0] full] | c] eqn:Hbuilt; try done.
  injection Hscan as Hscan.
  destruct (pwGetopt_clean parser0 args (cpNewParserWrapper_pac _ _ _ _ Hbuilt) Hcount)
    as (parser & Hget & _); [by rewrite Hscan |].
  rewrite Hscan in Hget.
  assert (Hsame : setHelp p (helpAfter p parser (scanHelp r)) = p).
  { rewrite <- (setHelp_same p) at 3. f_equal. unfold helpAfter. rewrite Hhelp.
    destruct (helpBound parser); [| done]. by destruct (scanHelp r) as [[] |]. }
  cbn [Getopt]. replace (length args <? 1)%nat with false by (by destruct args).
  rewrite getoptall_unfold, Hbuilt, Hget. cbv zeta. rewrite Hsame.
  unfold afterParse. rewrite Hhelp. unfold bind. by rewrite Htext.
Qed.

(** ** The counter *)

Lemma wrapInt_small (n : Z) : MinInt <= n <= MaxInt -> wrapInt n = n.
Proof.
  unfold MinInt, MaxInt, wrapInt. intros Hn. rewrite Z.mod_small; lia.
Qed.

Lemma wrapInt_succ (n : Z) : wrapInt (wrapInt n + 1) = wrapInt (n + 1).
Proof.
  unfold wrapInt.
  replace ((n + 2 ^ 63) mod 2 ^ 64 - 2 ^ 63 + 1 + 2 ^ 63)
    with ((n + 2 ^ 63) mod 2 ^ 64 + 1) by lia.
  rewrite Z.add_mod_idemp_l by lia. f_equal. f_equal. lia.
Qed.

Lemma CounterSetAll_bare (n : nat) :
  forall b, CounterSetAll (wrapInt b) (replicate n "")
            = (None, wrapInt (b + Z.of_nat n)).
Proof.
  induction n as [|n IH]; intros b; cbn [replicate CounterSetAll].
  { by rewrite Z.add_0_r. }
  unfold CounterSet. cbn [String.eqb]. rewrite wrapInt_succ, IH. do 2 f_equal. lia.
Qed.

(** X16. A counter counts. From a counter that holds [b], [n]
    occurrences of the option without a value leave [b + n], wrapped
    around as a Go [int] does, and that is [b + n] itself while it does
    not exceed the largest [int]; an occurrence with a value that
    parses sets the counter to that value, from which later
    occurrences count on; an occurrence with a value that does not
    parse returns an error that quotes the value and leaves the counter
    as it was. *)
Theorem counter_counts (b : Z) (n : nat) (value : string) :
  MinInt <= b <= MaxInt ->
  value <> "" ->
  CounterSetAll b (replicate n "") = (None, wrapInt (b + Z.of_nat n))
  /\ (b + Z.of_nat n <= MaxInt -> CounterSetAll b (replicate n "") = (None, b + Z.of_nat n))
  /\ (forall val, ParseInt value = inr val -> MinInt <= val <= MaxInt ->
        CounterSetAll b (value :: replicate n "") = (None, wrapInt (val + Z.of_nat n)))
  /\ (forall e, ParseInt value = inl e ->
        forall rest,
          CounterSetAll b (value :: rest)
          = (Some (errorsNew ((match e with
                               | ErrRange => "value out of range: "
                               | ErrSyntax => "not a valid number: "
                               end) +:+ value)), b)).
Proof.
  intros Hb Hvalue.
  assert (Hbare : CounterSetAll b (replicate n "") = (None, wrapInt (b + Z.of_nat n))).
  { rewrite <- (wrapInt_small b Hb) at 1. apply CounterSetAll_bare. }
  assert (Hne : String.eqb value "" = false) by (by apply String.eqb_neq).
  split; [done |]. split; [| split].
  - intros Hmax. rewrite Hbare, wrapInt_small; [done | lia].
  - intros val Hparse Hval. cbn [CounterSetAll]. unfold CounterSet.
    rewrite Hne, Hparse, <- (wrapInt_small val Hval) at 1. apply CounterSetAll_bare.
  - intros e Hparse rest. cbn [CounterSetAll]. unfold CounterSet.
    rewrite Hne, Hparse. by destruct e.
Qed.

(** ** How a resolution ends the process *)

Lemma returnsValue_ret {A} (a : A) : returnsValue (ret a).
Proof. intros w. by eexists _, _. Qed.

Lemma returnsValue_print (text : string) : returnsValue (print text).
Proof. intros w. by eexists _, _. Qed.

Lemma returnsValue_bind {A B} (m : M A) (k : A -> M B) :
  returnsValue m -> (forall a, returnsValue (k a)) -> returnsValue (bind m k).
Proof.
  intros Hm Hk w. destruct (Hm w) as (a & w1 & Hrun). unfold bind. rewrite Hrun.
  apply Hk.
Qed.

Lemma returnsValue_forEach {A} (l : list A) (body : A -> M unit) :
  Forall (fun x => returnsValue (body x)) l -> returnsValue (forEach l body).
Proof.
  induction 1 as [|x l Hx _ IH]; cbn [forEach]; [apply returnsValue_ret |].
  apply returnsValue_bind; [done | by intros _].
Qed.

Lemma returnsValue_writes (m : M unit) (text : string) : writes m text -> returnsValue m.
Proof. intros Hm w. rewrite Hm. by eexists _, _. Qed.

Lemma printHelp_returns (p1 : CommandParser) (chain : list CommandParser) :
  Forall (fun e => exists r, newParserWrapper (options e) [] = Val r) chain ->
  returnsValue (printHelp p1 chain).
Proof.
  intros Hchain. unfold printHelp.
  apply returnsValue_bind; [| intros _; apply returnsValue_bind; [| intros _;
    apply returnsValue_bind; [| intros _]]].
  - unfold printBriefUsage.
    apply returnsValue_bind; [| intros entries; apply returnsValue_print].
    induction Hchain as [|e chain [r He] _ IH]; cbn [usageEntries];
      [apply returnsValue_ret |].
    apply returnsValue_bind.
    + intros w. unfold lift, hasOptions. rewrite He. destruct r; by eexists _, _.
    + intros has. apply returnsValue_bind; [done |]. intros more. apply returnsValue_ret.
  - unfold printSubcommandDescription.
    apply returnsValue_bind; [apply returnsValue_print | intros _].
    apply returnsValue_bind; [| intros _; apply returnsValue_print].
    apply returnsValue_forEach, Forall_forall. intros line _. apply returnsValue_print.
  - unfold printOptions. apply returnsValue_forEach.
    eapply Forall_impl; [exact Hchain |]. intros e [r He]. cbn beta.
    apply returnsValue_bind.
    + intros w. unfold lift. rewrite He. by eexists _, _.
    + intros [err | parser]; [apply returnsValue_ret |].
      destruct (numOptions parser <=? 0)%Z; [apply returnsValue_ret |].
      apply returnsValue_bind; [apply returnsValue_print | intros _].
      destruct (pwPrintOptions_writes parser) as [text Htext].
      by eapply returnsValue_writes.
  - intros w. rewrite printSubcommands_spec. by eexists _, _.
Qed.

Lemma cpNewParserWrapper_crash (p : CommandParser) (chain : list CommandParser)
    (c : crash) :
  cpNewParserWrapper p chain = Crash c -> newParserWrapper (options p) [] = Crash c.
Proof.
  unfold cpNewParserWrapper. rewrite newParserWrapper_configs_eq.
  destruct (newParserWrapper (options p) []) as [[e | pw0] | c0];
    [done | | intros H; by simplify_eq].
  rewrite maybeAddHelpFlags_spec. by destruct (existsb isHelpOption _).
Qed.

Lemma allOptions_unfold (p : CommandParser) :
  allOptions p = options p :: flat_map allOptions (subcommands p).
Proof. by destruct p. Qed.

Lemma allOptions_child (p sc : CommandParser) :
  sc ∈ subcommands p -> allOptions sc ⊆ allOptions p.
Proof.
  intros Hin o Ho. rewrite (allOptions_unfold p). right.
  apply list_elem_of_In, in_flat_map. exists sc. by split; apply list_elem_of_In.
Qed.

Lemma allOptions_shape (p : CommandParser) : allOptions (shape p) = allOptions p.
Proof.
  induction p as [d h n o c subs IH] using CommandParser_tree_ind.
  cbn [shape allOptions]. f_equal.
  induction IH as [|x l Hx _ IHl]; [done |]. cbn [map flat_map]. by rewrite Hx, IHl.
Qed.

(** A call of [getoptall] ends the process only where the record of a
    node it reaches makes [newParserWrapper] do so; the records of the
    nodes of the chain above were built on the way down. *)
Lemma getoptall_crash (p : CommandParser) :
  forall chain args w c w',
    chain <> [] ->
    (forall e, e ∈ chain ->
       options e = options p \/ exists r, newParserWrapper (options e) [] = Val r) ->
    getoptall p chain args w = (Crash c, w') ->
    exists o, o ∈ allOptions p /\ newParserWrapper o [] = Crash c.
Proof.
  induction p as [d h n o c0 subs IHsubs] using CommandParser_tree_ind.
  intros chain args w c w' Hne Hchain Hrun.
  set (p := mkCommandParser d h n o c0 subs) in *.
  rewrite getoptall_unfold in Hrun.
  destruct chain as [|top more] eqn:Hc; [done |]. rewrite <- Hc in *. clear Hc.
  destruct (cpNewParserWrapper p chain) as [[[err | parser0] full] | cr] eqn:Hbuilt.
  { unfold bind in Hrun. by rewrite eprint_spec in Hrun. }
  2: { simplify_eq. exists o. split; [by left |].
       by apply cpNewParserWrapper_crash in Hbuilt. }
  destruct (cpNewParserWrapper_built _ _ _ _ Hbuilt) as [pw0 Hpw0].
  assert (Hall : Forall (fun e => exists r, newParserWrapper (options e) [] = Val r) chain).
  { apply Forall_forall. intros e He. destruct (Hchain e He) as [-> | Hr]; [| done].
    by eexists. }
  destruct (pwGetopt parser0 args) as [[err parser] wrote] eqn:Hscan.
  destruct err as [err |].
  { unfold bind in Hrun. by rewrite eprint_spec in Hrun. }
  cbv zeta in Hrun.
  set (p1 := setHelp p (helpAfter p parser wrote)) in *.
  assert (Hhelp : forall k : error + SelectedCommand,
            (printHelp p1 chain ;; ret (k, p1)) w <> (Crash c, w')).
  { intros k. unfold bind.
    destruct (printHelp_returns p1 chain Hall w) as ([] & w1 & ->). done. }
  unfold afterParse in Hrun.
  change (subcommands p1) with subs in Hrun.
  destruct (help p1); [by apply Hhelp in Hrun |].
  destruct (length subs <=? 0)%nat.
  { by destruct (check (pac p1) (NArgs parser)). }
  destruct (NArgs parser <=? 0)%Z.
  { destruct (length chain <? 2)%nat; [by apply Hhelp in Hrun |].
    unfold bind in Hrun. by rewrite eprint_spec in Hrun. }
  destruct (findSubcommand (hd "" (Args parser)) subs) as [[i sc] |] eqn:Hfind.
  2: { unfold bind in Hrun. by rewrite eprint_spec in Hrun. }
  unfold bind in Hrun.
  destruct (getoptall sc (chain ++ [sc]) (Args parser) w) as [[r | cr] w1] eqn:Hchild;
    [done |].
  simplify_eq.
  apply findSubcommand_Some in Hfind as (_ & _ & Hin).
  rewrite Forall_forall in IHsubs.
  assert (Hchain' : forall e, e ∈ chain ++ [sc] ->
            options e = options sc \/ exists r, newParserWrapper (options e) [] = Val r).
  { intros e He. apply elem_of_app in He as [He | He].
    - right. rewrite Forall_forall in Hall. by apply Hall.
    - apply list_elem_of_singleton in He as ->. by left. }
  assert (Hne' : chain ++ [sc] <> []) by (by destruct chain).
  destruct (IHsubs sc Hin _ _ _ _ _ Hne' Hchain' Hchild) as (o' & Ho' & Hcrash).
  exists o'. split; [| done]. by eapply (allOptions_child p).
Qed.

Lemma FlagLong_None (s : getoptSet) (o : getoptOption) :
  FlagLong s o = None -> ~ distinctNames (setOptions s ++ [o]).
Proof.
  intros Hflag Hall. apply distinctNames_snoc in Hall as (_ & Hn & He).
  assert (Hsome : is_Some (FlagLong s o)) by (by apply FlagLong_Some).
  rewrite Hflag in Hsome. by destruct Hsome.
Qed.

Lemma processFields_crash (fields : list StructField) :
  forall idx parser ds rs c,
    distinctNames (setOptions parser) ->
    processFields idx fields (parser, ds, rs) = Crash c ->
    c = LibraryExit /\ ~ distinctNames (setOptions parser ++ fieldOptions idx fields).
Proof.
  induction fields as [|f fields IH]; intros idx parser ds rs c Hacc Hrun;
    cbn [processFields fieldOptions] in *; [done |].
  rewrite processField_unfold in Hrun.
  destruct (String.eqb (tagDoc f) "-"); [by eapply IH |].
  destruct (String.eqb (tagDoc f) ""); [done |].
  destruct (negb (String.eqb (tagShort f) "") && _); [done |].
  destruct (negb (fieldExported f)); [done |].
  destruct (FlagLong parser (fieldOption idx f)) as [s1 |] eqn:Hflag.
  - apply FlagLong_options in Hflag as Hopts. destruct Hopts as (Hopts & _).
    assert (Hacc1 : distinctNames (setOptions s1)).
    { rewrite Hopts. apply distinctNames_snoc. split; [done |].
      apply FlagLong_Some. by eexists. }
    destruct (IH _ _ _ _ _ Hacc1 Hrun) as [-> Hno]. split; [done |].
    by rewrite Hopts, <- app_assoc in Hno.
  - simplify_eq. split; [done |]. intros Hall. apply (FlagLong_None _ _ Hflag).
    apply (distinctNames_app_l _ (fieldOptions (S idx) fields)). by rewrite <- app_assoc.
Qed.

Lemma newParserWrapper_crash (flags : flagsValue) (configs : list Config) (c : crash) :
  newParserWrapper flags configs = Crash c ->
  c = LibraryExit /\ ~ distinctNames (fieldOptions 0 (structFields flags)).
Proof.
  unfold newParserWrapper. intros H.
  assert (Hrun : processFields 0 (structFields flags) (getoptNew, ∅, ∅) = Crash c).
  { destruct flags; try done;
      by destruct (processFields _ _ _) as [[e | [[ps ds] rs]] | c1]; simplify_eq. }
  by apply processFields_crash in Hrun; [| apply distinctNames_nil].
Qed.

Lemma Getopt_crash (fuel : nat) :
  forall p args w c w',
    Getopt fuel p args w = Some (Crash c, w') ->
    exists o, o ∈ allOptions p /\ newParserWrapper o [] = Crash c.
Proof.
  induction fuel as [|fuel IH]; intros p args w c w' Hrun; [done |].
  cbn [Getopt] in Hrun. destruct (length args <? 1)%nat; [done |].
  destruct (getoptall p [p] args w) as [[[[err | sc] p1] | cr] w1] eqn:Hwalk.
  - done.
  - destruct (isSubcommandHelp (scOptions sc)); [| done].
    apply getoptall_walk, walk_shape in Hwalk.
    apply IH in Hrun as (o & Ho & Hcrash). exists o. split; [| done].
    by rewrite <- (allOptions_shape p1), Hwalk, allOptions_shape in Ho.
  - simplify_eq. eapply getoptall_crash; [| | exact Hwalk]; [done |].
    intros e He. apply list_elem_of_singleton in He as ->. by left.
Qed.

(** X17. The panic of [getoptall] is out of reach of [Getopt].
    [getoptall] panics when it is called with an empty chain; [Getopt]
    calls it with the chain of the root alone, and a call of
    [getoptall] to itself extends the chain it was given: whatever
    ends the process under [Getopt], it is not that panic. *)
Theorem empty_chain_panic_unreachable (p : CommandParser) (args : list string)
    (w : World) :
  getoptall p [] args w = (Crash (Panic "called with zero length chain"), w)
  /\ (forall fuel c w',
        Getopt fuel p args w = Some (Crash c, w') ->
        c <> Panic "called with zero length chain").
Proof.
  split; [by destruct p |].
  intros fuel c w' Hrun. apply Getopt_crash in Hrun as (o & Ho & Hrun).
  by apply newParserWrapper_crash in Hrun as [-> _].
Qed.

(** ** The flat parser and its presets *)

(** X18. What the three presets make of the flat parser. For a wrapper
    built by [newParserWrapper] with one of the presets as its last
    config, [Getopt] leaves as positional arguments what the scan did
    not consume; an error of the scan is returned as it is, before any
    count; after a clean scan [NoPositionalArguments] accepts exactly
    no argument and reports too many otherwise,
    [AtLeastOnePositionalArgument] reports too few exactly when there
    is none, and [JustOnePositionalArgument] accepts exactly one and
    reports too few for none and too many for more. *)
Theorem flat_parser_presets (flags : flagsValue) (before : list Config) (c : Config)
    (pw : parserWrapper) (args : list string) :
  newParserWrapper flags (before ++ [c]) = Val (inr pw) ->
  c ∈ [NoPositionalArguments; AtLeastOnePositionalArgument; JustOnePositionalArgument] ->
  isCount (Z.of_nat (length args)) ->
  let r := SetGetopt (set pw) args in
  let rest := drop (S (scanConsumed r)) args in
  exists pw' err,
    pwGetopt pw args = (err, pw', scanHelp r)
    /\ Args pw' = rest
    /\ (forall msg, scanError r = Some msg -> err = Some (FlatParserError msg))
    /\ (scanError r = None ->
        (c = NoPositionalArguments ->
         err = match rest with
               | [] => None
               | _ => Some ErrTooManyPositionalArguments
               end)
        /\ (c = AtLeastOnePositionalArgument ->
            err = match rest with
                  | [] => Some ErrTooFewPositionalArguments
                  | _ => None
                  end)
        /\ (c = JustOnePositionalArgument ->
            err = match rest with
                  | [] => Some ErrTooFewPositionalArguments
                  | [_] => None
                  | _ => Some ErrTooManyPositionalArguments
                  end)).
Proof.
  intros Hbuilt Hc Hcount r rest.
  assert (Hpac : pwPac pw = pacOfConfig c).
  { rewrite newParserWrapper_configs_eq in Hbuilt.
    destruct (newParserWrapper flags []) as [[e | pw0] | cr]; [done | | done].
    injection Hbuilt as <-. rewrite foldl_app. cbn [foldl].
    repeat (apply elem_of_cons in Hc as [-> | Hc]); try done.
    by apply elem_of_nil in Hc. }
  unfold pwGetopt. fold r. fold rest. cbn [pwPac]. rewrite Hpac.
  unfold NArgs, Args. cbn [set setArgs].
  assert (Hlen : (length rest <= length args)%nat).
  { subst rest. rewrite length_drop. lia. }
  destruct (scanError r) as [msg |].
  { eexists _, _. split; [done |]. split; [done |]. split; [| done].
    intros ? H. by simplify_eq. }
  eexists _, _. split; [done |]. split; [done |]. split; [done |]. intros _.
  unfold check, isCount, MaxInt in *.
  split; [| split]; intros ->; cbn [pacOfConfig NoPositionalArguments
    AtLeastOnePositionalArgument JustOnePositionalArgument minArgs maxArgs];
    destruct rest as [|a [|b rest']]; cbn [length] in *;
    repeat case_match; try done;
    repeat match goal with
           | H : (_ <? _)%Z = true |- _ => apply Z.ltb_lt in H
           | H : (_ <? _)%Z = false |- _ => apply Z.ltb_ge in H
           end; unfold MaxInt in *; lia.
Qed.

(** ** The bare invocation *)

Lemma printSubcommands_setHelp (p : CommandParser) (h : bool) (names : list string) :
  printSubcommands (setHelp p h) names = printSubcommands p names.
Proof. by destruct p. Qed.

Lemma printHelp_setHelp (p : CommandParser) (h : bool) (chain : list CommandParser) :
  printHelp (setHelp p h) chain = printHelp p chain.
Proof.
  unfold printHelp. by rewrite printSubcommands_setHelp.
Qed.

(** X19. The program run with no argument prints what its help flag
    prints. At a root that has children and a clear help cell, when the
    scan of the program name alone stops at once and the scan of the
    program name followed by one flag is clean and consumes the flag,
    both calls of [Getopt] print the same help text and return the help
    sentinel; the bare call leaves the tree as it was, the other one
    changes at most help cells. This holds whether the flag is the
    [--help] the package injects, which sets the help cell, or an
    option of the record itself, which leaves no argument behind. *)
Theorem bare_invocation_is_help (p : CommandParser) (prog flag : string)
    (r : scanned) (w : World) (fuel : nat) :
  subcommands p <> [] ->
  help p = false ->
  scanAt p [p] [prog] = Some stoppedAtOnce ->
  scanAt p [p] [prog; flag] = Some r ->
  scanError r = None ->
  scanConsumed r = 1%nat ->
  exists text node,
    Getopt (S fuel) p [prog] w = Some (Val (inr printedHelp, p), addStdout w text)
    /\ Getopt (S fuel) p [prog; flag] w
       = Some (Val (inr printedHelp, node), addStdout w text)
    /\ shape node = shape p.
Proof.
  intros Hkids Hhelp Hbare Hflag Hclean Hconsumed.
  assert (Hlen : (length (subcommands p) <=? 0)%nat = false)
    by (by destruct (subcommands p)).
  destruct (scanAt_stopped_parsed p [p] [prog]) as (parser & Hparsed & Hargs);
    [done | done | unfold isCount, MaxInt; cbn; lia |].
  cbn [tail] in Hargs.
  unfold scanAt in Hflag.
  destruct (cpNewParserWrapper p [p]) as [[[e | parser0] full] | c] eqn:Hbuilt; try done.
  injection Hflag as Hflag.
  destruct (cpNewParserWrapper_built _ _ _ _ Hbuilt) as [pw0 Hpw0].
  destruct (printHelp_writes p p pw0 Hpw0) as [text Htext].
  destruct (pwGetopt_clean parser0 [prog; flag] (cpNewParserWrapper_pac _ _ _ _ Hbuilt))
    as (parser' & Hget & _ & Hargs'); [unfold isCount, MaxInt; cbn; lia | by rewrite Hflag |].
  rewrite Hflag in Hget, Hargs'. rewrite Hconsumed in Hargs'. cbn [drop] in Hargs'.
  exists text, (setHelp p (helpAfter p parser' (scanHelp r))).
  split; [| split; [| apply shape_setHelp]].
  - cbn [Getopt length Nat.ltb Nat.leb].
    rewrite (getoptall_parsed _ _ _ _ _ w Hparsed). unfold afterParse.
    rewrite Hhelp, Hlen. unfold NArgs. rewrite Hargs.
    change (Z.of_nat (length (@nil string)) <=? 0)%Z with true. cbv iota.
    change (length [p] <? 2)%nat with true. cbv iota.
    unfold bind. by rewrite Htext.
  - cbn [Getopt length Nat.ltb Nat.leb].
    rewrite getoptall_unfold, Hbuilt, Hget. cbv zeta.
    set (p1 := setHelp p (helpAfter p parser' (scanHelp r))).
    assert (Hprint : (printHelp p1 [p] ;; ret (@inr error _ printedHelp, p1)) w
                     = (Val (inr printedHelp, p1), addStdout w text)).
    { unfold bind. subst p1. by rewrite printHelp_setHelp, Htext. }
    unfold afterParse. change (subcommands p1) with (subcommands p).
    destruct (help p1); [by rewrite Hprint |].
    rewrite Hlen. unfold NArgs. rewrite Hargs'.
    change (Z.of_nat (length (@nil string)) <=? 0)%Z with true. cbv iota.
    change (length [p] <? 2)%nat with true. cbv iota. by rewrite Hprint.
Qed.

(** ** The help subcommand, rendered *)

Lemma helpAt_builds p chain args q chainq :
  helpAt p chain args q chainq -> builds p.
Proof.
  destruct 1 as [p chain args parser0 full Hbuilt | p chain args ? ? ? ? ? ? _ Hscan].
  - by eapply cpNewParserWrapper_built.
  - by eapply scanAt_builds.
Qed.

(** The chain to the node whose help is read follows the names of the
    command line. *)
Lemma helpAt_path p chain args q chainq :
  helpAt p chain args q chainq ->
  exists path, chainq = chain ++ path /\ map name path `prefix_of` tail args.
Proof.
  induction 1 as [p chain args parser0 full
                 | p chain args subcmd rest i sc q chainq _ _ Hargs Hfind _ IH].
  - exists []. split; [by rewrite app_nil_r | apply prefix_nil].
  - destruct IH as (path & -> & Hpath). exists (sc :: path).
    split; [by rewrite <- app_assoc |].
    apply findSubcommand_Some in Hfind as (_ & Hname & _).
    rewrite Hargs. cbn [map tail] in *. rewrite Hname. by apply prefix_cons.
Qed.

(** Such a walk prints the help of the node it comes to and returns the
    sentinel. *)
Lemma helpAt_getoptall p chain args q chainq :
  helpAt p chain args q chainq ->
  chain <> [] ->
  Forall builds chain ->
  isCount (Z.of_nat (length args)) ->
  forall w, exists p',
    getoptall p chain args w
    = (Val (inr printedHelp, p'), addStdout w (helpText q chainq))
    /\ shape p' = shape p.
Proof.
  induction 1 as [p chain args parser0 full Hbuilt Hbound Hclean Hset
                 | p chain args subcmd rest i sc q chainq Hhelp Hscan Hargs Hfind Hsub IH];
    intros Hne Hchain Hcount w.
  - destruct (pwGetopt_clean parser0 args (cpNewParserWrapper_pac _ _ _ _ Hbuilt)
                Hcount Hclean) as (parser & Hget & Hb & _).
    exists (setHelp p true). split; [| apply shape_setHelp].
    rewrite getoptall_unfold. destruct chain as [|top more] eqn:Hc; [done |].
    rewrite <- Hc in *. rewrite Hbuilt, Hget. cbv zeta.
    assert (Hafter : helpAfter p parser (scanHelp (SetGetopt (set parser0) args)) = true).
    { unfold helpAfter. by rewrite Hb, Hbound, Hset. }
    rewrite Hafter. unfold afterParse. cbn [help setHelp]. unfold bind.
    by rewrite (printHelp_spec (setHelp p true) chain Hchain), helpText_setHelp.
  - destruct (scanAt_stopped_parsed p chain args Hne Hscan) as (parser & Hparsed & Hrest).
    { pose proof (length_tail_le args). unfold isCount in *. lia. }
    assert (Hchain' : Forall builds (chain ++ [sc])).
    { apply Forall_app. split; [done |]. constructor; [| constructor].
      by eapply helpAt_builds. }
    assert (Hcount' : isCount (Z.of_nat (length (subcmd :: rest)))).
    { pose proof (length_tail_le args) as Hle. rewrite Hargs in Hle.
      unfold isCount in *. lia. }
    assert (Hne' : chain ++ [sc] <> []) by (by destruct chain).
    destruct (IH Hne' Hchain' Hcount' w) as (sc' & Hrun & Hshape).
    exists (setSubcommands p (<[i := sc']> (subcommands p))). split.
    + rewrite (getoptall_parsed _ _ _ _ _ w Hparsed). unfold afterParse.
      rewrite Hhelp, Hrest, Hargs.
      assert (Hkids : (length (subcommands p) <=? 0)%nat = false).
      { unfold findSubcommand in Hfind. by destruct (subcommands p). }
      rewrite Hkids. unfold NArgs. rewrite Hrest, Hargs. cbn [length hd].
      replace (Z.of_nat (S (length rest)) <=? 0)%Z with false
        by (symmetry; apply Z.leb_gt; lia).
      rewrite Hfind. unfold bind. by rewrite Hrun.
    + apply findSubcommand_Some in Hfind as (Hi & _).
      rewrite <- (setHelp_same p) at 1. by eapply shape_insert.
Qed.

(** C1, as the code has it. Take a tree built by [Command] from children
    none of which is named [help], so that the internal help leaf is
    registered, and words [n1, ..., nk] that the scanner takes for
    positional arguments: the scan of [program help n1 ... nk] at the
    root and that of [help n1 ... nk] at the help leaf stop at once.
    Then [Getopt] on [program help n1 ... nk] selects the help leaf,
    leaves tree and output untouched and calls itself on
    [program n1 ... nk --help]: each of the two calls returns what the
    other returns. When moreover the words name a chain of subcommands
    from the root to a node at which the scan of the rewritten command
    line reads the help flag, both calls print the help of that node
    for that chain, the same text, nothing else, and return the help
    sentinel; the chain follows the names, and the tree they leave
    differs from the one passed in help cells only. *)
Theorem help_subcommand_rewritten (d : string) (o : flagsValue)
    (subs : list CommandParser) (prog : string) (ns : list string) (w : World) :
  let root := Command d o subs in
  containsHelp subs = false ->
  isCount (Z.of_nat (S (length ns))) ->
  scanAt root [root] (prog :: "help" :: ns) = Some stoppedAtOnce ->
  scanAt helpLeaf [root; helpLeaf] ("help" :: ns) = Some stoppedAtOnce ->
  getoptall root [root] (prog :: "help" :: ns) w
  = (Val (inr {| scOptions := PointerToSubcommandHelp; scArgs := ns |}, root), w)
  /\ (forall fuel,
        Getopt (S fuel) root (prog :: "help" :: ns) w
        = Getopt fuel root (prog :: ns ++ ["--help"]) w)
  /\ (forall r,
        GetoptReturns root (prog :: "help" :: ns) w r
        <-> GetoptReturns root (prog :: ns ++ ["--help"]) w r)
  /\ (forall q chainq,
        isCount (Z.of_nat (length (prog :: ns ++ ["--help"]))) ->
        helpAt root [root] (prog :: ns ++ ["--help"]) q chainq ->
        (exists path, chainq = root :: path
                      /\ map name path `prefix_of` (ns ++ ["--help"]))
        /\ exists root',
             shape root' = shape root
             /\ forall fuel,
                  Getopt (S (S fuel)) root (prog :: "help" :: ns) w
                  = Some (Val (inr printedHelp, root'),
                          addStdout w (helpText q chainq))
                  /\ Getopt (S fuel) root (prog :: ns ++ ["--help"]) w
                     = Some (Val (inr printedHelp, root'),
                             addStdout w (helpText q chainq))).
Proof.
  intros root Hno Hcount Hroot Hleaf.
  assert (Hwalk : getoptall root [root] (prog :: "help" :: ns) w
                  = (Val (inr {| scOptions := PointerToSubcommandHelp; scArgs := ns |},
                          root), w)).
  { destruct (scanAt_stopped_parsed root [root] (prog :: "help" :: ns))
      as (parser & Hparsed & Hargs); [done | done | |].
    { unfold isCount in *. cbn [tail length]. lia. }
    destruct (scanAt_stopped_parsed helpLeaf [root; helpLeaf] ("help" :: ns))
      as (parserH & HparsedH & HargsH); [done | done | |].
    { unfold isCount in *. cbn [tail length]. lia. }
    cbn [tail] in Hargs, HargsH.
    rewrite (getoptall_parsed _ _ _ _ _ _ Hparsed). unfold afterParse.
    destruct (Command_finds_help d o subs Hno) as [i Hfind]. fold root in Hfind.
    assert (Hkids : (length (subcommands root) <=? 0)%nat = false).
    { unfold findSubcommand in Hfind. destruct (subcommands root); [done | done]. }
    replace (help root) with false by done. rewrite Hkids.
    unfold NArgs. rewrite Hargs. cbn [length hd].
    replace (Z.of_nat (S (length ns)) <=? 0)%Z with false by (symmetry; apply Z.leb_gt; lia).
    rewrite Hfind. unfold bind. cbn [app].
    rewrite (getoptall_leaf _ _ _ _ _ w HparsedH); [| done | done].
    destruct helpLeaf_facts as (_ & -> & _ & _ & ->).
    destruct (check_cases newPositionalArgumentsChecker (NArgs parserH))
      as [[Hlt _] | [(_ & Hgt & _) | [_ ->]]].
    - cbn in Hlt. unfold NArgs in Hlt. lia.
    - cbn in Hgt. unfold NArgs in Hgt. rewrite HargsH in Hgt. unfold isCount in Hcount. lia.
    - unfold ret. cbn [fst snd]. rewrite HargsH.
      apply list_find_Some in Hfind as (Hi & _).
      rewrite list_insert_id by done. done. }
  assert (Hstep : forall fuel,
            Getopt (S fuel) root (prog :: "help" :: ns) w
            = Getopt fuel root (prog :: ns ++ ["--help"]) w).
  { intros fuel. cbn [Getopt length Nat.ltb Nat.leb]. by rewrite Hwalk. }
  split; [done |]. split; [done |]. split.
  { intros r. split.
    - intros [[|fuel] Hrun]; [done |]. exists fuel. by rewrite <- Hstep.
    - intros [fuel Hrun]. exists (S fuel). by rewrite Hstep. }
  intros q chainq Hcount2 Hhelp. split.
  { destruct (helpAt_path _ _ _ _ _ Hhelp) as (path & -> & Hpath). by exists path. }
  assert (Hchain : Forall builds [root]).
  { constructor; [| constructor]. by eapply helpAt_builds. }
  destruct (helpAt_getoptall _ _ _ _ _ Hhelp ltac:(done) Hchain Hcount2 w)
    as (root' & Hrun & Hshape).
  exists root'. split; [done |]. intros fuel.
  assert (Hsecond : Getopt (S fuel) root (prog :: ns ++ ["--help"]) w
                    = Some (Val (inr printedHelp, root'),
                            addStdout w (helpText q chainq))).
  { cbn [Getopt length Nat.ltb Nat.leb]. by rewrite Hrun. }
  split; [by rewrite Hstep |]. done.
Qed.

End Getoptx.

(** * Runs on concrete inputs

    The statements below run the development with the instance of the
    library parameters on a small command line tool, the one of the
    package's example: global options, a [run] command with a
    [websites] subcommand, a [list] command that takes one argument. *)

(** The scanner of the instance stops at once on a word, and on a
    vector that holds the program name only, when the set has no
    mandatory option. *)
Lemma posixGetopt_stops (s : getoptSet) (prog : string) (rest : list string) :
  missingMandatory (setOptions s) [] = None ->
  match rest with
  | [] => True
  | word :: _ => isWord word = true
  end ->
  posixGetopt s (prog :: rest) = stoppedAtOnce.
Proof.
  intros Hnone Hword. unfold posixGetopt. cbn [tail].
  destruct rest as [|word rest]; cbn [scanLoop]; unfold scanEnd; cbn [fst snd].
  - by rewrite Hnone.
  - assert (Hstop : scanArg (setOptions s) word (head rest) (None, []) = StopHere).
    { destruct word as [|c word]; [done |]. unfold isWord in Hword.
      destruct c as [[] [] [] [] [] [] [] []]; try done. }
    rewrite Hstop. unfold scanEnd. cbn [fst snd]. by rewrite Hnone.
Qed.

Local Abbreviation w0 := ({| stdout := ""; stderr := "" |}).

Local Abbreviation websitesLeaf :=
  (LeafSubcommand "websites" "checks for blocked websites"
     (PointerToStruct "RunWebsitesOptions"
        [mkField "EnableHTTP3" true KBool "enable HTTP3 measurements" "" ""])
     [NoPositionalArguments]).

Local Abbreviation runNode :=
  (Subcommand "run" "runs nettests"
     (PointerToStruct "RunOptions"
        [mkField "Input" true KValue "add URL to measure" "i" ""])
     [websitesLeaf]).

Local Abbreviation listLeaf :=
  (LeafSubcommand "list" "lists available measurements"
     (PointerToStruct "ListOptions"
        [mkField "ID" true KValue "ID of the input to show" "" ""])
     [JustOnePositionalArgument]).

Local Abbreviation demoTree :=
  (Command "prog" "network measurement tool"
     (PointerToStruct "Options"
        [mkField "Batch" true KBool "emit JSON formatted logs" "b" "";
         mkField "Verbose" true KCounter "increases verbosity" "v" ""])
     [runNode; listLeaf]).

(** The same tool with a help command of its own. *)
Local Abbreviation ownHelpTree :=
  (Command "prog" "network measurement tool" (PointerToStruct "Options" [])
     [LeafSubcommand "help" "explains the tool" (PointerToStruct "HelpOptions" []) []]).

(** A tool one of whose commands has a [--help] option of its own. *)
Local Abbreviation showLeaf :=
  (LeafSubcommand "show" "shows a measurement"
     (PointerToStruct "ShowOptions"
        [mkField "Help" true KBool "explains show" "" ""]) []).

Local Abbreviation showTree :=
  (Command "prog" "network measurement tool" (PointerToStruct "Options" []) [showLeaf]).

(** The two bytes of the letter e with an acute accent. *)
Local Abbreviation eAcute :=
  (String (ascii_of_nat 195) (String (ascii_of_nat 169) EmptyString)).

Lemma check_exactly_witness :
  check (pacOfConfig JustOnePositionalArgument) 2 = Some ErrTooManyPositionalArguments
  <-> (2 > maxArgs (pacOfConfig JustOnePositionalArgument))%Z.
Proof.
  assert (Hc : isCount 2) by (unfold isCount, MaxInt; lia).
  assert (Hinv : (minArgs (pacOfConfig JustOnePositionalArgument)
                  <= maxArgs (pacOfConfig JustOnePositionalArgument))%Z) by (cbn; lia).
  exact (proj1 (proj2 (check_exactly (pacOfConfig JustOnePositionalArgument) 2 Hc Hinv))).
Defined.

Lemma undocumented_field_rejected_witness :
  newParserWrapper lowerKebab
    (PointerToStruct "Options"
       [mkField "Batch" true KBool "emit JSON formatted logs" "b" "";
        mkField "Verbose" true KCounter "" "v" "";
        mkField "Input" true KValue "add URL to measure" "" ""]) []
  = Val (inl errMissingDocumentation).
Proof.
  eapply (proj1 (proj2 (undocumented_field_rejected lowerKebab "Options"
            [mkField "Batch" true KBool "emit JSON formatted logs" "b" ""]
            [mkField "Input" true KValue "add URL to measure" "" ""]
            (mkField "Verbose" true KCounter "" "v" "") [] eq_refl))).
  reflexivity.
Defined.

Local Abbreviation badShortThenUndocumented :=
  ([mkField "Name" true KValue "name of the input" "nm" "";
    mkField "Age" true KValue "" "" ""]).

(** C7 as stated fails: the record above has an undocumented field that
    is not excluded, and building it fails with the invalid-short-name
    error of the field before it, not with the missing-documentation
    error. *)
Lemma undocumented_field_other_error :
  (exists f, f ∈ badShortThenUndocumented /\ tagDoc f = "" /\ tagDoc f <> "-")
  /\ newParserWrapper lowerKebab (PointerToStruct "Options" badShortThenUndocumented) []
     = Val (inl errInvalidShortName)
  /\ newParserWrapper lowerKebab (PointerToStruct "Options" badShortThenUndocumented) []
     <> Val (inl errMissingDocumentation).
Proof.
  split; [| split].
  - eexists. split; [apply elem_of_cons; right; apply elem_of_cons; left; reflexivity |].
    done.
  - reflexivity.
  - discriminate.
Qed.

Lemma short_tag_one_byte_witness :
  processField lowerKebab 0 (mkField "Input" true KValue "add URL to measure" "in" "")
    (getoptNew, ∅, ∅)
  = Val (inl errInvalidShortName).
Proof.
  assert (H1 : tagDoc (mkField "Input" true KValue "add URL to measure" "in" "") <> "-")
    by discriminate.
  assert (H2 : tagDoc (mkField "Input" true KValue "add URL to measure" "in" "") <> "")
    by discriminate.
  assert (H3 : tagShort (mkField "Input" true KValue "add URL to measure" "in" "") <> "")
    by discriminate.
  apply (proj2 (proj1 (short_tag_one_byte lowerKebab 0
           (mkField "Input" true KValue "add URL to measure" "in" "")
           (getoptNew, ∅, ∅) H1 H2 H3))).
  discriminate.
Defined.

(** C8 as stated fails: the short tag below decodes to exactly one
    character, of two bytes, and building the record fails with the
    invalid-short-name error. *)
Lemma multibyte_short_tag_rejected :
  RuneCountInString eAcute = 1%nat
  /\ String.length eAcute = 2%nat
  /\ newParserWrapper lowerKebab
       (PointerToStruct "Options"
          [mkField "Input" true KValue "add URL to measure" eAcute ""]) []
     = Val (inl errInvalidShortName).
Proof. split; [| split]; reflexivity. Qed.

Local Abbreviation ownHelpOption :=
  ({| optLong := "help"; optShort := 0; optHelpvalue := "explains the tool";
      optFlag := true; optMandatory := false; optTarget := BoundField 0 |}).

Local Abbreviation ownHelpWrapper :=
  ({| set := {| setOptions := [ownHelpOption]; setProgram := None;
                setParameters := None; setArgs := [] |};
      docs := {["help" := "explains the tool"]};
      pwPac := newPositionalArgumentsChecker; required := ∅ |}).

Lemma help_injected_unless_present_witness :
  maybeAddHelpFlags visitInOrder ownHelpWrapper = Val (false, ownHelpWrapper).
Proof.
  apply (proj1 (proj2 (help_injected_unless_present visitInOrder
                         (fun opts => Permutation_refl opts) ownHelpWrapper))).
  eexists. split; [apply elem_of_cons; left; reflexivity |]. right. reflexivity.
Defined.

(** The lines of a text, each closed by a line feed. *)
Local Abbreviation lines l := (concatStrings (map (fun line => line +:+ LF) l)).

Local Abbreviation demoHelp :=
  (lines [""; "Usage: prog [options] <subcommand> [...]"; "";
          "network measurement tool."; "";
          "Options for prog:"; "";
          "Options:"; "";
          "  -b, --batch";
          "             emit JSON formatted logs."; "";
          "  -v, --verbose";
          "             increases verbosity."; "";
          "Subcommands:"; "";
          "  help";
          "             Prints generic or command-specific help."; "";
          "  list";
          "             lists available measurements."; "";
          "  run websites";
          "             checks for blocked websites."; ""]).

(** The program alone prints its help; [run] alone, below the root,
    lacks the name of a subcommand. *)
Lemma bare_invocation_or_missing_name_witness :
  getoptall lowerKebab noWrap visitInOrder posixGetopt demoTree [demoTree] ["prog"] w0
  = (Val (inr printedHelp, demoTree), {| stdout := demoHelp; stderr := "" |})
  /\ getoptall lowerKebab noWrap visitInOrder posixGetopt runNode [demoTree; runNode]
       ["run"] w0
     = (Val (inl (errorsNew "expected subcommand name"), runNode),
        {| stdout := "";
           stderr := "prog: expected subcommand name. See 'prog run --help'." +:+ LF |}).
Proof.
  split.
  - destruct (scanAt_stopped_parsed lowerKebab visitInOrder posixGetopt
                demoTree [demoTree] ["prog"])
      as (parser & Hparsed & Hargs);
      [done | reflexivity | unfold isCount, MaxInt; cbn; lia |].
    assert (Hkids : subcommands demoTree <> []) by done.
    rewrite (proj1 (proj2 (proj1 (proj2 (proj2
               (bare_invocation_or_missing_name lowerKebab noWrap visitInOrder
                  posixGetopt demoTree [demoTree] ["prog"] parser demoTree w0
                  Hparsed eq_refl Hkids Hargs))) eq_refl))).
    vm_compute. reflexivity.
  - destruct (scanAt_stopped_parsed lowerKebab visitInOrder posixGetopt
                runNode [demoTree; runNode] ["run"])
      as (parser & Hparsed & Hargs);
      [done | reflexivity | unfold isCount, MaxInt; cbn; lia |].
    assert (Hkids : subcommands runNode <> []) by done.
    assert (Hlen : (2 <= length [demoTree; runNode])%nat) by (cbn; lia).
    rewrite (proj2 (proj2 (proj2 (bare_invocation_or_missing_name lowerKebab noWrap
               visitInOrder posixGetopt runNode [demoTree; runNode] ["run"] parser
               runNode w0 Hparsed eq_refl Hkids Hargs))) Hlen).
    reflexivity.
Defined.

Lemma leaf_policy_enforced_witness :
  getoptall lowerKebab noWrap visitInOrder posixGetopt listLeaf [demoTree; listLeaf]
    ["list"; "a"; "b"] w0
  = (Val (inl (fmtErrorf "prog: for command list: too many positional arguments"
                 ErrTooManyPositionalArguments), listLeaf), w0).
Proof.
  destruct (scanAt_stopped_parsed lowerKebab visitInOrder posixGetopt
              listLeaf [demoTree; listLeaf] ["list"; "a"; "b"])
    as (parser & Hparsed & Hargs);
    [done | reflexivity | unfold isCount, MaxInt; cbn; lia |].
  assert (Hmin : (minArgs (pac listLeaf) <= NArgs parser)%Z)
    by (unfold NArgs; rewrite Hargs; cbn; lia).
  assert (Hmax : (maxArgs (pac listLeaf) < NArgs parser)%Z)
    by (unfold NArgs; rewrite Hargs; cbn; lia).
  rewrite (proj1 (proj2 (leaf_policy_enforced lowerKebab noWrap visitInOrder
             posixGetopt listLeaf [demoTree; listLeaf] ["list"; "a"; "b"] parser
             listLeaf w0 Hparsed eq_refl eq_refl)) Hmin Hmax).
  reflexivity.
Defined.

Lemma unknown_subcommand_rejected_witness :
  getoptall lowerKebab noWrap visitInOrder posixGetopt demoTree [demoTree]
    ["prog"; "bogus"; "x"] w0
  = (Val (inl ErrNoSuchSubcommand, demoTree),
     {| stdout := "";
        stderr := "prog: no such subcommand: 'bogus'. See 'prog --help'." +:+ LF |}).
Proof.
  destruct (scanAt_stopped_parsed lowerKebab visitInOrder posixGetopt
              demoTree [demoTree] ["prog"; "bogus"; "x"])
    as (parser & Hparsed & Hargs);
    [done | reflexivity | unfold isCount, MaxInt; cbn; lia |].
  assert (Hkids : subcommands demoTree <> []) by done.
  assert (Hnone : forall sc, sc ∈ subcommands demoTree -> name sc <> "bogus").
  { intros sc Hsc. vm_compute in Hsc.
    repeat (apply elem_of_cons in Hsc as [-> | Hsc]); try done.
    by apply elem_of_nil in Hsc. }
  rewrite (unknown_subcommand_rejected lowerKebab noWrap visitInOrder posixGetopt
             demoTree [demoTree] ["prog"; "bogus"; "x"] parser demoTree w0 "bogus" ["x"]
             Hparsed eq_refl Hkids Hargs Hnone).
  reflexivity.
Defined.

Local Abbreviation websitesHelp :=
  (lines [""; "Usage: prog [options] run [options] websites [options]"; "";
          "checks for blocked websites."; "";
          "Options for prog:"; "";
          "Options:"; "";
          "  -b, --batch";
          "             emit JSON formatted logs."; "";
          "  -v, --verbose";
          "             increases verbosity."; "";
          "Options for run:"; "";
          "Options:"; "";
          "  -i, --input value";
          "             add URL to measure."; "";
          "Options for websites:"; "";
          "Options:"; "";
          "      --enablehttp3";
          "             enable HTTP3 measurements."; ""]).

(** [prog help run websites] is [prog run websites --help], and prints
    the help of [websites]. *)
Lemma help_subcommand_rewritten_witness :
  Getopt lowerKebab noWrap visitInOrder posixGetopt 2 demoTree
    ["prog"; "help"; "run"; "websites"] w0
  = Getopt lowerKebab noWrap visitInOrder posixGetopt 1 demoTree
      ["prog"; "run"; "websites"; "--help"] w0
  /\ exists root',
       Getopt lowerKebab noWrap visitInOrder posixGetopt 2 demoTree
         ["prog"; "help"; "run"; "websites"] w0
       = Some (Val (inr printedHelp, root'), {| stdout := websitesHelp; stderr := "" |}).
Proof.
  assert (Hcount : isCount (Z.of_nat (S (length ["run"; "websites"]))))
    by (unfold isCount, MaxInt; cbn; lia).
  pose proof (help_subcommand_rewritten "prog" lowerKebab noWrap visitInOrder
                posixGetopt "network measurement tool"
                (PointerToStruct "Options"
                   [mkField "Batch" true KBool "emit JSON formatted logs" "b" "";
                    mkField "Verbose" true KCounter "increases verbosity" "v" ""])
                [runNode; listLeaf] "prog" ["run"; "websites"] w0
                eq_refl Hcount eq_refl eq_refl) as (_ & Hstep & _ & Hrendered).
  split; [exact (Hstep 1%nat) |].
  assert (Hcount2 : isCount (Z.of_nat (length ("prog" :: ["run"; "websites"] ++ ["--help"]))))
    by (unfold isCount, MaxInt; cbn; lia).
  assert (Hhelp : helpAt lowerKebab visitInOrder posixGetopt demoTree [demoTree]
                    ("prog" :: ["run"; "websites"] ++ ["--help"])
                    websitesLeaf [demoTree; runNode; websitesLeaf]).
  { eapply (helpAt_child _ _ _ demoTree [demoTree] _ "run" ["websites"; "--help"] 2 runNode);
      [reflexivity | reflexivity | reflexivity | reflexivity |].
    eapply (helpAt_child _ _ _ runNode [demoTree; runNode] _ "websites" ["--help"] 0
              websitesLeaf);
      [reflexivity | reflexivity | reflexivity | reflexivity |].
    eapply (helpAt_here _ _ _ websitesLeaf [demoTree; runNode; websitesLeaf]);
      [vm_compute; reflexivity | reflexivity | reflexivity | reflexivity]. }
  destruct (Hrendered websitesLeaf [demoTree; runNode; websitesLeaf] Hcount2 Hhelp)
    as (_ & root' & _ & Hruns).
  exists root'. rewrite (proj1 (Hruns 0%nat)). vm_compute. reflexivity.
Defined.

(** C1 as stated fails on a tree whose caller supplies a help command:
    [prog help] selects that command, whereas [prog --help] prints the
    help of the program and returns the help sentinel. It also fails,
    on a tree with the internal help leaf, for a chain that holds a
    word that is no subcommand: [prog help list a] is rewritten to
    [prog list a --help], both calls come to the leaf [list] with two
    arguments, print no help and return the error of that leaf, not the
    help sentinel. And it fails for the name of a leaf whose record has
    a [--help] option of its own, which the package then does not add:
    [prog help show] is [prog show --help], and both select [show]
    and print nothing. *)
Lemma own_help_subcommand_not_rewritten :
  Getopt lowerKebab noWrap visitInOrder posixGetopt 1 ownHelpTree ["prog"; "help"] w0
  = Some (Val (inr {| scOptions := PointerToStruct "HelpOptions" []; scArgs := [] |},
                ownHelpTree), w0)
  /\ (exists node w,
        Getopt lowerKebab noWrap visitInOrder posixGetopt 1 ownHelpTree
          ["prog"; "--help"] w0
        = Some (Val (inr printedHelp, node), w))
  /\ ~ (forall r,
          GetoptReturns lowerKebab noWrap visitInOrder posixGetopt ownHelpTree
            ["prog"; "help"] w0 r
          <-> GetoptReturns lowerKebab noWrap visitInOrder posixGetopt ownHelpTree
                ["prog"; "--help"] w0 r)
  /\ Getopt lowerKebab noWrap visitInOrder posixGetopt 2 demoTree
       ["prog"; "help"; "list"; "a"] w0
     = Some (Val (inl (fmtErrorf "prog: for command list: too many positional arguments"
                         ErrTooManyPositionalArguments), demoTree), w0)
  /\ Getopt lowerKebab noWrap visitInOrder posixGetopt 1 demoTree
       ["prog"; "list"; "a"; "--help"] w0
     = Some (Val (inl (fmtErrorf "prog: for command list: too many positional arguments"
                         ErrTooManyPositionalArguments), demoTree), w0)
  /\ Getopt lowerKebab noWrap visitInOrder posixGetopt 2 showTree
       ["prog"; "help"; "show"] w0
     = Some (Val (inr {| scOptions := options showLeaf; scArgs := [] |}, showTree), w0)
  /\ Getopt lowerKebab noWrap visitInOrder posixGetopt 1 showTree
       ["prog"; "show"; "--help"] w0
     = Some (Val (inr {| scOptions := options showLeaf; scArgs := [] |}, showTree), w0).
Proof.
  split; [reflexivity |]. split; [eexists _, _; reflexivity |].
  split; [| repeat split; vm_compute; reflexivity].
  intros Hsame.
  assert (H1 : GetoptReturns lowerKebab noWrap visitInOrder posixGetopt ownHelpTree
                 ["prog"; "help"] w0
                 (Val (inr {| scOptions := PointerToStruct "HelpOptions" [];
                              scArgs := [] |}, ownHelpTree), w0))
    by (exists 1%nat; reflexivity).
  apply Hsame in H1.
  assert (H2 : exists node w,
            GetoptReturns lowerKebab noWrap visitInOrder posixGetopt ownHelpTree
              ["prog"; "--help"] w0 (Val (inr printedHelp, node), w))
    by (eexists _, _; exists 1%nat; reflexivity).
  destruct H2 as (node & w & H2).
  pose proof (GetoptReturns_unique _ _ _ _ _ _ _ _ _ H1 H2) as Heq.
  discriminate Heq.
Qed.

(** The cases the specification lists for resolution, run on the tool
    above. *)

Example help_for_a_chain :
  exists node text,
    Getopt lowerKebab noWrap visitInOrder posixGetopt 2 demoTree
      ["prog"; "help"; "run"; "websites"] w0
    = Some (Val (inr printedHelp, node), {| stdout := text; stderr := "" |})
    /\ Getopt lowerKebab noWrap visitInOrder posixGetopt 1 demoTree
         ["prog"; "run"; "websites"; "--help"] w0
       = Some (Val (inr printedHelp, node), {| stdout := text; stderr := "" |})
    /\ text <> "".
Proof.
  eexists _, _. split; [vm_compute; reflexivity |].
  split; [vm_compute; reflexivity | discriminate].
Qed.

Example bare_invocation_prints_help :
  exists node node' text,
    Getopt lowerKebab noWrap visitInOrder posixGetopt 1 demoTree ["prog"] w0
    = Some (Val (inr printedHelp, node), {| stdout := text; stderr := "" |})
    /\ Getopt lowerKebab noWrap visitInOrder posixGetopt 1 demoTree ["prog"; "--help"] w0
       = Some (Val (inr printedHelp, node'), {| stdout := text; stderr := "" |})
    /\ text <> "".
Proof.
  eexists _, _, _. split; [vm_compute; reflexivity |].
  split; [vm_compute; reflexivity | discriminate].
Qed.

Example leaf_taking_one_argument :
  Getopt lowerKebab noWrap visitInOrder posixGetopt 1 demoTree ["prog"; "list"] w0
  = Some (Val (inl (fmtErrorf "prog: for command list: too few positional arguments"
                      ErrTooFewPositionalArguments), demoTree), w0)
  /\ Getopt lowerKebab noWrap visitInOrder posixGetopt 1 demoTree
       ["prog"; "list"; "a"; "b"] w0
     = Some (Val (inl (fmtErrorf "prog: for command list: too many positional arguments"
                         ErrTooManyPositionalArguments), demoTree), w0)
  /\ Getopt lowerKebab noWrap visitInOrder posixGetopt 1 demoTree
       ["prog"; "list"; "a"] w0
     = Some (Val (inr {| scOptions := options listLeaf; scArgs := ["a"] |}, demoTree), w0).
Proof. split; [vm_compute; reflexivity |]. split; vm_compute; reflexivity. Qed.

Example unknown_subcommand :
  Getopt lowerKebab noWrap visitInOrder posixGetopt 1 demoTree ["prog"; "bogus"] w0
  = Some (Val (inl ErrNoSuchSubcommand, demoTree),
          {| stdout := "";
             stderr := "prog: no such subcommand: 'bogus'. See 'prog --help'." +:+ LF |}).
Proof. vm_compute. reflexivity. Qed.

Example listing_is_alphabetical :
  map fst (listing demoTree [])
  = [["help"]; ["list"]; ["run"; "websites"]].
Proof. vm_compute. reflexivity. Qed.

(** * The further properties on the same tool *)

(** [prog run --help] prints the help of [run] and sets the help cell
    of that node: the tree differs from the one passed, in help cells
    only. *)
Lemma resolution_keeps_the_tree_witness :
  match Getopt lowerKebab noWrap visitInOrder posixGetopt 1 demoTree
          ["prog"; "run"; "--help"] w0 with
  | Some (Val (_, node), _) =>
      shape node = shape demoTree
      /\ map name (subcommands node) = map name (subcommands demoTree)
  | _ => False
  end.
Proof.
  destruct (Getopt lowerKebab noWrap visitInOrder posixGetopt 1 demoTree
              ["prog"; "run"; "--help"] w0)
    as [[[[res node] | c] w] |] eqn:Hrun;
    [| vm_compute in Hrun; discriminate Hrun ..].
  pose proof (resolution_keeps_the_tree lowerKebab noWrap visitInOrder posixGetopt
                1 demoTree ["prog"; "run"; "--help"] w0 res node w Hrun) as Hkept.
  exact (conj (proj1 Hkept) (proj2 (proj2 (proj2 (proj2 (proj2 Hkept)))))).
Defined.

(** [prog help list] selects the internal help leaf first; what [Getopt]
    returns is the help sentinel, not the marker of that leaf. *)
Lemma only_leaves_are_selected_witness :
  match Getopt lowerKebab noWrap visitInOrder posixGetopt 2 demoTree
          ["prog"; "help"; "list"] w0 with
  | Some (Val (inr sc, _), _) =>
      scOptions sc <> PointerToSubcommandHelp
      /\ (sc = printedHelp \/ scOptions sc ∈ leafOptions demoTree)
  | _ => False
  end.
Proof.
  destruct (Getopt lowerKebab noWrap visitInOrder posixGetopt 2 demoTree
              ["prog"; "help"; "list"] w0)
    as [[[[[err | sc] node] | c] w] |] eqn:Hrun;
    [vm_compute in Hrun; discriminate Hrun | | vm_compute in Hrun; discriminate Hrun ..].
  exact (only_leaves_are_selected lowerKebab noWrap visitInOrder posixGetopt
           2 demoTree ["prog"; "help"; "list"] w0 sc node w Hrun).
Defined.

(** An unknown subcommand is reported on the standard error alone. *)
Lemma streams_kept_apart_witness :
  match Getopt lowerKebab noWrap visitInOrder posixGetopt 1 demoTree
          ["prog"; "bogus"] w0 with
  | Some (Val (inl _, _), w) => stdout w = stdout w0
  | _ => False
  end.
Proof.
  destruct (Getopt lowerKebab noWrap visitInOrder posixGetopt 1 demoTree
              ["prog"; "bogus"] w0)
    as [[[[[err | sc] node] | c] w] |] eqn:Hrun;
    [| vm_compute in Hrun; discriminate Hrun ..].
  exact (streams_kept_apart lowerKebab noWrap visitInOrder posixGetopt
           1 demoTree ["prog"; "bogus"] w0 (inl err) node w Hrun).
Defined.

(** [prog run] lacks the name of a subcommand: one line on the standard
    error, headed by the name of the program. *)
Lemma failures_and_their_reports_witness :
  match getoptall lowerKebab noWrap visitInOrder posixGetopt demoTree [demoTree]
          ["prog"; "run"] w0 with
  | (Val (inl _, _), w) =>
      w = w0 \/ exists text, w = addStderr w0 ("prog" +:+ ": " +:+ text)
  | _ => False
  end.
Proof.
  assert (Hcount : isCount (Z.of_nat (length ["prog"; "run"])))
    by (unfold isCount, MaxInt; cbn; lia).
  destruct (getoptall lowerKebab noWrap visitInOrder posixGetopt demoTree [demoTree]
              ["prog"; "run"] w0)
    as [[[[err | sc] node] | c] w] eqn:Hrun;
    [| vm_compute in Hrun; discriminate Hrun ..].
  destruct (failures_and_their_reports lowerKebab noWrap visitInOrder posixGetopt
              demoTree [demoTree] ["prog"; "run"] w0 err node w Hcount Hrun)
    as [(inner & leaf & _ & _ & Hw) | (reached & text & _ & Hw & _)].
  - left. exact Hw.
  - right. exists text. exact Hw.
Defined.

Lemma Getopt_returns_witness :
  exists r,
    Getopt lowerKebab noWrap visitInOrder posixGetopt
      (S (countHelp (tail ["prog"; "help"; "help"; "run"]))) demoTree
      ["prog"; "help"; "help"; "run"] w0 = Some r
    /\ GetoptReturns lowerKebab noWrap visitInOrder posixGetopt demoTree
         ["prog"; "help"; "help"; "run"] w0 r.
Proof.
  apply (Getopt_returns lowerKebab noWrap visitInOrder posixGetopt demoTree
           ["prog"; "help"; "help"; "run"] w0).
  - discriminate.
  - vm_compute. repeat split; try (intros H; discriminate H).
Defined.

Lemma options_follow_the_fields_witness :
  match newParserWrapper lowerKebab
          (PointerToStruct "Options"
             [mkField "Batch" true KBool "emit JSON formatted logs" "b" "";
              mkField "Run" true KValue "-" "" "";
              mkField "Verbose" true KCounter "increases verbosity" "v" "true"]) [] with
  | Val (inr pw) =>
      setOptions (set pw)
      = [ {| optLong := "batch"; optShort := 98;
             optHelpvalue := "emit JSON formatted logs"; optFlag := true;
             optMandatory := false; optTarget := BoundField 0 |};
          {| optLong := "verbose"; optShort := 118;
             optHelpvalue := "increases verbosity"; optFlag := true;
             optMandatory := true; optTarget := BoundField 2 |} ]
  | _ => False
  end.
Proof.
  destruct (newParserWrapper lowerKebab
              (PointerToStruct "Options"
                 [mkField "Batch" true KBool "emit JSON formatted logs" "b" "";
                  mkField "Run" true KValue "-" "" "";
                  mkField "Verbose" true KCounter "increases verbosity" "v" "true"]) [])
    as [[e | pw] | c] eqn:Hbuilt;
    [vm_compute in Hbuilt; discriminate Hbuilt | | vm_compute in Hbuilt; discriminate Hbuilt].
  exact (proj1 (options_follow_the_fields lowerKebab "Options" _ [] pw Hbuilt)).
Defined.

Lemma node_wrapper_answers_to_help_witness :
  cpNewParserWrapper lowerKebab visitInOrder runNode [demoTree; runNode]
  = Crash LibraryExit
  <-> newParserWrapper lowerKebab (options runNode) [] = Crash LibraryExit.
Proof.
  exact (proj1 (node_wrapper_answers_to_help lowerKebab visitInOrder
                  (fun opts => Permutation_refl opts) runNode [demoTree; runNode])
           LibraryExit).
Defined.

Lemma last_policy_wins_witness :
  LeafSubcommand "list" "lists available measurements" (PointerToStruct "ListOptions" [])
    [NoPositionalArguments; JustOnePositionalArgument; SetProgramName "list"]
  = mkCommandParser "lists available measurements" false "list"
      (PointerToStruct "ListOptions" []) {| minArgs := 1; maxArgs := 1 |} [].
Proof.
  assert (Hafter : Forall (fun c => isPolicy c = false) [SetProgramName "list"])
    by (repeat constructor).
  exact (proj1 (last_policy_wins lowerKebab "list" "lists available measurements"
                  (PointerToStruct "ListOptions" []) [NoPositionalArguments]
                  [SetProgramName "list"] 1 1 Hafter)).
Defined.

Lemma names_lead_to_their_leaf_witness :
  Getopt lowerKebab noWrap visitInOrder posixGetopt 1 demoTree
    ["prog"; "run"; "websites"] w0
  = Some (Val (inr {| scOptions := options websitesLeaf; scArgs := [] |}, demoTree), w0).
Proof.
  assert (Hrouted : routed lowerKebab visitInOrder posixGetopt demoTree [demoTree]
                      ["prog"; "run"; "websites"] websitesLeaf []).
  { apply (routed_child lowerKebab visitInOrder posixGetopt demoTree [demoTree]
             ["prog"; "run"; "websites"] "run" ["websites"] 2 runNode websitesLeaf []);
      [reflexivity | reflexivity | reflexivity | reflexivity |].
    apply (routed_child lowerKebab visitInOrder posixGetopt runNode [demoTree; runNode]
             ["run"; "websites"] "websites" [] 0 websitesLeaf websitesLeaf []);
      [reflexivity | reflexivity | reflexivity | reflexivity |].
    exact (routed_leaf lowerKebab visitInOrder posixGetopt websitesLeaf
             [demoTree; runNode; websitesLeaf] ["websites"] eq_refl eq_refl eq_refl). }
  assert (Hargs : ["prog"; "run"; "websites"] <> []) by discriminate.
  assert (Hcount : isCount (Z.of_nat (length ["prog"; "run"; "websites"])))
    by (unfold isCount, MaxInt; cbn; lia).
  assert (Hleaf : options websitesLeaf <> PointerToSubcommandHelp) by discriminate.
  exact (proj1 (names_lead_to_their_leaf lowerKebab noWrap visitInOrder posixGetopt
                  demoTree ["prog"; "run"; "websites"] websitesLeaf [] w0 0
                  Hrouted Hargs Hcount Hleaf)).
Defined.

(** On the tree as [prog --help] leaves it, [prog list a] prints the
    help of the program again. *)
Lemma set_help_cell_overrides_witness :
  Getopt lowerKebab noWrap visitInOrder posixGetopt 1 (setHelp demoTree true)
    ["prog"; "list"; "a"] w0
  = Some (Val (inr printedHelp, setHelp demoTree true),
          {| stdout := demoHelp; stderr := "" |}).
Proof.
  assert (Hargs : ["prog"; "list"; "a"] <> []) by discriminate.
  assert (Hcount : isCount (Z.of_nat (length ["prog"; "list"; "a"])))
    by (unfold isCount, MaxInt; cbn; lia).
  assert (Hwrote : scanHelp stoppedAtOnce <> Some false) by discriminate.
  rewrite (proj2 (set_help_cell_overrides lowerKebab noWrap visitInOrder posixGetopt
                    (setHelp demoTree true) ["prog"; "list"; "a"] stoppedAtOnce w0 0
                    eq_refl Hargs Hcount eq_refl eq_refl Hwrote)).
  vm_compute. reflexivity.
Defined.

Lemma counter_counts_witness :
  CounterSetAll (fun _ => inl ErrSyntax) 0 (replicate 3 "") = (None, 3).
Proof.
  assert (Hb : MinInt <= 0 <= MaxInt) by (unfold MinInt, MaxInt; lia).
  assert (Hvalue : "x" <> "") by discriminate.
  assert (Hmax : 0 + Z.of_nat 3 <= MaxInt) by (unfold MaxInt; cbn; lia).
  exact (proj1 (proj2 (counter_counts (fun _ => inl ErrSyntax) 0 3 "x" Hb Hvalue)) Hmax).
Defined.

(** A tool whose record gives two options the short name [b]: the
    flat parser library ends the process. *)
Local Abbreviation clashTree :=
  (Command "prog" "network measurement tool"
     (PointerToStruct "Options"
        [mkField "Batch" true KBool "emit JSON formatted logs" "b" "";
         mkField "Bulk" true KBool "measure in bulk" "b" ""])
     [listLeaf]).

Lemma empty_chain_panic_unreachable_witness :
  match Getopt lowerKebab noWrap visitInOrder posixGetopt 1 clashTree ["prog"] w0 with
  | Some (Crash c, _) => c <> Panic "called with zero length chain"
  | _ => False
  end.
Proof.
  destruct (Getopt lowerKebab noWrap visitInOrder posixGetopt 1 clashTree ["prog"] w0)
    as [[[[res node] | c] w] |] eqn:Hrun;
    [vm_compute in Hrun; discriminate Hrun | | vm_compute in Hrun; discriminate Hrun].
  exact (proj2 (empty_chain_panic_unreachable lowerKebab noWrap visitInOrder
                  (fun opts => Permutation_refl opts) posixGetopt clashTree
                  ["prog"] w0) 1%nat c w Hrun).
Defined.

Lemma flat_parser_presets_witness :
  fst (fst (pwGetopt posixGetopt
              {| set := getoptNew; docs := ∅;
                 pwPac := {| minArgs := 0; maxArgs := 0 |}; required := ∅ |}
              ["prog"; "a"]))
  = Some ErrTooManyPositionalArguments.
Proof.
  assert (Hbuilt : newParserWrapper lowerKebab (PointerToStruct "Options" [])
                     ([] ++ [NoPositionalArguments])
                   = Val (inr {| set := getoptNew; docs := ∅;
                                 pwPac := {| minArgs := 0; maxArgs := 0 |};
                                 required := ∅ |})) by reflexivity.
  assert (Hc : NoPositionalArguments
               ∈ [NoPositionalArguments; AtLeastOnePositionalArgument;
                  JustOnePositionalArgument]) by (apply elem_of_cons; by left).
  assert (Hcount : isCount (Z.of_nat (length ["prog"; "a"])))
    by (unfold isCount, MaxInt; cbn; lia).
  destruct (flat_parser_presets lowerKebab posixGetopt (PointerToStruct "Options" [])
              [] NoPositionalArguments _ ["prog"; "a"] Hbuilt Hc Hcount)
    as (pw' & err & Hget & _ & _ & Hclean).
  rewrite Hget. cbn [fst].
  exact (proj1 (Hclean eq_refl) eq_refl).
Defined.

Lemma bare_invocation_is_help_witness :
  exists text node,
    Getopt lowerKebab noWrap visitInOrder posixGetopt 1 demoTree ["prog"] w0
    = Some (Val (inr printedHelp, demoTree), addStdout w0 text)
    /\ Getopt lowerKebab noWrap visitInOrder posixGetopt 1 demoTree ["prog"; "--help"] w0
       = Some (Val (inr printedHelp, node), addStdout w0 text)
    /\ shape node = shape demoTree.
Proof.
  apply (bare_invocation_is_help lowerKebab noWrap visitInOrder posixGetopt demoTree
           "prog" "--help"
           {| scanError := None; scanHelp := Some true; scanConsumed := 1 |} w0 0).
  - discriminate.
  - reflexivity.
  - vm_compute. reflexivity.
  - vm_compute. reflexivity.
  - reflexivity.
  - reflexivity.
Defined.
